(** * Debug-session engine of the Python Debug MCP server

    A shallow embedding of the parts of [src/dapClient.ts],
    [src/sessionManager.ts], [src/index.ts] and [src/eventBroadcaster.ts]
    that carry the session state machine, the DAP framing, the request
    correlator, the breakpoint table, the attach rendezvous, the start of a
    session and the debug panel's list of breakpoints, with the properties of
    the specification stated over them. *)

From Stdlib Require Import ZArith NArith List String Ascii Lia Decimal DecimalNat.
From stdpp Require Import base option list gmap strings.

Local Open Scope Z_scope.
#[local] Set Warnings "-clear-no-such-hyp".

(** ** Transport: [DAPClient.sendRequest] framing and [DAPClient.handleData] *)

Module Transport.

(** A JavaScript string is a sequence of UTF-16 code units, a [Buffer] a
    sequence of bytes.  Both are lists of numbers here. *)
Definition jsstring := list N.
Definition bytes := list N.

Definition code (s : string) : jsstring :=
  List.map N_of_ascii (list_ascii_of_string s).

Definition CRLFCRLF : jsstring := [13; 10; 13; 10]%N.

(** *** [socket.write(string)]: UTF-8 encoding of a JavaScript string *)

Definition is_high_surrogate (c : N) : bool := ((0xD800 <=? c) && (c <=? 0xDBFF))%N.
Definition is_low_surrogate (c : N) : bool := ((0xDC00 <=? c) && (c <=? 0xDFFF))%N.

Definition REPLACEMENT : N := 0xFFFD%N.

Definition utf8_of_code_point (cp : N) : bytes :=
  (if cp <? 0x80 then [cp]
   else if cp <? 0x800 then [0xC0 + cp / 64; 0x80 + cp mod 64]
   else if cp <? 0x10000 then
     [0xE0 + cp / 4096; 0x80 + (cp / 64) mod 64; 0x80 + cp mod 64]
   else
     [0xF0 + cp / 262144; 0x80 + (cp / 4096) mod 64;
      0x80 + (cp / 64) mod 64; 0x80 + cp mod 64])%N.

Fixpoint utf8_encode (s : jsstring) : bytes :=
  match s with
  | [] => []
  | c :: s' =>
      if is_high_surrogate c then
        match s' with
        | d :: s'' =>
            if is_low_surrogate d then
              utf8_of_code_point
                (0x10000 + (c - 0xD800) * 0x400 + (d - 0xDC00))%N
                ++ utf8_encode s''
            else utf8_of_code_point REPLACEMENT ++ utf8_encode s'
        | [] => utf8_of_code_point REPLACEMENT
        end
      else if is_low_surrogate c then
        utf8_of_code_point REPLACEMENT ++ utf8_encode s'
      else utf8_of_code_point c ++ utf8_encode s'
  end.

(** *** [data.toString()]: UTF-8 decoding of one chunk, ill-formed input
    replaced by U+FFFD *)

Record decoder := {
  dec_cp : N;        (* code point under construction *)
  dec_needed : nat;  (* continuation bytes still expected *)
  dec_lower : N;     (* accepted range of the next continuation byte *)
  dec_upper : N
}.

Definition dec_init : decoder :=
  {| dec_cp := 0; dec_needed := 0; dec_lower := 0x80; dec_upper := 0xBF |}%N.

Definition code_units_of (cp : N) : jsstring :=
  (if cp <? 0x10000 then [cp]
   else [0xD800 + (cp - 0x10000) / 0x400; 0xDC00 + (cp - 0x10000) mod 0x400])%N.

(** A byte met while no sequence is open. *)
Definition dec_lead (b : N) : decoder * jsstring :=
  (if b <=? 0x7F then (dec_init, [b])
   else if (0xC2 <=? b) && (b <=? 0xDF) then
     ({| dec_cp := N.land b 0x1F; dec_needed := 1;
         dec_lower := 0x80; dec_upper := 0xBF |}, [])
   else if (0xE0 <=? b) && (b <=? 0xEF) then
     ({| dec_cp := N.land b 0xF; dec_needed := 2;
         dec_lower := if b =? 0xE0 then 0xA0 else 0x80;
         dec_upper := if b =? 0xED then 0x9F else 0xBF |}, [])
   else if (0xF0 <=? b) && (b <=? 0xF4) then
     ({| dec_cp := N.land b 0x7; dec_needed := 3;
         dec_lower := if b =? 0xF0 then 0x90 else 0x80;
         dec_upper := if b =? 0xF4 then 0x8F else 0xBF |}, [])
   else (dec_init, [REPLACEMENT]))%N.

Definition dec_step (d : decoder) (b : N) : decoder * jsstring :=
  match dec_needed d with
  | O => dec_lead b
  | S n =>
      if ((dec_lower d <=? b) && (b <=? dec_upper d))%N then
        let cp := (dec_cp d * 64 + N.land b 0x3F)%N in
        match n with
        | O => (dec_init, code_units_of cp)
        | S _ => ({| dec_cp := cp; dec_needed := n;
                     dec_lower := 0x80; dec_upper := 0xBF |}%N, [])
        end
      else
        let '(d', out) := dec_lead b in (d', REPLACEMENT :: out)
  end.

Fixpoint utf8_decode (d : decoder) (bs : bytes) : jsstring :=
  match bs with
  | [] => match dec_needed d with O => [] | S _ => [REPLACEMENT] end
  | b :: bs' => let '(d', out) := dec_step d b in out ++ utf8_decode d' bs'
  end.

Definition toString (data : bytes) : jsstring := utf8_decode dec_init data.

(** *** String primitives used by [handleData] *)

Fixpoint starts_with (p s : jsstring) : bool :=
  match p, s with
  | [], _ => true
  | _ :: _, [] => false
  | a :: p', b :: s' => (a =? b)%N && starts_with p' s'
  end.

Fixpoint find_from (p s : jsstring) (i : nat) : option nat :=
  if starts_with p s then Some i
  else match s with
       | [] => None
       | _ :: s' => find_from p s' (S i)
       end.

(** [String.prototype.indexOf]: first position of [p] in [s], or [-1]. *)
Definition indexOf (p s : jsstring) : Z :=
  match find_from p s 0 with
  | Some i => Z.of_nat i
  | None => -1
  end.

(** [s.substring(from, to)] for [0 <= from <= to], clamped to the length. *)
Definition substring (s : jsstring) (from to : nat) : jsstring :=
  take (to - from) (drop from s).

(** [s.substring(from)]. *)
Definition substring_from (s : jsstring) (from : nat) : jsstring := drop from s.

Definition is_digit (c : N) : bool := ((48 <=? c) && (c <=? 57))%N.

Fixpoint take_digits (s : jsstring) : jsstring :=
  match s with
  | c :: s' => if is_digit c then c :: take_digits s' else []
  | [] => []
  end.

Definition CONTENT_LENGTH : jsstring := code "Content-Length: ".

(** The regular expression [/Content-Length: (\d+)/] tried at the head of [s]:
    the captured group on success. *)
Definition match_here (s : jsstring) : option jsstring :=
  if starts_with CONTENT_LENGTH s then
    match take_digits (drop (length CONTENT_LENGTH) s) with
    | [] => None
    | ds => Some ds
    end
  else None.

(** [headers.match(/Content-Length: (\d+)/)]: leftmost match, group 1. *)
Fixpoint match_content_length (s : jsstring) : option jsstring :=
  match match_here s with
  | Some ds => Some ds
  | None => match s with
            | [] => None
            | _ :: s' => match_content_length s'
            end
  end.

(** [parseInt] on a string of decimal digits. *)
Definition parseInt (ds : jsstring) : nat :=
  fold_left (fun acc c => (acc * 10 + N.to_nat (c - 48))%nat) ds 0%nat.

Fixpoint digits_of_uint (d : Decimal.uint) : jsstring :=
  match d with
  | Nil => []
  | D0 d => 48%N :: digits_of_uint d
  | D1 d => 49%N :: digits_of_uint d
  | D2 d => 50%N :: digits_of_uint d
  | D3 d => 51%N :: digits_of_uint d
  | D4 d => 52%N :: digits_of_uint d
  | D5 d => 53%N :: digits_of_uint d
  | D6 d => 54%N :: digits_of_uint d
  | D7 d => 55%N :: digits_of_uint d
  | D8 d => 56%N :: digits_of_uint d
  | D9 d => 57%N :: digits_of_uint d
  end.

(** The decimal text a template literal gives for a length. *)
Definition number_toString (n : nat) : jsstring := digits_of_uint (Nat.to_uint n).

(** *** [sendRequest]: the frame written for one serialized request
    [`Content-Length: ${messageContent.length}\r\n\r\n${messageContent}`] *)
Definition frame (messageContent : jsstring) : jsstring :=
  CONTENT_LENGTH ++ number_toString (length messageContent) ++ CRLFCRLF
    ++ messageContent.

Definition write (messageContent : jsstring) : bytes :=
  utf8_encode (frame messageContent).

(** *** [handleData]: the extraction loop

    One turn of the [while (true)] loop per unit of fuel; the result is the
    list of [messageContent] strings handed to [JSON.parse] and
    [handleMessage], in order, and the buffer left over. *)
Fixpoint extract (fuel : nat) (messageBuffer : jsstring)
  : list jsstring * jsstring :=
  match fuel with
  | O => ([], messageBuffer)
  | S fuel' =>
      let headerEnd := indexOf CRLFCRLF messageBuffer in
      if headerEnd =? -1 then ([], messageBuffer)
      else
        let headers := substring messageBuffer 0 (Z.to_nat headerEnd) in
        match match_content_length headers with
        | None => ([], messageBuffer)
        | Some group1 =>
            let contentLength := parseInt group1 in
            let messageStart := (Z.to_nat headerEnd + 4)%nat in
            let messageEnd := (messageStart + contentLength)%nat in
            if (length messageBuffer <? messageEnd)%nat then ([], messageBuffer)
            else
              let messageContent :=
                substring messageBuffer messageStart messageEnd in
              let '(rest, buf) :=
                extract fuel' (substring_from messageBuffer messageEnd) in
              (messageContent :: rest, buf)
        end
  end.

(** Every turn that extracts a message removes at least four characters, so
    one more turn than the buffer has characters lets the loop run to its
    [break]. *)
Definition handleData (messageBuffer : jsstring) (data : bytes)
  : list jsstring * jsstring :=
  let buf := messageBuffer ++ toString data in
  extract (S (length buf)) buf.

(** The socket's ['data'] events in order, starting from a given buffer. *)
Fixpoint feed (messageBuffer : jsstring) (chunks : list bytes)
  : list jsstring * jsstring :=
  match chunks with
  | [] => ([], messageBuffer)
  | data :: chunks' =>
      let '(out, buf) := handleData messageBuffer data in
      let '(out', buf') := feed buf chunks' in
      (out ++ out', buf')
  end.

Definition ascii_only (s : list N) : Prop := Forall (fun c => (c < 128)%N) s.

(** The header block of an emitted frame, the text of several frames written
    back to back, and what it means for a buffer to hold only the beginning
    of the next frame. *)
Definition header (messageContent : jsstring) : jsstring :=
  CONTENT_LENGTH ++ number_toString (length messageContent).

Definition frames (ms : list jsstring) : jsstring := concat (List.map frame ms).

Definition incomplete (p : jsstring) (todo : list jsstring) : Prop :=
  match todo with
  | [] => p = []
  | m :: _ => ∃ k : nat, (k < length (frame m))%nat ∧ p = take k (frame m)
  end.

(** A buffer whose first header block is complete and names no
    [Content-Length]. *)
Definition stalled (messageBuffer : jsstring) : Prop :=
  ∃ headerEnd : nat,
    find_from CRLFCRLF messageBuffer 0 = Some headerEnd
    ∧ match_content_length (take headerEnd messageBuffer) = None.

Definition headless_frame : jsstring :=
  code "Content-Type: json" ++ CRLFCRLF ++ code "{}".

(** A request as [dap.evaluate] serializes it when the expression holds a
    non-ASCII letter, and the bytes written for it cut between the two bytes
    of that letter. *)
Definition quoted (s : string) : jsstring := [34%N] ++ code s ++ [34%N].

Definition evaluate_request : jsstring :=
  code "{" ++ quoted "seq" ++ code ":7," ++ quoted "type" ++ code ":"
    ++ quoted "request" ++ code "," ++ quoted "command" ++ code ":"
    ++ quoted "evaluate" ++ code "," ++ quoted "arguments" ++ code ":{"
    ++ quoted "expression" ++ code ":" ++ [34; 233; 34]%N ++ code ","
    ++ quoted "context" ++ code ":" ++ quoted "repl" ++ code "}}".

Definition evaluate_cut : nat := 97.

(** An event and a response as the adapter serializes them. *)
Definition initialized_event : jsstring :=
  code "{" ++ quoted "type" ++ code ":" ++ quoted "event" ++ code ","
    ++ quoted "event" ++ code ":" ++ quoted "initialized" ++ code ","
    ++ quoted "seq" ++ code ":1}".

Definition initialize_response : jsstring :=
  code "{" ++ quoted "type" ++ code ":" ++ quoted "response" ++ code ","
    ++ quoted "request_seq" ++ code ":1," ++ quoted "success" ++ code ":true,"
    ++ quoted "command" ++ code ":" ++ quoted "initialize" ++ code ","
    ++ quoted "seq" ++ code ":2," ++ quoted "body" ++ code ":{"
    ++ quoted "supportsConfigurationDoneRequest" ++ code ":true}}".

(** A string without lone surrogates ([String.prototype.isWellFormed]),
    every element of which is a 16-bit code unit. *)
Fixpoint well_formed (s : jsstring) : bool :=
  match s with
  | [] => true
  | c :: s' =>
      if is_high_surrogate c then
        match s' with
        | d :: s'' => is_low_surrogate d && well_formed s''
        | [] => false
        end
      else (c <? 0x10000)%N && negb (is_low_surrogate c) && well_formed s'
  end.

(** The text of the frame of [evaluate_request] cut in two between
    characters, right after the non-ASCII letter. *)
Definition evaluate_pieces : list jsstring :=
  [take 97 (frame evaluate_request); drop 97 (frame evaluate_request)].

(** A byte stream cut into chunks of one byte. *)
Definition bytewise (stream : bytes) : list bytes := (fun b => [b]) <$> stream.

Definition evaluate_chunks : list bytes :=
  [take evaluate_cut (write evaluate_request);
   drop evaluate_cut (write evaluate_request)].

End Transport.

(** ** Correlator and typed operations: [DAPClient] *)

Module Correlator.
Import Transport.

Record Socket := { sock_port : Z }.

(** The promise a call of [sendRequest] returns is named by the sequence
    number the call took; a pending entry holds that promise's [resolve] and
    [reject]. *)
Definition promise := Z.

Record DAPClient := {
  socket : option Socket;
  connected : bool;
  sequenceNumber : Z;
  pendingRequests : gmap Z promise;
  messageBuffer : jsstring
}.

(** [new DAPClient(port)] *)
Definition new_client : DAPClient :=
  {| socket := None; connected := false; sequenceNumber := 1;
     pendingRequests := ∅; messageBuffer := [] |}.

(** The typed operations of the client. *)
Inductive Operation :=
| OpInitialize
| OpLaunch (program : string)
| OpAttach
| OpSetBreakpoints (source : string) (lines : list (option Z))
| OpConfigurationDone
| OpContinue (threadId : Z)
| OpStepOver (threadId : Z)
| OpStepIn (threadId : Z)
| OpStepOut (threadId : Z)
| OpPause (threadId : Z)
| OpThreads
| OpStackTrace (threadId : Z)
| OpScopes (frameId : Z)
| OpVariables (variablesReference : Z)
| OpEvaluate (expression : string) (frameId : option Z)
| OpDisconnect.

Definition command_of (op : Operation) : string :=
  match op with
  | OpInitialize => "initialize"
  | OpLaunch _ => "launch"
  | OpAttach => "attach"
  | OpSetBreakpoints _ _ => "setBreakpoints"
  | OpConfigurationDone => "configurationDone"
  | OpContinue _ => "continue"
  | OpStepOver _ => "next"
  | OpStepIn _ => "stepIn"
  | OpStepOut _ => "stepOut"
  | OpPause _ => "pause"
  | OpThreads => "threads"
  | OpStackTrace _ => "stackTrace"
  | OpScopes _ => "scopes"
  | OpVariables _ => "variables"
  | OpEvaluate _ _ => "evaluate"
  | OpDisconnect => "disconnect"
  end.

Inductive Timer :=
| RequestTimeout (seq : Z) (command : string).

Section Client.

(** Payloads are JSON values ([any] in the source); the client never looks
    inside them.  [arguments_of] builds the argument object of an operation
    and [JSON_stringify] serializes a request. *)
Variable Json : Type.
Variable arguments_of : Operation → option Json.
Variable JSON_stringify : Z → string → option Json → jsstring.

Inductive DAPMessage :=
| MRequest (seq : Z) (command : string) (arguments : option Json)
| MResponse (seq request_seq : Z) (success : bool) (command : string)
    (message : option string) (body : option Json)
| MEvent (seq : Z) (event : string) (body : option Json).

Inductive Effect :=
| Resolve (p : promise) (body : option Json)
| Reject (p : promise) (error : string)
| EmitEvent (event : DAPMessage)          (* emit('event', event) *)
| Emit (name : string) (body : option Json) (* emit(name, body) *)
| SocketWrite (message : jsstring)
| SocketEnd
| SetTimeout (ms : Z) (callback : Timer).

(** [response.message || 'Request failed'] *)
Definition message_or_default (message : option string) : string :=
  match message with
  | Some m => if String.eqb m EmptyString then "Request failed" else m
  | None => "Request failed"
  end.

Definition delete_pending (seq : Z) (c : DAPClient) : DAPClient :=
  {| socket := socket c; connected := connected c;
     sequenceNumber := sequenceNumber c;
     pendingRequests := delete seq (pendingRequests c);
     messageBuffer := messageBuffer c |}.

(** [handleMessage] *)
Definition handleMessage (c : DAPClient) (message : DAPMessage)
  : DAPClient * list Effect :=
  match message with
  | MResponse _ request_seq success _ msg body =>
      match pendingRequests c !! request_seq with
      | Some pending =>
          (delete_pending request_seq c,
           [if success then Resolve pending body
            else Reject pending (message_or_default msg)])
      | None => (c, [])
      end
  | MEvent _ event body => (c, [EmitEvent message; Emit event body])
  | MRequest _ _ _ => (c, [])
  end.

(** Messages handled one after the other, as [handleData] hands them over. *)
Fixpoint handleMessages (c : DAPClient) (ms : list DAPMessage)
  : DAPClient * list Effect :=
  match ms with
  | [] => (c, [])
  | m :: ms' =>
      let '(c1, e1) := handleMessage c m in
      let '(c2, e2) := handleMessages c1 ms' in
      (c2, e1 ++ e2)
  end.

Inductive Outcome :=
| Threw (error : string)      (* the returned promise is rejected at once *)
| Awaiting (p : promise)      (* settles when promise [p] settles *)
| Completed.                  (* resolved without waiting *)

(** [sendRequest] *)
Definition sendRequest (c : DAPClient) (command : string) (args : option Json)
  : DAPClient * list Effect * Outcome :=
  if negb (connected c) || negb (bool_decide (is_Some (socket c))) then
    (c, [], Threw "DAP client not connected")
  else
    let seq := sequenceNumber c in
    let messageContent := JSON_stringify seq command args in
    ({| socket := socket c; connected := connected c;
        sequenceNumber := seq + 1;
        pendingRequests := <[seq := seq]> (pendingRequests c);
        messageBuffer := messageBuffer c |},
     [SocketWrite (frame messageContent);
      SetTimeout 10000 (RequestTimeout seq command)],
     Awaiting seq).

(** The callback of the timer [sendRequest] starts. *)
Definition requestTimeout (c : DAPClient) (seq : Z) (command : string)
  : DAPClient * list Effect :=
  match pendingRequests c !! seq with
  | Some pending =>
      (delete_pending seq c, [Reject pending ("Request timeout: " +:+ command)])
  | None => (c, [])
  end.

Definition drop_socket (c : DAPClient) : DAPClient :=
  {| socket := None; connected := false;
     sequenceNumber := sequenceNumber c;
     pendingRequests := pendingRequests c;
     messageBuffer := messageBuffer c |}.

(** [close] *)
Definition close (c : DAPClient) : DAPClient * list Effect :=
  (drop_socket c, match socket c with Some _ => [SocketEnd] | None => [] end).

(** The handler of the socket's ['close'] event. *)
Definition on_socket_close (c : DAPClient) : DAPClient * list Effect :=
  ({| socket := socket c; connected := false;
      sequenceNumber := sequenceNumber c;
      pendingRequests := pendingRequests c;
      messageBuffer := messageBuffer c |},
   [Emit "disconnected" None]).

(** The handler of the socket's ['connect'] event. *)
Definition on_socket_connect (c : DAPClient) : DAPClient :=
  {| socket := socket c; connected := true;
     sequenceNumber := sequenceNumber c;
     pendingRequests := pendingRequests c;
     messageBuffer := messageBuffer c |}.

(** What [disconnect] does once its request has settled, either way. *)
Definition disconnect_finish (c : DAPClient) : DAPClient * list Effect := close c.

(** A typed operation up to its first suspension.  All of them hand their
    command to [sendRequest]; [disconnect] alone catches what it throws. *)
Definition invoke (c : DAPClient) (op : Operation)
  : DAPClient * list Effect * Outcome :=
  match op with
  | OpDisconnect =>
      let '(c1, e1, out) := sendRequest c "disconnect" None in
      match out with
      | Threw _ =>
          let '(c2, e2) := disconnect_finish c1 in (c2, e1 ++ e2, Completed)
      | _ => (c1, e1, out)
      end
  | _ => sendRequest c (command_of op) (arguments_of op)
  end.

Definition is_settlement (e : Effect) : bool :=
  match e with
  | Resolve _ _ | Reject _ _ => true
  | _ => false
  end.

Definition request_seq_of (m : DAPMessage) : option Z :=
  match m with
  | MResponse _ request_seq _ _ _ _ => Some request_seq
  | _ => None
  end.

(** How a response settles the promise [p] it is matched with. *)
Definition settlement (p : promise) (m : DAPMessage) : list Effect :=
  match m with
  | MResponse _ _ success _ msg body =>
      [if success then Resolve p body else Reject p (message_or_default msg)]
  | _ => []
  end.

(** What handling a message brings about, read off the table of pending
    requests as it was before any message of the batch arrived. *)
Definition delivered_by (c : DAPClient) (m : DAPMessage) : list Effect :=
  match m with
  | MResponse _ q _ _ _ _ =>
      match pendingRequests c !! q with
      | Some p => settlement p m
      | None => []
      end
  | MEvent _ event body => [EmitEvent m; Emit event body]
  | MRequest _ _ _ => []
  end.

(** A message that is not a response, or a response to a pending request. *)
Definition answers_pending (c : DAPClient) (m : DAPMessage) : Prop :=
  match request_seq_of m with
  | Some q => is_Some (pendingRequests c !! q)
  | None => True
  end.

(** *** The life of a client as a sequence of steps *)

(** [connect()]: the socket is created at once, [connected] is set by the
    ['connect'] event. *)
Definition connect_call (c : DAPClient) (sock : Socket) : DAPClient :=
  {| socket := Some sock; connected := connected c;
     sequenceNumber := sequenceNumber c;
     pendingRequests := pendingRequests c;
     messageBuffer := messageBuffer c |}.

Inductive ClientStep :=
| CConnect (sock : Socket)                      (* [connect()] is called *)
| CSocketConnect                                (* the socket's ['connect'] *)
| CSend (command : string) (args : option Json) (* [sendRequest] *)
| CReceive (m : DAPMessage)                     (* [handleMessage] *)
| CTimer (seq : Z) (command : string)           (* a request timer fires *)
| CClose                                        (* [close()] *)
| CSocketClose.                                 (* the socket's ['close'] *)

Definition client_exec (c : DAPClient) (st : ClientStep) : DAPClient * list Effect :=
  match st with
  | CConnect sock => (connect_call c sock, [])
  | CSocketConnect => (on_socket_connect c, [])
  | CSend command args => (sendRequest c command args).1
  | CReceive m => handleMessage c m
  | CTimer seq command => requestTimeout c seq command
  | CClose => close c
  | CSocketClose => on_socket_close c
  end.

Fixpoint client_run (c : DAPClient) (steps : list ClientStep)
  : DAPClient * list Effect :=
  match steps with
  | [] => (c, [])
  | st :: steps' =>
      let '(c1, e1) := client_exec c st in
      let '(c2, e2) := client_run c1 steps' in
      (c2, e1 ++ e2)
  end.

(** The promises an effect list settles, in order. *)
Definition settled (effects : list Effect) : list promise :=
  omap (fun e => match e with
                 | Resolve p _ => Some p
                 | Reject p _ => Some p
                 | _ => None
                 end) effects.

(** The sequence numbers of the requests an effect list starts a timer
    for, in order; [sendRequest] starts one per request it writes. *)
Definition issued (effects : list Effect) : list Z :=
  omap (fun e => match e with
                 | SetTimeout _ (RequestTimeout seq _) => Some seq
                 | _ => None
                 end) effects.

Definition is_write (e : Effect) : bool :=
  match e with
  | SocketWrite _ => true
  | _ => false
  end.

Definition is_connect (st : ClientStep) : bool :=
  match st with
  | CConnect _ => true
  | _ => false
  end.

(** Steps other than an answer to request [seq] and the timer of request
    [seq]. *)
Definition leaves_alone (seq : Z) (st : ClientStep) : Prop :=
  match st with
  | CReceive (MResponse _ request_seq _ _ _ _) => request_seq ≠ seq
  | CTimer q _ => q ≠ seq
  | _ => True
  end.

End Client.

Arguments CConnect {Json} sock.
Arguments CSocketConnect {Json}.
Arguments CSend {Json} command args.
Arguments CReceive {Json} m.
Arguments CTimer {Json} seq command.
Arguments CClose {Json}.
Arguments CSocketClose {Json}.
Arguments settled {Json} effects.
Arguments issued {Json} effects.
Arguments is_write {Json} e.
Arguments is_connect {Json} st.
Arguments leaves_alone {Json} seq st.
Arguments MRequest {Json} seq command arguments.
Arguments MResponse {Json} seq request_seq success command message body.
Arguments MEvent {Json} seq event body.
Arguments Resolve {Json} p body.
Arguments Reject {Json} p error.
Arguments EmitEvent {Json} event.
Arguments Emit {Json} name body.
Arguments SocketWrite {Json} message.
Arguments SocketEnd {Json}.
Arguments SetTimeout {Json} ms callback.
Arguments handleMessage {Json} c message.
Arguments handleMessages {Json} c ms.
Arguments requestTimeout {Json} c seq command.
Arguments close {Json} c.
Arguments on_socket_close {Json} c.
Arguments disconnect_finish {Json} c.
Arguments is_settlement {Json} e.
Arguments request_seq_of {Json} m.
Arguments settlement {Json} p m.
Arguments delivered_by {Json} c m.
Arguments answers_pending {Json} c m.

(** [!this.connected || !this.socket] *)
Definition not_connected (c : DAPClient) : Prop :=
  connected c = false ∨ socket c = None.

(** What holds of a client and of the promises settled so far, in every
    state a client can reach. *)
Record client_inv (c : DAPClient) (done : list promise) : Prop := {
  inv_pending : ∀ q p, pendingRequests c !! q = Some p →
                p = q ∧ 1 ≤ q < sequenceNumber c;
  inv_settled : ∀ p, p ∈ done → p < sequenceNumber c ∧ pendingRequests c !! p = None;
  inv_nodup : NoDup done;
  inv_positive : 1 ≤ sequenceNumber c
}.

(** *** Concrete clients used in examples *)

(** A connected client with requests 1 and 2 in flight. *)
Definition two_pending : DAPClient :=
  {| socket := Some {| sock_port := 5679 |}; connected := true;
     sequenceNumber := 3; pendingRequests := {[1 := 1; 2 := 2]};
     messageBuffer := [] |}.

Definition no_arguments : Operation → option unit := fun _ => None.
Definition no_text : Z → string → option unit → jsstring := fun _ _ _ => [].

(** A failed response whose [message] is the empty string. *)
Definition failed_without_message : DAPMessage unit :=
  MResponse 9 1 false "variables" (Some EmptyString) None.

End Correlator.

(** ** Sessions: [SessionManager] and the handlers of [index.ts] *)

Module Sessions.
Import Correlator.

Inductive State := starting | running | paused | stopped | error.

Inductive Signal := SIGTERM | SIGKILL.

(** A child process handle: [killed] is set by a [kill] that delivered its
    signal; [exited] is the operating system's view. *)
Record ChildProcess := { pid : Z; exited : bool; killed : bool }.

(** [subprocess.kill(signal)]: the process with [killed] updated, and whether
    the signal was delivered. *)
Definition kill (p : ChildProcess) (sig : Signal) : ChildProcess * bool :=
  if exited p then (p, false)
  else ({| pid := pid p; exited := exited p; killed := true |}, true).

(** [line] is [undefined] when the adapter answered with more entries than
    lines were sent. *)
Record Breakpoint := {
  bp_id : Z;
  bp_file : string;
  bp_line : option Z;
  bp_verified : option bool
}.

Record DebugSession := {
  id : string;
  scriptPath : string;
  pythonProcess : option ChildProcess;
  dapClient : option DAPClient;
  port : Z;
  state : State;
  breakpoints : gmap string (list Breakpoint);
  currentThreadId : option Z;
  currentFrameId : option Z
}.

Definition with_state (st : State) (s : DebugSession) : DebugSession :=
  {| id := id s; scriptPath := scriptPath s; pythonProcess := pythonProcess s;
     dapClient := dapClient s; port := port s; state := st;
     breakpoints := breakpoints s; currentThreadId := currentThreadId s;
     currentFrameId := currentFrameId s |}.

Definition with_thread (t : option Z) (s : DebugSession) : DebugSession :=
  {| id := id s; scriptPath := scriptPath s; pythonProcess := pythonProcess s;
     dapClient := dapClient s; port := port s; state := state s;
     breakpoints := breakpoints s; currentThreadId := t;
     currentFrameId := currentFrameId s |}.

Definition with_frame (f : option Z) (s : DebugSession) : DebugSession :=
  {| id := id s; scriptPath := scriptPath s; pythonProcess := pythonProcess s;
     dapClient := dapClient s; port := port s; state := state s;
     breakpoints := breakpoints s; currentThreadId := currentThreadId s;
     currentFrameId := f |}.

Definition with_client (c : option DAPClient) (s : DebugSession) : DebugSession :=
  {| id := id s; scriptPath := scriptPath s; pythonProcess := pythonProcess s;
     dapClient := c; port := port s; state := state s;
     breakpoints := breakpoints s; currentThreadId := currentThreadId s;
     currentFrameId := currentFrameId s |}.

Definition with_process (p : option ChildProcess) (s : DebugSession) : DebugSession :=
  {| id := id s; scriptPath := scriptPath s; pythonProcess := p;
     dapClient := dapClient s; port := port s; state := state s;
     breakpoints := breakpoints s; currentThreadId := currentThreadId s;
     currentFrameId := currentFrameId s |}.

Definition with_port (p : Z) (s : DebugSession) : DebugSession :=
  {| id := id s; scriptPath := scriptPath s; pythonProcess := pythonProcess s;
     dapClient := dapClient s; port := p; state := state s;
     breakpoints := breakpoints s; currentThreadId := currentThreadId s;
     currentFrameId := currentFrameId s |}.

Definition with_breakpoints (b : gmap string (list Breakpoint)) (s : DebugSession)
  : DebugSession :=
  {| id := id s; scriptPath := scriptPath s; pythonProcess := pythonProcess s;
     dapClient := dapClient s; port := port s; state := state s;
     breakpoints := b; currentThreadId := currentThreadId s;
     currentFrameId := currentFrameId s |}.

(** Session objects live in a store and are shared by reference: the
    registry [sessions] holds references, and so do the event handlers a
    session's client was given. *)
Definition ref := nat.

Record World := {
  heap : gmap ref DebugSession;
  sessions : gmap string ref;     (* SessionManager.sessions *)
  portCounter : Z;                (* SessionManager.portCounter *)
  nextObject : ref
}.

Definition initial : World :=
  {| heap := ∅; sessions := ∅; portCounter := 5678; nextObject := 0%nat |}.

Definition update_object (o : ref) (f : DebugSession → DebugSession) (w : World)
  : World :=
  {| heap := match heap w !! o with
             | Some s => <[o := f s]> (heap w)
             | None => heap w
             end;
     sessions := sessions w; portCounter := portCounter w;
     nextObject := nextObject w |}.

Inductive Callback :=
| ForceKill (o : ref).

Inductive Effect :=
| SocketEnd (o : ref)
| Kill (o : ref) (sig : Signal)
| SetTimeout (ms : Z) (callback : Callback)
| RemoveSessionState (sessionId : string).

(** *** [SessionManager] *)

(** [createSession]; [sessionId] is the fresh UUID. *)
Definition createSession (w : World) (sessionId path : string) : World * ref :=
  let o := nextObject w in
  let port := portCounter w + 1 in
  ({| heap := <[o := {| id := sessionId; scriptPath := path;
                        pythonProcess := None; dapClient := None;
                        port := port; state := starting; breakpoints := ∅;
                        currentThreadId := None; currentFrameId := None |}]>
                (heap w);
      sessions := <[sessionId := o]> (sessions w);
      portCounter := port;
      nextObject := S o |}, o).

(** [getSession]: the object registered under [sessionId], with its
    reference. *)
Definition getSession (w : World) (sessionId : string)
  : option (ref * DebugSession) :=
  match sessions w !! sessionId with
  | Some o => match heap w !! o with
              | Some s => Some (o, s)
              | None => None
              end
  | None => None
  end.

(** [updateSessionState] *)
Definition updateSessionState (w : World) (sessionId : string) (st : State)
  : World :=
  match getSession w sessionId with
  | Some (o, _) => update_object o (with_state st) w
  | None => w
  end.

Definition unregister (sessionId : string) (w : World) : World :=
  {| heap := heap w; sessions := delete sessionId (sessions w);
     portCounter := portCounter w; nextObject := nextObject w |}.

(** [terminateSession] *)
Definition terminateSession (w : World) (sessionId : string)
  : World * list Effect :=
  match getSession w sessionId with
  | None => (w, [])
  | Some (o, session) =>
      (* Close DAP client connection *)
      let e1 :=
        match dapClient session with
        | Some c => match socket c with Some _ => [SocketEnd o] | None => [] end
        | None => []
        end in
      let w1 := update_object o (with_client None) w in
      (* Kill Python process *)
      let '(w2, e2) :=
        match pythonProcess session with
        | Some p =>
            if negb (killed p) then
              (update_object o (with_process (Some (kill p SIGTERM).1)) w1,
               [Kill o SIGTERM; SetTimeout 2000 (ForceKill o)])
            else (w1, [])
        | None => (w1, [])
        end in
      let w3 := update_object o (with_state stopped) w2 in
      (unregister sessionId w3, e1 ++ e2 ++ [RemoveSessionState sessionId])
  end.

(** The callback [terminateSession] hands to [setTimeout]. *)
Definition forceKill (w : World) (o : ref) : World * list Effect :=
  match heap w !! o with
  | Some session =>
      match pythonProcess session with
      | Some p =>
          if negb (killed p) then
            (update_object o (with_process (Some (kill p SIGKILL).1)) w,
             [Kill o SIGKILL])
          else (w, [])
      | None => (w, [])
      end
  | None => (w, [])
  end.

(** [SessionManager.setBreakpoints] *)
Definition setBreakpoints (w : World) (sessionId file : string)
    (bps : list Breakpoint) : World :=
  match getSession w sessionId with
  | Some (o, session) =>
      update_object o (with_breakpoints (<[file := bps]> (breakpoints session))) w
  | None => w
  end.

(** [SessionManager.getBreakpoints]; an empty [file] counts as none given.
    Without a file the lists of all files are joined (in the order of the
    keys here, in insertion order in the source). *)
Definition getBreakpoints (w : World) (sessionId : string) (file : option string)
  : list Breakpoint :=
  match getSession w sessionId with
  | None => []
  | Some (_, session) =>
      match file with
      | Some f =>
          if String.eqb f EmptyString then
            concat (snd <$> map_to_list (breakpoints session))
          else default [] (breakpoints session !! f)
      | None => concat (snd <$> map_to_list (breakpoints session))
      end
  end.

(** *** Adapter answers and event bodies *)

Inductive Reply (A : Type) :=
| Resolved (a : A)
| Rejected (error : string).
Arguments Resolved {A} a.
Arguments Rejected {A} error.

Record StackFrame := {
  frame_id : Z;
  frame_name : string;
  frame_path : option string;
  frame_line : Z
}.

Record Thread := { thread_id : Z; thread_name : string }.

Record StoppedBody := { stopped_reason : string; stopped_threadId : option Z }.

Record BreakpointReply := { rb_id : option Z; rb_verified : option bool }.

Record SetBreakpointsResponse := {
  resp_breakpoints : option (list BreakpointReply)
}.

(** What the adapter answers to [setBreakpoints(source, lines)]. *)
Definition Adapter : Type :=
  string → list (option Z) → Reply (option SetBreakpointsResponse).

(** JavaScript truthiness of an optional number. *)
Definition truthy (n : option Z) : bool :=
  match n with
  | Some t => negb (t =? 0)
  | None => false
  end.

(** *** [retryDAPOperation]

    [operation k] is the outcome of the [k]-th call of the operation; the
    result is [None] when the loop ends without returning. *)
Fixpoint retry_loop {A : Type} (operation : nat → Reply A)
    (maxRetries attempt turns : nat) : option (Reply A) :=
  match turns with
  | O => None
  | S turns' =>
      match operation attempt with
      | Resolved a => Some (Resolved a)
      | Rejected e =>
          if (attempt =? maxRetries)%nat then Some (Rejected e)
          else retry_loop operation maxRetries (S attempt) turns'
      end
  end.

Definition retryDAPOperation {A : Type} (operation : nat → Reply A)
    (maxRetries : nat) : option (Reply A) :=
  retry_loop operation maxRetries 1 maxRetries.

(** *** [setupDAPEventHandlers]

    A handler closes over its session object, here the object at [o];
    [session.id] is read from it. *)

(** ['stopped'], up to the [await] of the stack trace: the world, and the
    request made for the stack trace. *)
Definition on_stopped (w : World) (o : ref) (body : StoppedBody)
  : World * option Operation :=
  match heap w !! o with
  | None => (w, None)
  | Some session =>
      if negb (truthy (stopped_threadId body)) then (w, None)
      else
        let w1 := update_object o (with_thread (stopped_threadId body)) w in
        let w2 := updateSessionState w1 (id session) paused in
        (w2, OpStackTrace <$> stopped_threadId body)
  end.

(** ['stopped'], after the [await]: [operation] gives the outcomes of the
    [stackTrace] calls that [retryDAPOperation] makes. *)
Definition on_stopped_frames (w : World) (o : ref)
    (operation : nat → Reply (list StackFrame)) : World :=
  match retryDAPOperation operation 2 with
  | Some (Resolved (f :: _)) => update_object o (with_frame (Some (frame_id f))) w
  | _ => w
  end.

(** [sessionManager.updateSessionState(session.id, st)] inside a handler. *)
Definition handler_state (w : World) (o : ref) (st : State) : World :=
  match heap w !! o with
  | None => w
  | Some session => updateSessionState w (id session) st
  end.

(** ['continued'] *)
Definition on_continued (w : World) (o : ref) : World := handler_state w o running.

(** ['terminated'] *)
Definition on_terminated (w : World) (o : ref) : World := handler_state w o stopped.

(** ['exited'] *)
Definition on_exited (w : World) (o : ref) : World := handler_state w o stopped.

(** *** Handshake steps that write to the session *)

(** [session.pythonProcess = ...; session.dapClient = ...] *)
Definition install (w : World) (o : ref) (p : option ChildProcess) (c : DAPClient)
  : World :=
  update_object o (fun s => with_client (Some c) (with_process p s)) w.

(** [initializeThreadContext], after [threads()] has answered. *)
Definition init_threads (w : World) (o : ref) (threads : Reply (list Thread))
  : World * option Operation :=
  match threads with
  | Resolved (t :: _) =>
      (update_object o (with_thread (Some (thread_id t))) w,
       Some (OpStackTrace (thread_id t)))
  | _ => (w, None)
  end.

(** [initializeThreadContext], after [stackTrace()] has answered. *)
Definition init_frames (w : World) (o : ref) (frames : Reply (list StackFrame))
  : World :=
  match frames with
  | Resolved (f :: _) => update_object o (with_frame (Some (frame_id f))) w
  | _ => w
  end.

(** *** Tool handlers *)

Inductive ErrorCode := InvalidParams | InternalError | MethodNotFound.

(** What a tool call gives back.  The texts are abridged. *)
Inductive ToolResult :=
| McpError (code : ErrorCode) (message : string)
| Content (text : string).

(** The guard shared by the execution-control tools:
    [!session || !session.dapClient || !session.currentThreadId]. *)
Definition active_thread (w : World) (session_id : string) : option (ref * Z) :=
  match getSession w session_id with
  | Some (o, session) =>
      match dapClient session, currentThreadId session with
      | Some _, Some t => if truthy (Some t) then Some (o, t) else None
      | _, _ => None
      end
  | None => None
  end.

Definition no_active_thread (session_id : string) : ToolResult :=
  McpError InvalidParams
    ("Session " +:+ session_id +:+ " not found, not connected, or no active thread").

Definition tool_failed (name error : string) : ToolResult :=
  McpError InternalError ("Error executing tool " +:+ name +:+ ": Error: " +:+ error).

(** Each execution-control tool comes in two parts: up to its [await] (the
    request handed to the client of session object [o]) and after the client
    has answered. *)
Definition debug_continue_call (w : World) (session_id : string)
  : ToolResult + ref * Operation :=
  match active_thread w session_id with
  | Some (o, t) => inr (o, OpContinue t)
  | None => inl (no_active_thread session_id)
  end.

Definition debug_continue_resume (w : World) (session_id : string)
    (answer : Reply unit) : World * ToolResult :=
  match answer with
  | Resolved _ =>
      (updateSessionState w session_id running,
       Content ("Continuing execution for session " +:+ session_id))
  | Rejected e => (w, tool_failed "debug_continue" e)
  end.

Definition debug_step_over_call (w : World) (session_id : string)
  : ToolResult + ref * Operation :=
  match active_thread w session_id with
  | Some (o, t) => inr (o, OpStepOver t)
  | None => inl (no_active_thread session_id)
  end.

Definition debug_step_over_resume (w : World) (session_id : string)
    (answer : Reply unit) : World * ToolResult :=
  match answer with
  | Resolved _ => (w, Content ("Step over executed for session " +:+ session_id))
  | Rejected e => (w, tool_failed "debug_step_over" e)
  end.

Definition debug_step_in_call (w : World) (session_id : string)
  : ToolResult + ref * Operation :=
  match active_thread w session_id with
  | Some (o, t) => inr (o, OpStepIn t)
  | None => inl (no_active_thread session_id)
  end.

Definition debug_step_in_resume (w : World) (session_id : string)
    (answer : Reply unit) : World * ToolResult :=
  match answer with
  | Resolved _ => (w, Content ("Step in executed for session " +:+ session_id))
  | Rejected e => (w, tool_failed "debug_step_in" e)
  end.

Definition debug_step_out_call (w : World) (session_id : string)
  : ToolResult + ref * Operation :=
  match active_thread w session_id with
  | Some (o, t) => inr (o, OpStepOut t)
  | None => inl (no_active_thread session_id)
  end.

Definition debug_step_out_resume (w : World) (session_id : string)
    (answer : Reply unit) : World * ToolResult :=
  match answer with
  | Resolved _ => (w, Content ("Step out executed for session " +:+ session_id))
  | Rejected e => (w, tool_failed "debug_step_out" e)
  end.

Inductive ExecutionTool :=
| debug_continue | debug_step_over | debug_step_in | debug_step_out.

Definition execution_call (tool : ExecutionTool) (w : World) (session_id : string)
  : ToolResult + ref * Operation :=
  match tool with
  | debug_continue => debug_continue_call w session_id
  | debug_step_over => debug_step_over_call w session_id
  | debug_step_in => debug_step_in_call w session_id
  | debug_step_out => debug_step_out_call w session_id
  end.

Definition execution_resume (tool : ExecutionTool) (w : World)
    (session_id : string) (answer : Reply unit) : World * ToolResult :=
  match tool with
  | debug_continue => debug_continue_resume w session_id answer
  | debug_step_over => debug_step_over_resume w session_id answer
  | debug_step_in => debug_step_in_resume w session_id answer
  | debug_step_out => debug_step_out_resume w session_id answer
  end.

Definition request_of (tool : ExecutionTool) (threadId : Z) : Operation :=
  match tool with
  | debug_continue => OpContinue threadId
  | debug_step_over => OpStepOver threadId
  | debug_step_in => OpStepIn threadId
  | debug_step_out => OpStepOut threadId
  end.

Definition tool_name (tool : ExecutionTool) : string :=
  match tool with
  | debug_continue => "debug_continue"
  | debug_step_over => "debug_step_over"
  | debug_step_in => "debug_step_in"
  | debug_step_out => "debug_step_out"
  end.

Section Sending.

Variable Json : Type.
Variable arguments_of : Operation → option Json.
Variable JSON_stringify : Z → string → option Json → Transport.jsstring.

(** An execution-control tool up to its [await]: the guard, then the typed
    operation on the client of the session.  The client is the session's
    own object, so the session sees what the operation made of it.  What the
    operation throws reaches the caller as a failure of the tool. *)
Definition execution_send (tool : ExecutionTool) (w : World) (session_id : string)
  : World * list (Correlator.Effect Json) * (ToolResult + promise) :=
  match execution_call tool w session_id with
  | inl refusal => (w, [], inl refusal)
  | inr (o, op) =>
      match heap w !! o ≫= dapClient with
      | None => (w, [], inl (no_active_thread session_id))
      | Some c =>
          let '(c', effects, outcome) :=
            invoke Json arguments_of JSON_stringify c op in
          let w' := update_object o (with_client (Some c')) w in
          match outcome with
          | Awaiting p => (w', effects, inr p)
          | Threw e => (w', effects, inl (tool_failed (tool_name tool) e))
          | Completed =>
              ((execution_resume tool w' session_id (Resolved ())).1, effects,
               inl (execution_resume tool w' session_id (Resolved ())).2)
          end
      end
  end.

End Sending.

(** [stop_debug_session] *)
Definition stop_debug_session (w : World) (session_id : string)
  : World * list Effect * ToolResult :=
  match getSession w session_id with
  | None =>
      (w, [], McpError InvalidParams ("Session " +:+ session_id +:+ " not found"))
  | Some _ =>
      let '(w', effects) := terminateSession w session_id in
      (w', effects,
       Content ("Debug session " +:+ session_id +:+ " stopped successfully."))
  end.

(** *** Breakpoint tools *)

(** [bp.id || index] *)
Definition id_or_index (adapter_id : option Z) (index : nat) : Z :=
  if truthy adapter_id then default 0 adapter_id else Z.of_nat index.

(** [response.breakpoints.map((bp, index) => ({ id: bp.id || index, file,
    line: lines[index], verified: bp.verified }))] *)
Definition response_breakpoints (file : string) (lines : list (option Z))
    (bps : list BreakpointReply) : list Breakpoint :=
  imap (fun index bp =>
          {| bp_id := id_or_index (rb_id bp) index;
             bp_file := file;
             bp_line := mjoin (lines !! index);
             bp_verified := rb_verified bp |}) bps.

(** The same entry, for an answer that sits [k] places into the array. *)
Definition breakpoint_at (file : string) (lines : list (option Z)) (k index : nat)
    (bp : BreakpointReply) : Breakpoint :=
  {| bp_id := id_or_index (rb_id bp) (k + index);
     bp_file := file;
     bp_line := mjoin (lines !! (k + index)%nat);
     bp_verified := rb_verified bp |}.

Definition session_not_connected (session_id : string) : ToolResult :=
  McpError InvalidParams ("Session " +:+ session_id +:+ " not found or not connected").

(** The lines [set_breakpoint] asks for: those cached for the file, and the
    new one unless it is among them. *)
Definition lines_to_set (w : World) (session_id file : string) (line : Z)
  : list (option Z) :=
  let existingLines := bp_line <$> getBreakpoints w session_id (Some file) in
  if bool_decide (Some line ∈ existingLines) then existingLines
  else existingLines ++ [Some line].

(** [set_breakpoint]; [validation] is the outcome of [validateDAPConnection].
    The handler's two awaits are taken without another handler in between. *)
Definition set_breakpoint (w : World) (session_id file : string) (line : Z)
    (validation : Reply unit) (adapter : Adapter) : World * ToolResult :=
  match getSession w session_id with
  | None => (w, session_not_connected session_id)
  | Some (_, session) =>
      match dapClient session with
      | None => (w, session_not_connected session_id)
      | Some _ =>
          if line <? 1 then (w, McpError InvalidParams "Line number must be >= 1")
          else
            match validation with
            | Rejected e =>
                (w, McpError InternalError
                      ("DAP connection validation failed: Error: " +:+ e))
            | Resolved _ =>
                let existingLines := lines_to_set w session_id file line in
                match adapter file existingLines with
                | Resolved (Some {| resp_breakpoints := Some bps |}) =>
                    (setBreakpoints w session_id file
                       (response_breakpoints file existingLines bps),
                     Content ("Breakpoint set at " +:+ file))
                | Resolved _ =>
                    (w, McpError InternalError
                          ("Failed to set breakpoint at " +:+ file +:+
                           ": Error: Invalid response from debugpy setBreakpoints"))
                | Rejected e =>
                    (w, McpError InternalError
                          ("Failed to set breakpoint at " +:+ file +:+
                           ": Error: " +:+ e))
                end
            end
      end
  end.

(** The lines [remove_breakpoint] asks for. *)
Definition lines_to_keep (w : World) (session_id file : string) (line : Z)
  : list (option Z) :=
  bp_line <$>
    filter (fun bp => bp_line bp ≠ Some line) (getBreakpoints w session_id (Some file)).

(** [remove_breakpoint] *)
Definition remove_breakpoint (w : World) (session_id file : string) (line : Z)
    (adapter : Adapter) : World * ToolResult :=
  match getSession w session_id with
  | None => (w, session_not_connected session_id)
  | Some (_, session) =>
      match dapClient session with
      | None => (w, session_not_connected session_id)
      | Some _ =>
          let updatedLines := lines_to_keep w session_id file line in
          match adapter file updatedLines with
          | Resolved (Some {| resp_breakpoints := Some bps |}) =>
              (setBreakpoints w session_id file
                 (response_breakpoints file updatedLines bps),
               Content ("Breakpoint removed from " +:+ file))
          | Resolved _ => (w, tool_failed "remove_breakpoint" "TypeError")
          | Rejected e => (w, tool_failed "remove_breakpoint" e)
          end
      end
  end.

(** [list_breakpoints]: the breakpoints listed, or the error thrown. *)
Definition list_breakpoints (w : World) (session_id : string) (file : option string)
  : ToolResult + list Breakpoint :=
  match getSession w session_id with
  | None => inl (McpError InvalidParams ("Session " +:+ session_id +:+ " not found"))
  | Some _ => inr (getBreakpoints w session_id file)
  end.

(** *** Everything that writes to a session, as one transition function

    A step is a tool call, a part of the handshake, an adapter event reaching
    a session's handlers, a timer, or the exit of a child process. *)

Inductive Step :=
| SCreate (sessionId path : string)
| SInstall (o : ref) (p : option ChildProcess) (c : DAPClient)
| SSetPort (o : ref) (port : Z)
| SInitThreads (o : ref) (threads : Reply (list Thread))
| SInitFrames (o : ref) (frames : Reply (list StackFrame))
| SHandshakeDone (sessionId : string)
| SStopped (o : ref) (body : StoppedBody)
| SStoppedFrames (o : ref) (operation : nat → Reply (list StackFrame))
| SContinued (o : ref)
| STerminated (o : ref)
| SExited (o : ref)
| SProcessExit (o : ref)
| SResume (tool : ExecutionTool) (session_id : string) (answer : Reply unit)
| STerminate (sessionId : string)
| SForceKill (o : ref)
| SSetBreakpoint (session_id file : string) (line : Z)
    (validation : Reply unit) (adapter : Adapter)
| SRemoveBreakpoint (session_id file : string) (line : Z) (adapter : Adapter).

Definition process_exit (p : option ChildProcess) : option ChildProcess :=
  (fun p => {| pid := pid p; exited := true; killed := killed p |}) <$> p.

Definition exec (w : World) (st : Step) : World :=
  match st with
  | SCreate sessionId path => (createSession w sessionId path).1
  | SInstall o p c => install w o p c
  | SSetPort o port => update_object o (with_port port) w
  | SInitThreads o threads => (init_threads w o threads).1
  | SInitFrames o frames => init_frames w o frames
  | SHandshakeDone sessionId => updateSessionState w sessionId running
  | SStopped o body => (on_stopped w o body).1
  | SStoppedFrames o operation => on_stopped_frames w o operation
  | SContinued o => on_continued w o
  | STerminated o => on_terminated w o
  | SExited o => on_exited w o
  | SProcessExit o =>
      update_object o (fun s => with_process (process_exit (pythonProcess s)) s) w
  | SResume tool session_id answer => (execution_resume tool w session_id answer).1
  | STerminate sessionId => (terminateSession w sessionId).1
  | SForceKill o => (forceKill w o).1
  | SSetBreakpoint session_id file line validation adapter =>
      (set_breakpoint w session_id file line validation adapter).1
  | SRemoveBreakpoint session_id file line adapter =>
      (remove_breakpoint w session_id file line adapter).1
  end.

Definition run (w : World) (steps : list Step) : World := fold_left exec steps w.

(** The UUIDs handed out along a run; [uuidv4] never repeats one. *)
Definition created (steps : list Step) : list string :=
  omap (fun st => match st with SCreate i _ => Some i | _ => None end) steps.

Definition fresh_ids (steps : list Step) : Prop := NoDup (created steps).

(** An adapter that answers every [setBreakpoints] with one entry per line
    asked for. *)
Definition conformant (adapter : Adapter) : Prop :=
  ∀ file lines, ∃ bps,
    adapter file lines = Resolved (Some {| resp_breakpoints := Some bps |})
    ∧ length bps = length lines.

(** [set_breakpoint(session_id, file, line)] called once per adapter of the
    list, each call on a validated connection. *)
Definition set_breakpoint_repeatedly (w : World) (session_id file : string)
    (line : Z) (adapters : list Adapter) : World :=
  fold_left (fun w adapter =>
               (set_breakpoint w session_id file line (Resolved ()) adapter).1)
    adapters w.

(** How often [line] occurs among the lines of a list of breakpoints. *)
Definition occurrences (line : Z) (bps : list Breakpoint) : nat :=
  length (filter (fun bp => bp_line bp = Some line) bps).

(** *** The rest of [SessionManager] *)

(** [getAllSessions]: the objects the registry refers to (in the order of
    the keys here, in insertion order in the source). *)
Definition getAllSessions (w : World) : list DebugSession :=
  omap (fun entry => heap w !! entry.2) (map_to_list (sessions w)).

Record SessionStats := {
  stats_total : nat;
  stats_running : nat;
  stats_paused : nat;
  stats_stopped : nat
}.

#[global] Instance State_eq_dec : EqDecision State.
Proof. solve_decision. Defined.

Definition count_state (st : State) (ss : list DebugSession) : nat :=
  length (filter (fun s => state s = st) ss).

(** [getSessionStats] *)
Definition getSessionStats (w : World) : SessionStats :=
  let ss := getAllSessions w in
  {| stats_total := length ss;
     stats_running := count_state running ss;
     stats_paused := count_state paused ss;
     stats_stopped := count_state stopped ss |}.

(** [terminateSession] up to its [await]: with a client, the client is
    closed; without one there is nothing to wait for.  The session object
    the call holds is returned for the rest of the call. *)
Definition terminate_close (w : World) (sessionId : string)
  : World * list Effect * option ref :=
  match getSession w sessionId with
  | None => (w, [], None)
  | Some (o, session) =>
      match dapClient session with
      | Some c =>
          (update_object o (with_client (Some (drop_socket c))) w,
           match socket c with Some _ => [SocketEnd o] | None => [] end,
           Some o)
      | None => (w, [], Some o)
      end
  end.

(** [terminateSession] after its [await], on the session object [o] it
    holds. *)
Definition terminate_rest (w : World) (sessionId : string) (o : ref)
  : World * list Effect :=
  match heap w !! o with
  | None => (w, [])
  | Some session =>
      let w1 := update_object o (with_client None) w in
      let '(w2, e2) :=
        match pythonProcess session with
        | Some p =>
            if negb (killed p) then
              (update_object o (with_process (Some (kill p SIGTERM).1)) w1,
               [Kill o SIGTERM; SetTimeout 2000 (ForceKill o)])
            else (w1, [])
        | None => (w1, [])
        end in
      let w3 := update_object o (with_state stopped) w2 in
      (unregister sessionId w3, e2 ++ [RemoveSessionState sessionId])
  end.

(** The calls [terminateSession(id)] that [Promise.all] starts one after
    the other: each runs to its [await], or to its end when its session has
    no client; the deferred ones are returned in order. *)
Fixpoint terminate_start (w : World) (ids : list string)
  : World * list Effect * list (string * ref) :=
  match ids with
  | [] => (w, [], [])
  | i :: ids' =>
      let '(w1, e1, waiting) :=
        match getSession w i with
        | None => (w, [], [])
        | Some (o, session) =>
            match dapClient session with
            | Some _ =>
                let '(w', e, _) := terminate_close w i in (w', e, [(i, o)])
            | None =>
                let '(w', e) := terminate_rest w i o in (w', e, [])
            end
        end in
      let '(w2, e2, waiting') := terminate_start w1 ids' in
      (w2, e1 ++ e2, waiting ++ waiting')
  end.

(** The deferred calls resumed in the order they were suspended. *)
Fixpoint terminate_resume (w : World) (waiting : list (string * ref))
  : World * list Effect :=
  match waiting with
  | [] => (w, [])
  | (i, o) :: waiting' =>
      let '(w1, e1) := terminate_rest w i o in
      let '(w2, e2) := terminate_resume w1 waiting' in
      (w2, e1 ++ e2)
  end.

Definition terminate_all (w : World) (ids : list string) : World * list Effect :=
  let '(w1, e1, waiting) := terminate_start w ids in
  let '(w2, e2) := terminate_resume w1 waiting in
  (w2, e1 ++ e2).

(** [terminateAllSessions] *)
Definition terminateAllSessions (w : World) : World * list Effect :=
  terminate_all w (map_to_list (sessions w)).*1.

(** *** Inspection tools *)

Record Scope := { scope_name : string; variablesReference : Z }.

(** [Variable] of the source. *)
Record DapVariable := { var_name : string; var_value : string; var_type : option string }.

(** [{ ...v, scope: scopeObj.name }] *)
Record ScopedVariable := { variable : DapVariable; var_scope : string }.

Record EvaluateResult := { eval_result : string; eval_type : option string }.

(** [haystack.includes(needle)] *)
Definition includes (haystack needle : string) : bool :=
  bool_decide (is_Some (Transport.find_from (Transport.code needle)
                          (Transport.code haystack) 0)).

Definition no_active_frame (session_id : string) : ToolResult :=
  McpError InvalidParams
    ("Session " +:+ session_id +:+ " not found, not connected, or no active frame").

(** The guard of [get_variables]:
    [!session || !session.dapClient || !session.currentFrameId]. *)
Definition get_variables_call (w : World) (session_id : string)
  : ToolResult + ref * Operation :=
  match getSession w session_id with
  | Some (o, session) =>
      match dapClient session, currentFrameId session with
      | Some _, Some f =>
          if truthy (Some f) then inr (o, OpScopes f)
          else inl (no_active_frame session_id)
      | _, _ => inl (no_active_frame session_id)
      end
  | None => inl (no_active_frame session_id)
  end.

(** The guard of [evaluate_expression]:
    [!session || !session.dapClient || session.currentFrameId === undefined]. *)
Definition evaluate_expression_call (w : World) (session_id expression : string)
  : ToolResult + ref * Operation :=
  match getSession w session_id with
  | Some (o, session) =>
      match dapClient session, currentFrameId session with
      | Some _, Some f => inr (o, OpEvaluate expression (Some f))
      | _, _ => inl (no_active_frame session_id)
      end
  | None => inl (no_active_frame session_id)
  end.

(** [result.type || 'unknown'] *)
Definition type_or_unknown (type : option string) : string :=
  match type with
  | Some t => if String.eqb t EmptyString then "unknown" else t
  | None => "unknown"
  end.

(** [evaluate_expression] after the adapter has answered. *)
Definition evaluate_expression_resume (expression : string)
    (answer : Reply EvaluateResult) : ToolResult :=
  match answer with
  | Resolved r =>
      Content ("Expression: " +:+ expression +:+ " Result: " +:+ eval_result r
               +:+ " Type: " +:+ type_or_unknown (eval_type r))
  | Rejected e => Content ("Expression: " +:+ expression +:+ " Error: Error: " +:+ e)
  end.

Section ScopeFilter.

(** [String.prototype.toLowerCase] is left open. *)
Variable toLowerCase : string → string.

(** The test of the loop of [get_variables]. *)
Definition scope_selected (scope : string) (scopeObj : Scope) : bool :=
  String.eqb scope "all"
  || (String.eqb scope "local" && includes (toLowerCase (scope_name scopeObj)) "local")
  || (String.eqb scope "global" && includes (toLowerCase (scope_name scopeObj)) "global").

(** The loop of [get_variables]: the scopes in order, one [variables]
    request per selected scope, the first failure ending it. *)
Fixpoint collect_variables (scope : string) (scopes : list Scope)
    (variables_of : Z → Reply (list DapVariable)) : Reply (list ScopedVariable) :=
  match scopes with
  | [] => Resolved []
  | scopeObj :: scopes' =>
      if scope_selected scope scopeObj then
        match variables_of (variablesReference scopeObj) with
        | Rejected e => Rejected e
        | Resolved vs =>
            match collect_variables scope scopes' variables_of with
            | Rejected e => Rejected e
            | Resolved rest =>
                Resolved (((fun v => {| variable := v;
                                        var_scope := scope_name scopeObj |}) <$> vs)
                          ++ rest)
            end
        end
      else collect_variables scope scopes' variables_of
  end.

(** [get_variables] after its guard: what the adapter answered to [scopes]
    and what it answers to [variables]. *)
Definition get_variables_resume (scope : string) (scopes : Reply (list Scope))
    (variables_of : Z → Reply (list DapVariable)) : ToolResult + list ScopedVariable :=
  match scopes with
  | Rejected e => inl (tool_failed "get_variables" e)
  | Resolved scopes =>
      match collect_variables scope scopes variables_of with
      | Rejected e => inl (tool_failed "get_variables" e)
      | Resolved vs => inr vs
      end
  end.

End ScopeFilter.

(** *** Invariants of the reachable worlds *)

(** A paused session knows its thread. *)
Definition session_ok (s : DebugSession) : Prop :=
  state s = paused → is_Some (currentThreadId s).

(** No line is cached twice for a file. *)
Definition distinct_lines (bps : list Breakpoint) : Prop :=
  NoDup (omap bp_line bps).

Definition lines_ok (s : DebugSession) : Prop :=
  ∀ f bps, f ≠ EmptyString → breakpoints s !! f = Some bps → distinct_lines bps.

Definition session_inv (s : DebugSession) : Prop := session_ok s ∧ lines_ok s.

(** [ids] are the UUIDs handed out so far. *)
Record wf (ids : list string) (w : World) : Prop := {
  wf_inv : ∀ o s, heap w !! o = Some s → session_inv s;
  wf_registry : ∀ i o, sessions w !! i = Some o →
                ∃ s, heap w !! o = Some s ∧ id s = i;
  wf_unique : ∀ o o' s s', heap w !! o = Some s → heap w !! o' = Some s' →
              id s = id s' → o = o';
  wf_ids : ∀ o s, heap w !! o = Some s → id s ∈ ids;
  wf_next : ∀ o, is_Some (heap w !! o) → (o < nextObject w)%nat
}.

Definition has_frame (w : World) (o : ref) : Prop :=
  ∃ s, heap w !! o = Some s ∧ is_Some (currentFrameId s).

(** The session object [o] is out of the registry's reach and Stopped. *)
Definition detached (w : World) (o : ref) : Prop :=
  (∀ i, sessions w !! i ≠ Some o)
  ∧ (o < nextObject w)%nat
  ∧ ∃ s, heap w !! o = Some s ∧ state s = stopped.

(** Steps other than a ['stopped'] event that names a thread. *)
Definition not_a_stop (st : Step) : Prop :=
  match st with
  | SStopped _ body => truthy (stopped_threadId body) = false
  | _ => True
  end.

(** A session object that has been through [terminateSession]. *)
Definition terminated (w : World) (o : ref) : Prop :=
  ∃ s, heap w !! o = Some s ∧ state s = stopped ∧ dapClient s = None.

(** Every reference in the registry leads to an object. *)
Definition registry_sound (w : World) : Prop :=
  ∀ i o, sessions w !! i = Some o → is_Some (heap w !! o).

(** How far a bulk termination that began in [w0] has come in [w]: a
    session registered at the start is still registered, or else gone from
    the registry and terminated. *)
Record terminating (w0 w : World) : Prop := {
  tg_progress : ∀ i o, sessions w0 !! i = Some o →
                sessions w !! i = Some o ∨ (sessions w !! i = None ∧ terminated w o);
  tg_shrinks : ∀ i o, sessions w !! i = Some o → sessions w0 !! i = Some o;
  tg_heap : ∀ o, is_Some (heap w0 !! o) → is_Some (heap w !! o)
}.

(** A property of every session object there is. *)
Definition heap_Forall (P : DebugSession → Prop) (w : World) : Prop :=
  ∀ o s, heap w !! o = Some s → P s.

(** The session registered under [i] is the object [o], and it has the
    client [c]. *)
Definition connected_session (w : World) (i : string) (o : ref) (c : DAPClient)
  : Prop :=
  ∃ s, getSession w i = Some (o, s) ∧ dapClient s = Some c.

(** *** Concrete sessions used in examples *)

Definition a_client : DAPClient :=
  {| socket := Some {| sock_port := 5679 |}; connected := true;
     sequenceNumber := 4; pendingRequests := ∅; messageBuffer := [] |}.

Definition a_process : ChildProcess :=
  {| pid := 4242; exited := false; killed := false |}.

Definition verifying_adapter : Adapter :=
  fun _ lines =>
    Resolved (Some {| resp_breakpoints :=
      Some ((fun _ => {| rb_id := None; rb_verified := Some true |}) <$> lines) |}).

(** A session started on ["/t/a.py"], its handshake done. *)
Definition started_steps : list Step :=
  [SCreate "s1" "/t/a.py"; SInstall 0%nat (Some a_process) a_client;
   SInitThreads 0%nat (Resolved [{| thread_id := 1; thread_name := "MainThread" |}]);
   SHandshakeDone "s1"].

Definition started : World := run initial started_steps.

Definition a_frame : StackFrame :=
  {| frame_id := 10; frame_name := "f"; frame_path := Some "/t/a.py";
     frame_line := 25 |}.

(** The same session stopped at a breakpoint, its stack trace fetched. *)
Definition paused_steps : list Step :=
  started_steps ++
  [SStopped 0%nat {| stopped_reason := "breakpoint"; stopped_threadId := Some 1 |}].

Definition stopped_steps : list Step :=
  paused_steps ++ [SStoppedFrames 0%nat (fun _ => Resolved [a_frame])].

Definition at_breakpoint : World := run initial stopped_steps.

(** Two sessions: the first started with a process, the second attached to
    a process of the user's, on the port of its choice. *)
Definition two_sessions_steps : list Step :=
  started_steps
  ++ [SCreate "s2" "/t/b.py"; SSetPort 1%nat 5678;
      SInstall 1%nat None a_client; SHandshakeDone "s2"].

Definition two_sessions : World := run initial two_sessions_steps.

(** An adapter answer that numbers its second breakpoint 0. *)
Definition zero_id_reply : list BreakpointReply :=
  [{| rb_id := Some 5; rb_verified := Some true |};
   {| rb_id := Some 0; rb_verified := Some true |}].

End Sessions.

(** ** Attach rendezvous: [performAttachSequence] *)

Module Attach.

(** What can happen while an attempt is under way. *)
Inductive Event :=
| Initialized                      (* the adapter emits [initialized] *)
| AttachResolved                   (* the [attach] request is answered *)
| AttachRejected (error : string)  (* ... or fails, or times out *)
| Deadline                         (* the timer of the attempt is due *)
| Other (name : string).           (* anything else on the event loop *)

Inductive Action :=
| SetTimeout (ms : Z)
| Once (event : string)
| ClearTimeout
| SendAttach
| Sleep (ms : Z).

(** State of [initializedPromise]. *)
Inductive PromiseState := Pending | Fulfilled | Failed.

(** What an attempt has set up so far: [initializedPromise], the one-shot
    listener for ['initialized'] on the client, and the timer of the
    deadline with its duration. *)
Record Rendezvous := {
  initializedPromise : PromiseState;
  listener : bool;
  timeout : option Z
}.

Definition nothing_set_up : Rendezvous :=
  {| initializedPromise := Pending; listener := false; timeout := None |}.

(** [resolve()] and [reject(...)]: settling a settled promise changes
    nothing. *)
Definition resolve (p : PromiseState) : PromiseState :=
  match p with
  | Pending => Fulfilled
  | _ => p
  end.

Definition reject (p : PromiseState) : PromiseState :=
  match p with
  | Pending => Failed
  | _ => p
  end.

(** One statement of those an attempt runs before its first [await]. *)
Definition perform (r : Rendezvous) (a : Action) : Rendezvous :=
  match a with
  | SetTimeout ms =>
      {| initializedPromise := initializedPromise r; listener := listener r;
         timeout := Some ms |}
  | Once event =>
      {| initializedPromise := initializedPromise r;
         listener := listener r || String.eqb event "initialized";
         timeout := timeout r |}
  | ClearTimeout =>
      {| initializedPromise := initializedPromise r; listener := listener r;
         timeout := None |}
  | SendAttach => r
  | Sleep _ => r
  end.

(** An event that arrives while the attempt is suspended.  The emitter runs
    the one-shot listener, if one is registered, and drops it: the listener
    clears the timer and resolves the promise.  The timer, if it is still
    armed, rejects the promise. *)
Definition deliver (r : Rendezvous) (e : Event) : Rendezvous :=
  match e with
  | Initialized =>
      if listener r then
        {| initializedPromise := resolve (initializedPromise r);
           listener := false; timeout := None |}
      else r
  | Deadline =>
      match timeout r with
      | Some _ =>
          {| initializedPromise := reject (initializedPromise r);
             listener := listener r; timeout := None |}
      | None => r
      end
  | _ => r
  end.

(** [try { await dapClient.attach() } catch { log }]: events pass until the
    request settles, whichever way; [None] while it has not. *)
Fixpoint await_attach (r : Rendezvous) (script : list Event)
  : option (Rendezvous * list Event) :=
  match script with
  | [] => None
  | AttachResolved :: rest => Some (r, rest)
  | AttachRejected _ :: rest => Some (r, rest)
  | e :: rest => await_attach (deliver r e) rest
  end.

(** [await initializedPromise]: [true] when it is fulfilled, [false] when it
    rejects, [None] while it is pending. *)
Fixpoint await_initialized (r : Rendezvous) (script : list Event)
  : option bool :=
  match initializedPromise r with
  | Fulfilled => Some true
  | Failed => Some false
  | Pending =>
      match script with
      | [] => None
      | e :: rest => await_initialized (deliver r e) rest
      end
  end.

(** What an attempt does before its first [await], in order: the executor
    of [initializedPromise] arms the timer and registers the listener, then
    the request is sent. *)
Definition attempt_prologue : list Action :=
  [SetTimeout 15000; Once "initialized"; SendAttach].

(** The body of the [try] of one attempt: [Some true] is [return true],
    [Some false] an exception that reaches the [catch]. *)
Definition attempt (script : list Event) : option bool :=
  match await_attach (fold_left perform attempt_prologue nothing_set_up) script with
  | Some (r, rest) => await_initialized r rest
  | None => None
  end.

(** The [for] loop; [scripts k] is what happens during attempt [k]. *)
Fixpoint attempts (scripts : nat → list Event) (k turns : nat)
  : list Action * option bool :=
  match turns with
  | O => ([], Some false)
  | S turns' =>
      match attempt (scripts k) with
      | Some true => (attempt_prologue, Some true)
      | Some false =>
          let pause := if (k <? 3)%nat then [Sleep 2000] else [] in
          let '(actions, result) := attempts scripts (S k) turns' in
          (attempt_prologue ++ pause ++ actions, result)
      | None => (attempt_prologue, None)
      end
  end.

Definition performAttachSequence (scripts : nat → list Event)
  : list Action * option bool :=
  attempts scripts 1 3.

(** Events that neither settle the [attach] request nor the rendezvous. *)
Definition idle (e : Event) : Prop :=
  match e with
  | Other _ => True
  | _ => False
  end.

(** Events other than an answer to [attach]. *)
Definition unanswered (e : Event) : Prop :=
  match e with
  | AttachResolved => False
  | AttachRejected _ => False
  | _ => True
  end.

(** An attempt during which [attach] is rejected and [initialized] arrives
    afterwards, before the deadline. *)
Definition rejected_then_initialized (script : list Event) : Prop :=
  ∃ before error between after,
    script = before ++ AttachRejected error :: between ++ Initialized :: after
    ∧ Forall idle before ∧ Forall idle between.

(** Which of the event and the deadline comes first in a script:
    [Some true] for the event, [Some false] for the deadline, [None] when
    neither occurs. *)
Fixpoint first_signal (script : list Event) : option bool :=
  match script with
  | [] => None
  | Initialized :: _ => Some true
  | Deadline :: _ => Some false
  | _ :: rest => first_signal rest
  end.

(** The [attach] request settles during the attempt. *)
Definition attach_settles (script : list Event) : bool :=
  existsb (fun e => match e with
                    | AttachResolved | AttachRejected _ => true
                    | _ => false
                    end) script.

(** A rendezvous whose promise is pending, whose listener is registered
    and whose timer is armed. *)
Definition set_up (r : Rendezvous) : Prop :=
  initializedPromise r = Pending ∧ listener r = true ∧ is_Some (timeout r).

Definition late_script : list Event :=
  [Other "output"; AttachRejected "Request timeout: attach"; Other "thread";
   Initialized].

End Attach.

(** ** Starting a session: [start_debug_session] and [attach_to_debugpy] *)

Module Startup.
Import Correlator Sessions.

(** What the adapter answers during the handshake: the [k]-th call of
    [initialize] and of [configurationDone], what happens during the [k]-th
    attempt of the attach sequence, the call of [threads] made by
    [validateDAPConnection], and the two calls of [initializeThreadContext]. *)
Record Answers := {
  initialize_answers : nat → Reply unit;
  attach_scripts : nat → list Attach.Event;
  validation_answer : Reply unit;
  configurationDone_answers : nat → Reply unit;
  threads_answer : Reply (list Thread);
  frames_answer : Reply (list StackFrame)
}.

(** [initializeThreadContext]: nothing it meets makes it throw. *)
Definition initializeThreadContext (w : World) (o : ref) (a : Answers) : World :=
  match init_threads w o (threads_answer a) with
  | (w1, Some _) => init_frames w1 o (frames_answer a)
  | (w1, None) => w1
  end.

(** The inner [try] of both tools, from [initialize] to
    [initializeThreadContext]: the world and whether it threw, or [None]
    when an attempt of the attach sequence never ends.  The awaits are taken
    without another handler in between. *)
Definition dap_initialization (w : World) (o : ref) (a : Answers)
  : option (World * Reply unit) :=
  match retryDAPOperation (initialize_answers a) 3 with
  | Some (Rejected e) => Some (w, Rejected e)
  | _ =>
      match (Attach.performAttachSequence (attach_scripts a)).2 with
      | None => None
      | Some false => Some (w, Rejected "Attach sequence failed after retries")
      | Some true =>
          match validation_answer a with
          | Rejected e =>
              Some (w, Rejected ("DAP connection validation failed: Error: " +:+ e))
          | Resolved _ =>
              match retryDAPOperation (configurationDone_answers a) 2 with
              | Some (Rejected e) => Some (w, Rejected e)
              | _ => Some (initializeThreadContext w o a, Resolved ())
              end
          end
      end
  end.

(** [start_debug_session]; [valid] is the outcome of [validateScriptPath],
    [sessionId] the UUID [createSession] draws, [spawned] the outcome of
    [startPythonProcess]. *)
Definition start_debug_session (w : World) (sessionId script_path : string)
    (valid : Reply unit) (spawned : Reply (ChildProcess * DAPClient))
    (a : Answers) : option (World * list Effect * ToolResult) :=
  match valid with
  | Rejected e => Some (w, [], McpError InvalidParams e)
  | Resolved _ =>
      let '(w1, o) := createSession w sessionId script_path in
      match spawned with
      | Rejected e =>
          (* Clean up on failure *)
          Some ((terminateSession w1 sessionId).1, (terminateSession w1 sessionId).2,
                McpError InternalError
                  ("Failed to start debug session: Error: " +:+ e))
      | Resolved (pythonProcess, dapClient) =>
          let w2 := install w1 o (Some pythonProcess) dapClient in
          match dap_initialization w2 o a with
          | None => None
          | Some (w3, Rejected e) =>
              Some ((terminateSession w3 sessionId).1,
                    (terminateSession w3 sessionId).2,
                    McpError InternalError
                      ("Failed to start debug session: Error: "
                       +:+ "DAP protocol initialization failed: Error: " +:+ e))
          | Some (w3, Resolved _) =>
              Some (updateSessionState w3 sessionId running, [],
                    Content "Debug session started successfully!")
          end
      end
  end.

(** The client [attach_to_debugpy] creates and stores in the session is one
    object, which the handlers of its socket and the requests of the
    handshake go on changing while the tool runs.  Its socket is the one
    [connect()] created for the port: only [close()] and [disconnect()] drop
    it, and the tool calls neither before it fails.  What its other fields
    hold at the moment the session is looked at is not decided by the tool;
    [now] stands for the state of the object at that moment. *)
Definition client_on_port (port : Z) (now : DAPClient) : DAPClient :=
  {| socket := Some {| sock_port := port |};
     connected := connected now;
     sequenceNumber := sequenceNumber now;
     pendingRequests := pendingRequests now;
     messageBuffer := messageBuffer now |}.

(** [attach_to_debugpy]; [connect] is the outcome of [dapClient.connect],
    [now] the state of the client object when the tool ends. *)
Definition attach_to_debugpy (w : World) (sessionId script_path : string)
    (port : Z) (valid : Reply unit) (connect : Reply unit) (a : Answers)
    (now : DAPClient)
  : option (World * list Effect * ToolResult) :=
  match valid with
  | Rejected e => Some (w, [], McpError InvalidParams e)
  | Resolved _ =>
      let '(w1, o) := createSession w sessionId script_path in
      (* Override port for attachment *)
      let w2 := update_object o (with_port port) w1 in
      let w3 := install w2 o None (client_on_port port now) in
      let failed (w' : World) (e : string) :=
        Some ((terminateSession w' sessionId).1, (terminateSession w' sessionId).2,
              McpError InternalError
                ("Failed to attach to debugpy session: Error: "
                 +:+ "DAP attachment failed: Error: " +:+ e)) in
      match connect with
      | Rejected e => failed w3 e
      | Resolved _ =>
          match dap_initialization w3 o a with
          | None => None
          | Some (w4, Rejected e) => failed w4 e
          | Some (w4, Resolved _) =>
              Some (updateSessionState w4 sessionId running, [],
                    Content "Successfully attached to debugpy session!")
          end
      end
  end.

(** No signal is sent to any process. *)
Definition no_signal (effects : list Effect) : Prop :=
  Forall (fun e => match e with Kill _ _ => False | _ => True end) effects.

(** A handshake in which every request is answered at once. *)
Definition smooth : Answers :=
  {| initialize_answers := fun _ => Resolved ();
     attach_scripts := fun _ => [Attach.AttachResolved; Attach.Initialized];
     validation_answer := Resolved ();
     configurationDone_answers := fun _ => Resolved ();
     threads_answer := Resolved [{| thread_id := 1; thread_name := "MainThread" |}];
     frames_answer := Rejected "Request timeout: stackTrace" |}.

End Startup.

(** ** Debug panel: [EventBroadcaster.updateBreakpointsInState] *)

Module Broadcaster.

(** An entry of [sessionState.breakpoints]. *)
Record PanelBreakpoint := {
  pb_id : Z;
  pb_file : string;
  pb_line : Z;
  pb_verified : bool
}.

(** The [data] of a breakpoint event. *)
Record BreakpointData := {
  data_action : option string;
  data_id : option Z;
  data_file : string;
  data_line : Z;
  data_verified : option bool
}.

(** [data.action === name] *)
Definition has_action (data : BreakpointData) (name : string) : bool :=
  match data_action data with
  | Some a => String.eqb a name
  | None => false
  end.

(** [bp.file === data.file && bp.line === data.line] *)
Definition at_place (data : BreakpointData) (bp : PanelBreakpoint) : bool :=
  String.eqb (pb_file bp) (data_file data) && (pb_line bp =? data_line data).

(** [Array.prototype.findIndex]; [None] stands for [-1]. *)
Fixpoint findIndex {A : Type} (p : A → bool) (l : list A) : option nat :=
  match l with
  | [] => None
  | x :: l' => if p x then Some 0%nat else S <$> findIndex p l'
  end.

(** [updateBreakpointsInState]; [now] is what [Date.now()] returns, and a
    missing [sessionState.breakpoints] is [None]. *)
Definition updateBreakpointsInState (now : Z)
    (breakpoints : option (list PanelBreakpoint)) (data : BreakpointData)
  : list PanelBreakpoint :=
  let breakpoints := default [] breakpoints in
  let added :=
    if has_action data "set" || has_action data "add" then
      let breakpoint :=
        {| pb_id := match data_id data with
                    | Some n => if n =? 0 then now else n
                    | None => now
                    end;
           pb_file := data_file data;
           pb_line := data_line data;
           pb_verified := negb (bool_decide (data_verified data = Some false)) |} in
      match findIndex (at_place data) breakpoints with
      | Some existingIndex => <[existingIndex := breakpoint]> breakpoints
      | None => breakpoints ++ [breakpoint]
      end
    else breakpoints in
  if has_action data "remove" then
    filter (fun bp => at_place data bp = false) added
  else added.

(** Where a breakpoint is. *)
Definition place (bp : PanelBreakpoint) : string * Z := (pb_file bp, pb_line bp).

End Broadcaster.

(** * Properties *)

Module TransportProps.
Import Transport.

Local Open Scope nat_scope.
Local Arguments header : simpl never.
Local Arguments frame : simpl never.

(** *** ASCII text crosses the socket unchanged *)

Lemma utf8_encode_ascii (s : jsstring) : ascii_only s → utf8_encode s = s.
Proof.
  induction 1 as [|c s Hc _ IH]; [done|].
  cbn [utf8_encode].
  assert (is_high_surrogate c = false) as ->.
  { unfold is_high_surrogate. apply andb_false_iff. left. apply N.leb_gt. lia. }
  assert (is_low_surrogate c = false) as ->.
  { unfold is_low_surrogate. apply andb_false_iff. left. apply N.leb_gt. lia. }
  unfold utf8_of_code_point.
  assert ((c <? 128)%N = true) as -> by (apply N.ltb_lt; lia).
  cbn. by rewrite IH.
Qed.

Lemma toString_ascii (data : bytes) : ascii_only data → toString data = data.
Proof.
  unfold toString. induction 1 as [|b bs Hb _ IH]; [done|].
  cbn [utf8_decode dec_step dec_init dec_needed]. unfold dec_lead.
  assert ((b <=? 127)%N = true) as -> by (apply N.leb_le; lia).
  cbn. by rewrite IH.
Qed.

Lemma ascii_only_app (s t : list N) :
  ascii_only (s ++ t) ↔ ascii_only s ∧ ascii_only t.
Proof. apply Forall_app. Qed.

Lemma ascii_only_concat (ss : list (list N)) :
  ascii_only (concat ss) ↔ Forall ascii_only ss.
Proof.
  induction ss as [|s ss IH]; cbn.
  - split; constructor.
  - rewrite ascii_only_app, IH. split.
    + intros [? ?]. by constructor.
    + by inversion 1.
Qed.

(** *** Decimal text of a length *)

Lemma parseInt_acc (d : Decimal.uint) (acc : nat) :
  fold_left (fun a c => a * 10 + N.to_nat (c - 48)) (digits_of_uint d) acc
  = Nat.of_uint_acc d acc.
Proof.
  revert acc.
  induction d; intros acc; cbn [digits_of_uint fold_left Nat.of_uint_acc];
    try done; rewrite IHd; f_equal; unfold Nat.tail_mul;
    rewrite Nat.tail_addmul_spec; cbn; lia.
Qed.

Lemma parseInt_number_toString (n : nat) : parseInt (number_toString n) = n.
Proof.
  unfold parseInt, number_toString. rewrite parseInt_acc.
  apply DecimalNat.Unsigned.of_to.
Qed.

Lemma digits_of_uint_digits (d : Decimal.uint) :
  Forall (fun c => is_digit c = true) (digits_of_uint d).
Proof. induction d; cbn; constructor; done. Qed.

Lemma number_toString_nonempty (n : nat) : number_toString n ≠ [].
Proof.
  unfold number_toString. intros H.
  assert (Nat.to_uint n = Nil) as Hnil.
  { destruct (Nat.to_uint n); cbn in H; congruence. }
  pose proof (DecimalNat.Unsigned.of_to n) as Hn. rewrite Hnil in Hn.
  cbn in Hn. subst n. discriminate Hnil.
Qed.

Lemma take_digits_all (ds : jsstring) :
  Forall (fun c => is_digit c = true) ds → take_digits ds = ds.
Proof. induction 1 as [|c ds Hc _ IH]; cbn; [done|]. by rewrite Hc, IH. Qed.

(** *** The header of an emitted frame *)

Lemma frame_header (m : jsstring) : frame m = header m ++ CRLFCRLF ++ m.
Proof. unfold frame, header. by rewrite <- app_assoc. Qed.

Lemma digit_not_cr (c : N) : is_digit c = true → c ≠ 13%N.
Proof.
  unfold is_digit. intros H ->. discriminate H.
Qed.

Lemma header_no_cr (m : jsstring) : Forall (fun c => c ≠ 13%N) (header m).
Proof.
  unfold header. apply Forall_app. split.
  - unfold CONTENT_LENGTH. cbn. repeat constructor; discriminate.
  - eapply Forall_impl; [apply digits_of_uint_digits|]. apply digit_not_cr.
Qed.

Lemma header_ascii (m : jsstring) : ascii_only (header m).
Proof.
  unfold header. apply Forall_app. split.
  - unfold CONTENT_LENGTH. cbn. repeat constructor; reflexivity.
  - eapply Forall_impl; [apply digits_of_uint_digits|].
    unfold is_digit. intros c Hc. apply andb_true_iff in Hc as [_ Hc].
    apply N.leb_le in Hc. lia.
Qed.

Lemma frame_ascii (m : jsstring) : ascii_only m → ascii_only (frame m).
Proof.
  intros Hm. rewrite frame_header. apply Forall_app. split; [apply header_ascii|].
  apply Forall_app. split; [|done]. repeat constructor; reflexivity.
Qed.

Lemma starts_with_app (p s : jsstring) : starts_with p (p ++ s) = true.
Proof. induction p as [|a p IH]; cbn; [done|]. by rewrite N.eqb_refl, IH. Qed.

Lemma match_content_length_header (m : jsstring) :
  match_content_length (header m) = Some (number_toString (length m)).
Proof.
  unfold header.
  assert (match_here (CONTENT_LENGTH ++ number_toString (length m))
          = Some (number_toString (length m))) as Hh.
  { unfold match_here. rewrite starts_with_app, drop_app_length.
    rewrite take_digits_all by apply digits_of_uint_digits.
    pose proof (number_toString_nonempty (length m)).
    by destruct (number_toString (length m)). }
  destruct (CONTENT_LENGTH ++ number_toString (length m)) eqn:E;
    cbn [match_content_length]; by rewrite Hh.
Qed.

(** *** Locating the header terminator *)

Lemma starts_with_crlf_ne (c : N) (s : jsstring) :
  c ≠ 13%N → starts_with CRLFCRLF (c :: s) = false.
Proof.
  intros Hc. unfold CRLFCRLF. cbn [starts_with].
  apply andb_false_iff. left. apply N.eqb_neq. congruence.
Qed.

Lemma find_from_header (h rest : jsstring) (i : nat) :
  Forall (fun c => c ≠ 13%N) h →
  find_from CRLFCRLF (h ++ CRLFCRLF ++ rest) i = Some (i + length h).
Proof.
  intros Hh. revert i. induction Hh as [|c h Hc _ IH]; intros i.
  - cbn. f_equal. lia.
  - cbn [app find_from length].
    rewrite starts_with_crlf_ne by done.
    rewrite IH. f_equal. lia.
Qed.

Lemma find_from_short (h rest : jsstring) (k i : nat) :
  Forall (fun c => c ≠ 13%N) h →
  k < length h + 4 →
  find_from CRLFCRLF (take k (h ++ CRLFCRLF ++ rest)) i = None.
Proof.
  intros Hh. revert k i. induction Hh as [|c h Hc _ IH]; intros k i Hk.
  - cbn in Hk. do 4 (destruct k as [|k]; [reflexivity|]). lia.
  - destruct k as [|k]; [reflexivity|].
    cbn [app take find_from].
    rewrite starts_with_crlf_ne by done.
    apply IH. cbn in Hk. lia.
Qed.

(** *** One turn of the loop *)

Lemma extract_S (fuel : nat) (buf : jsstring) :
  extract (S fuel) buf =
    let headerEnd := indexOf CRLFCRLF buf in
    if (headerEnd =? -1)%Z then ([], buf)
    else
      let headers := substring buf 0 (Z.to_nat headerEnd) in
      match match_content_length headers with
      | None => ([], buf)
      | Some group1 =>
          let contentLength := parseInt group1 in
          let messageStart := Z.to_nat headerEnd + 4 in
          let messageEnd := messageStart + contentLength in
          if length buf <? messageEnd then ([], buf)
          else
            let messageContent := substring buf messageStart messageEnd in
            let '(rest, b) := extract fuel (substring_from buf messageEnd) in
            (messageContent :: rest, b)
      end.
Proof. reflexivity. Qed.

Lemma indexOf_header (h rest : jsstring) :
  Forall (fun c => c ≠ 13%N) h →
  indexOf CRLFCRLF (h ++ CRLFCRLF ++ rest) = Z.of_nat (length h).
Proof. intros Hh. unfold indexOf. by rewrite find_from_header. Qed.

Lemma frame_length (m : jsstring) :
  length (frame m) = length (header m) + 4 + length m.
Proof. rewrite frame_header, !length_app. cbn. lia. Qed.

(** A buffer that begins with a whole frame: the frame's content is
    extracted and the loop goes on with what follows. *)
Lemma extract_frame (fuel : nat) (m rest : jsstring) :
  extract (S fuel) (frame m ++ rest) =
    (m :: (extract fuel rest).1, (extract fuel rest).2).
Proof.
  rewrite extract_S. rewrite frame_header, <- !app_assoc.
  rewrite indexOf_header by apply header_no_cr.
  cbv zeta. rewrite Nat2Z.id.
  assert ((Z.of_nat (length (header m)) =? -1)%Z = false) as ->
    by (apply Z.eqb_neq; lia).
  assert (substring (header m ++ CRLFCRLF ++ m ++ rest) 0 (length (header m))
          = header m) as ->.
  { unfold substring. rewrite Nat.sub_0_r, drop_0. apply take_app_length. }
  rewrite match_content_length_header, parseInt_number_toString.
  assert ((length (header m ++ CRLFCRLF ++ m ++ rest)
            <? length (header m) + 4 + length m) = false) as ->.
  { apply Nat.ltb_ge. rewrite !length_app. cbn. lia. }
  assert (substring (header m ++ CRLFCRLF ++ m ++ rest)
            (length (header m) + 4) (length (header m) + 4 + length m) = m) as ->.
  { unfold substring.
    replace (length (header m) + 4 + length m - (length (header m) + 4))
      with (length m) by lia.
    rewrite (app_assoc (header m)).
    rewrite drop_app_length' by (rewrite length_app; cbn; lia).
    apply take_app_length. }
  assert (substring_from (header m ++ CRLFCRLF ++ m ++ rest)
            (length (header m) + 4 + length m) = rest) as ->.
  { unfold substring_from. rewrite !app_assoc.
    apply drop_app_length'. rewrite !length_app. cbn. lia. }
  by destruct (extract fuel rest).
Qed.

(** A buffer that holds only a strict beginning of a frame: the loop breaks
    at once and the buffer is kept. *)
Lemma extract_incomplete (fuel : nat) (m : jsstring) (k : nat) :
  k < length (frame m) →
  extract fuel (take k (frame m)) = ([], take k (frame m)).
Proof.
  intros Hk. destruct fuel as [|fuel]; [done|].
  rewrite extract_S.
  destruct (decide (k < length (header m) + 4)) as [Hshort|Hlong].
  - unfold indexOf. rewrite frame_header.
    by rewrite find_from_short by (apply header_no_cr || done).
  - assert (take k (frame m)
            = header m ++ CRLFCRLF ++ take (k - (length (header m) + 4)) m) as ->.
    { rewrite frame_header, (app_assoc (header m)).
      rewrite take_app_ge by (rewrite length_app; cbn; lia).
      rewrite length_app, <- app_assoc. reflexivity. }
    rewrite indexOf_header by apply header_no_cr.
    cbv zeta. rewrite Nat2Z.id.
    assert ((Z.of_nat (length (header m)) =? -1)%Z = false) as ->
      by (apply Z.eqb_neq; lia).
    assert (∀ t, substring (header m ++ t) 0 (length (header m)) = header m) as ->.
    { intros t. unfold substring. rewrite Nat.sub_0_r, drop_0.
      apply take_app_length. }
    rewrite match_content_length_header, parseInt_number_toString.
    assert ((length (header m ++ CRLFCRLF ++ take (k - (length (header m) + 4)) m)
              <? length (header m) + 4 + length m) = true) as ->; [|done].
    apply Nat.ltb_lt. rewrite !length_app, length_take. cbn.
    rewrite frame_length in Hk. lia.
Qed.

(** The loop breaks before its turns run out: past the length of the
    buffer, more turns change nothing. *)
Lemma extract_fuel (n m : nat) (buf : jsstring) :
  length buf < n → length buf < m → extract n buf = extract m buf.
Proof.
  revert m buf. induction n as [|n IH]; intros m buf Hn Hm; [lia|].
  destruct m as [|m]; [lia|]. rewrite !extract_S. cbv zeta.
  destruct (indexOf CRLFCRLF buf =? -1)%Z; [done|].
  destruct (match_content_length _) as [group1|]; [|done].
  destruct (length buf <? _) eqn:Hlen; [done|].
  apply Nat.ltb_ge in Hlen. unfold substring_from.
  rewrite (IH m); [done|rewrite length_drop; lia..].
Qed.

Lemma extract_nil (fuel : nat) : extract fuel [] = ([], []).
Proof. by destruct fuel. Qed.

Lemma extract_incomplete_buffer (fuel : nat) (p : jsstring) (todo : list jsstring) :
  incomplete p todo → extract fuel p = ([], p).
Proof.
  destruct todo as [|m todo]; cbn.
  - intros ->. apply extract_nil.
  - intros (k & Hk & ->). by apply extract_incomplete.
Qed.

Lemma frames_cons (m : jsstring) (ms : list jsstring) :
  frames (m :: ms) = frame m ++ frames ms.
Proof. reflexivity. Qed.

Lemma frames_app (ms ms' : list jsstring) :
  frames (ms ++ ms') = frames ms ++ frames ms'.
Proof. unfold frames. by rewrite map_app, concat_app. Qed.

Lemma frames_length_ge (ms : list jsstring) : length ms ≤ length (frames ms).
Proof.
  induction ms as [|m ms IH]; [done|].
  rewrite frames_cons, length_app, frame_length. cbn. lia.
Qed.

(** Whole frames followed by the beginning of the next one: the loop
    delivers the whole ones and keeps the rest. *)
Lemma extract_frames (done' : list jsstring) (p : jsstring)
    (todo : list jsstring) (fuel : nat) :
  incomplete p todo → length done' < fuel →
  extract fuel (frames done' ++ p) = (done', p).
Proof.
  intros Hp. revert fuel. induction done' as [|m ms IH]; intros fuel Hfuel.
  - cbn. by eapply extract_incomplete_buffer.
  - destruct fuel as [|fuel]; [cbn in Hfuel; lia|].
    rewrite frames_cons, <- app_assoc, extract_frame.
    rewrite IH by (cbn in Hfuel; lia). done.
Qed.

(** Any beginning of a run of frames is a run of whole frames followed by a
    strict beginning of the next one. *)
Lemma prefix_of_frames (todo : list jsstring) (b rest : jsstring) :
  b ++ rest = frames todo →
  ∃ (done' todo' : list jsstring) (p : jsstring),
    todo = done' ++ todo' ∧ b = frames done' ++ p ∧ incomplete p todo'.
Proof.
  revert b rest. induction todo as [|m todo IH]; intros b rest Hb.
  - apply app_eq_nil in Hb as [-> _]. by exists [], [], [].
  - rewrite frames_cons in Hb.
    apply app_eq_inv in Hb as [(k & -> & Hk)|(k & Hm & Hk)].
    + symmetry in Hk. destruct (IH _ _ Hk) as (d & t & p & -> & -> & Hp).
      exists (m :: d), t, p. split_and!; [done| |done].
      by rewrite frames_cons, <- app_assoc.
    + destruct k as [|c k].
      * rewrite app_nil_r in Hm. subst b. cbn in Hk. subst rest.
        destruct (IH [] (frames todo) eq_refl) as (d & t & p & -> & Hd & Hp).
        exists (m :: d), t, p. split_and!; [done| |done].
        by rewrite frames_cons, <- app_assoc, <- Hd, app_nil_r.
      * exists [], (m :: todo), b. split_and!; [done..|].
        cbn. exists (length b). rewrite Hm, length_app. cbn. split; [lia|].
        by rewrite take_app_length.
Qed.

(** Feeding chunks of ASCII text that together continue the buffer into a
    run of frames delivers exactly those frames' contents. *)
Lemma feed_frames (chunks : list bytes) (p : jsstring) (todo : list jsstring) :
  Forall ascii_only chunks → incomplete p todo →
  p ++ concat chunks = frames todo →
  feed p chunks = (todo, []).
Proof.
  intros Hascii. revert p todo.
  induction Hascii as [|c chunks Hc _ IH]; intros p todo Hp Hall.
  - cbn in *. rewrite app_nil_r in Hall. destruct todo as [|m todo].
    + by rewrite Hp.
    + destruct Hp as (k & Hk & Hpk). exfalso.
      assert (length p = length (frames (m :: todo))) as Hlen by by rewrite Hall.
      rewrite Hpk, length_take, frames_cons, length_app in Hlen. lia.
  - cbn [feed concat] in *. unfold handleData. cbv zeta.
    rewrite toString_ascii by done.
    rewrite app_assoc in Hall.
    destruct (prefix_of_frames _ _ _ Hall) as (d & t & p' & -> & Hb & Hp').
    rewrite Hb, (extract_frames d p' t) by
      (done || (pose proof (frames_length_ge d); rewrite length_app; lia)).
    rewrite Hb, frames_app, <- app_assoc in Hall.
    apply app_inv_head in Hall.
    by rewrite (IH p' t Hp' Hall).
Qed.

(** *** Round trip for ASCII traffic *)

(** Frames written for ASCII requests, cut into chunks anywhere, are handed
    over as exactly the requests written, once each and in order, and the
    buffer ends empty. *)
Theorem deframe_ascii_any_split (bodies : list jsstring) (chunks : list bytes) :
  Forall ascii_only bodies →
  concat chunks = concat (List.map write bodies) →
  feed [] chunks = (bodies, []).
Proof.
  intros Hbodies Hsplit.
  assert (concat (List.map write bodies) = frames bodies) as Hw.
  { unfold frames. f_equal. apply map_ext_Forall.
    eapply Forall_impl; [exact Hbodies|]. intros m Hm. unfold write.
    by apply utf8_encode_ascii, frame_ascii. }
  rewrite Hw in Hsplit. apply feed_frames; [| |done].
  - apply ascii_only_concat. rewrite Hsplit. apply ascii_only_concat.
    apply Forall_map. eapply Forall_impl; [exact Hbodies|]. apply frame_ascii.
  - destruct bodies as [|m ms]; [done|]. exists 0. rewrite frame_length.
    split; [lia|done].
Qed.

Lemma concat_bytewise (stream : bytes) : concat (bytewise stream) = stream.
Proof.
  unfold bytewise. induction stream as [|b stream IH]; [done|].
  cbn. f_equal. exact IH.
Qed.

(** Two frames chopped into chunks of one byte are handed over as the two
    messages, once each and in order. *)
Example bytewise_frames :
  feed [] (bytewise (write initialized_event ++ write initialize_response))
  = ([initialized_event; initialize_response], []).
Proof.
  apply deframe_ascii_any_split.
  - repeat constructor; vm_compute; reflexivity.
  - rewrite concat_bytewise. cbn [List.map concat]. by rewrite app_nil_r.
Defined.

(** *** A chunk boundary inside a character *)

(** C5, at a request whose expression holds the letter U+00E9, with the
    bytes written for it cut between the two bytes of that letter.  Fed in
    one piece the request is handed over as written.  Fed in the two pieces,
    each half of the letter decodes to U+FFFD, so the buffered text is one
    character longer than the length announced: what is handed over is not
    the request, and the request's closing brace stays in the buffer as the
    beginning of the next frame. *)
Theorem split_inside_character :
  concat evaluate_chunks = write evaluate_request
  ∧ feed [] [write evaluate_request] = ([evaluate_request], [])
  ∧ (feed [] evaluate_chunks).1 ≠ [evaluate_request]
  ∧ (feed [] evaluate_chunks).2 = code "}".
Proof.
  split_and!; [vm_compute; reflexivity.. | | vm_compute; reflexivity].
  vm_compute. discriminate.
Qed.

(** *** A header block without [Content-Length] *)

Lemma starts_with_length (p s : jsstring) :
  starts_with p s = true → length p ≤ length s.
Proof.
  revert s. induction p as [|a p IH]; intros [|b s]; cbn; try done; try lia.
  intros [_ H]%andb_true_iff. apply IH in H. lia.
Qed.

Lemma starts_with_app_true (p s t : jsstring) :
  starts_with p s = true → starts_with p (s ++ t) = true.
Proof.
  revert s. induction p as [|a p IH]; intros [|b s]; cbn; try done.
  intros [-> H]%andb_true_iff. by rewrite IH.
Qed.

Lemma starts_with_app_false (p s t : jsstring) :
  length p ≤ length s → starts_with p s = false → starts_with p (s ++ t) = false.
Proof.
  revert s. induction p as [|a p IH]; intros [|b s]; cbn; try done; try lia.
  intros Hlen [->|H]%andb_false_iff; [done|].
  rewrite IH by (done || lia). apply andb_false_r.
Qed.

Lemma find_from_bounds (p s : jsstring) (i k : nat) :
  find_from p s i = Some k → i ≤ k ∧ length p + (k - i) ≤ length s.
Proof.
  revert i. induction s as [|c s IH]; intros i; cbn [find_from].
  - destruct (starts_with p []) eqn:Hp; [|done].
    intros [= <-]. apply starts_with_length in Hp. lia.
  - destruct (starts_with p (c :: s)) eqn:Hp.
    + intros [= <-]. apply starts_with_length in Hp. lia.
    + intros H%IH. cbn. lia.
Qed.

(** What arrives later does not move the first header terminator. *)
Lemma find_from_app (p s t : jsstring) (i k : nat) :
  find_from p s i = Some k → find_from p (s ++ t) i = Some k.
Proof.
  revert i. induction s as [|c s IH]; intros i; cbn [find_from app].
  - destruct (starts_with p []) eqn:Hp; [|done]. intros [= <-].
    destruct p; [|done]. by destruct t.
  - destruct (starts_with p (c :: s)) eqn:Hp.
    + intros [= <-]. change (c :: s ++ t) with ((c :: s) ++ t).
      by rewrite starts_with_app_true.
    + intros H. pose proof (find_from_bounds _ _ _ _ H) as [_ Hlen].
      change (c :: s ++ t) with ((c :: s) ++ t).
      rewrite starts_with_app_false by (done || (cbn; lia)). by apply IH.
Qed.

Lemma stalled_app (buf more : jsstring) : stalled buf → stalled (buf ++ more).
Proof.
  intros (k & Hk & Hnone). exists k. split; [by apply find_from_app|].
  pose proof (find_from_bounds _ _ _ _ Hk) as [_ Hlen].
  rewrite take_app_le by lia. done.
Qed.

Lemma extract_stalled (fuel : nat) (buf : jsstring) :
  stalled buf → extract fuel buf = ([], buf).
Proof.
  intros (k & Hk & Hnone). destruct fuel as [|fuel]; [done|].
  rewrite extract_S. unfold indexOf. rewrite Hk. cbv zeta.
  assert ((Z.of_nat k =? -1)%Z = false) as -> by (apply Z.eqb_neq; lia).
  rewrite Nat2Z.id. unfold substring. by rewrite Nat.sub_0_r, drop_0, Hnone.
Qed.

(** Once the buffer begins with a complete header block that names no
    [Content-Length], nothing is ever handed over again: whatever arrives
    afterwards, well-formed frames included, is only appended to the
    buffer. *)
Theorem stalled_forever (buf : jsstring) (chunks : list bytes) :
  stalled buf →
  feed buf chunks = ([], buf ++ concat (toString <$> chunks)).
Proof.
  revert buf. induction chunks as [|data chunks IH]; intros buf Hst.
  - cbn. by rewrite app_nil_r.
  - cbn [feed]. unfold handleData. cbv zeta.
    rewrite extract_stalled by by apply stalled_app.
    rewrite IH by by apply stalled_app.
    cbn. by rewrite app_assoc.
Qed.

Lemma stalled_forever_witness :
  feed headless_frame [write (code "{}"); write (code "[]")]
  = ([], headless_frame ++ frame (code "{}") ++ frame (code "[]")).
Proof.
  rewrite (stalled_forever headless_frame [write (code "{}"); write (code "[]")]).
  - vm_compute. reflexivity.
  - exists 18. split; vm_compute; reflexivity.
Defined.

(** *** Chunks that end between characters *)

Ltac euclid := zify; Z.to_euclidean_division_equations; lia.

Lemma well_formed_cons2 (c d : N) (s : jsstring) :
  well_formed (c :: d :: s)
  = if is_high_surrogate c then is_low_surrogate d && well_formed s
    else (c <? 0x10000)%N && negb (is_low_surrogate c) && well_formed (d :: s).
Proof. reflexivity. Qed.

Lemma well_formed_induction (P : jsstring → Prop) :
  P [] →
  (∀ c s, is_high_surrogate c = false → is_low_surrogate c = false →
          (c < 0x10000)%N → well_formed s = true → P s → P (c :: s)) →
  (∀ c d s, is_high_surrogate c = true → is_low_surrogate d = true →
            well_formed s = true → P s → P (c :: d :: s)) →
  ∀ s, well_formed s = true → P s.
Proof.
  intros Hnil Hone Htwo s.
  enough ((well_formed s = true → P s)
          ∧ ∀ c, well_formed (c :: s) = true → P (c :: s)) by tauto.
  induction s as [|d s [IH1 IH2]].
  - split; [done|]. intros c. cbn. destruct (is_high_surrogate c) eqn:Hh; [done|].
    rewrite andb_true_r. intros [Hc Hl%negb_true_iff]%andb_true_iff.
    apply Hone; try done. by apply N.ltb_lt.
  - split; [apply IH2|]. intros c. rewrite well_formed_cons2.
    destruct (is_high_surrogate c) eqn:Hh.
    + intros [Hd Hs]%andb_true_iff. apply Htwo; auto.
    + intros [[Hc Hl%negb_true_iff]%andb_true_iff Hs]%andb_true_iff.
      apply Hone; auto. by apply N.ltb_lt.
Qed.

Lemma land_ones_small (base x n mask : N) :
  N.ones n = mask → (x < 2 ^ n)%N → (base mod 2 ^ n = 0)%N →
  N.land (base + x) mask = x.
Proof.
  intros <- Hx Hb. rewrite N.land_ones.
  rewrite <- N.Div0.add_mod_idemp_l, Hb, N.add_0_l. by apply N.mod_small.
Qed.

Lemma dec_lead_two (x : N) :
  (2 ≤ x < 32)%N →
  dec_lead (0xC0 + x)
  = ({| dec_cp := x; dec_needed := 1; dec_lower := 0x80; dec_upper := 0xBF |}, []).
Proof.
  intros Hx. unfold dec_lead.
  assert ((0xC0 + x <=? 0x7F)%N = false) as -> by (apply N.leb_gt; lia).
  assert ((0xC2 <=? 0xC0 + x)%N = true) as -> by (apply N.leb_le; lia).
  assert ((0xC0 + x <=? 0xDF)%N = true) as -> by (apply N.leb_le; lia).
  cbn [andb]. by rewrite (land_ones_small 0xC0 x 5 0x1F) by first [reflexivity | cbn; lia].
Qed.

Lemma dec_lead_three (x : N) :
  (x < 16)%N →
  dec_lead (0xE0 + x)
  = ({| dec_cp := x; dec_needed := 2;
        dec_lower := if (x =? 0)%N then 0xA0 else 0x80;
        dec_upper := if (x =? 13)%N then 0x9F else 0xBF |}, []).
Proof.
  intros Hx. unfold dec_lead.
  assert ((0xE0 + x <=? 0x7F)%N = false) as -> by (apply N.leb_gt; lia).
  assert ((0xE0 + x <=? 0xDF)%N = false) as -> by (apply N.leb_gt; lia).
  rewrite andb_false_r.
  assert ((0xE0 <=? 0xE0 + x)%N = true) as -> by (apply N.leb_le; lia).
  assert ((0xE0 + x <=? 0xEF)%N = true) as -> by (apply N.leb_le; lia).
  cbn [andb]. rewrite (land_ones_small 0xE0 x 4 0xF) by first [reflexivity | cbn; lia].
  assert ((0xE0 + x =? 0xE0)%N = (x =? 0)%N) as ->
    by (destruct (N.eqb_spec x 0); [apply N.eqb_eq|apply N.eqb_neq]; lia).
  assert ((0xE0 + x =? 0xED)%N = (x =? 13)%N) as ->
    by (destruct (N.eqb_spec x 13); [apply N.eqb_eq|apply N.eqb_neq]; lia).
  done.
Qed.

Lemma dec_lead_four (x : N) :
  (x < 5)%N →
  dec_lead (0xF0 + x)
  = ({| dec_cp := x; dec_needed := 3;
        dec_lower := if (x =? 0)%N then 0x90 else 0x80;
        dec_upper := if (x =? 4)%N then 0x8F else 0xBF |}, []).
Proof.
  intros Hx. unfold dec_lead.
  assert ((0xF0 + x <=? 0x7F)%N = false) as -> by (apply N.leb_gt; lia).
  assert ((0xF0 + x <=? 0xDF)%N = false) as -> by (apply N.leb_gt; lia).
  assert ((0xF0 + x <=? 0xEF)%N = false) as -> by (apply N.leb_gt; lia).
  rewrite !andb_false_r.
  assert ((0xF0 <=? 0xF0 + x)%N = true) as -> by (apply N.leb_le; lia).
  assert ((0xF0 + x <=? 0xF4)%N = true) as -> by (apply N.leb_le; lia).
  cbn [andb]. rewrite (land_ones_small 0xF0 x 3 0x7) by first [reflexivity | cbn; lia].
  assert ((0xF0 + x =? 0xF0)%N = (x =? 0)%N) as ->
    by (destruct (N.eqb_spec x 0); [apply N.eqb_eq|apply N.eqb_neq]; lia).
  assert ((0xF0 + x =? 0xF4)%N = (x =? 4)%N) as ->
    by (destruct (N.eqb_spec x 4); [apply N.eqb_eq|apply N.eqb_neq]; lia).
  done.
Qed.

(** A continuation byte inside the accepted range. *)
Lemma dec_step_continuation (cp : N) (n : nat) (lower upper y : N) :
  (y < 64)%N → (lower ≤ 0x80 + y)%N → (0x80 + y ≤ upper)%N →
  dec_step {| dec_cp := cp; dec_needed := S n; dec_lower := lower;
              dec_upper := upper |} (0x80 + y)
  = match n with
    | O => (dec_init, code_units_of (cp * 64 + y))
    | S _ => ({| dec_cp := cp * 64 + y; dec_needed := n;
                 dec_lower := 0x80; dec_upper := 0xBF |}, [])
    end.
Proof.
  intros Hy Hl Hu. unfold dec_step. cbn [dec_needed dec_lower dec_upper dec_cp].
  assert ((lower <=? 0x80 + y)%N = true) as -> by by apply N.leb_le.
  assert ((0x80 + y <=? upper)%N = true) as -> by by apply N.leb_le.
  cbn [andb]. by rewrite (land_ones_small 0x80 y 6 0x3F) by first [reflexivity | cbn; lia].
Qed.

Lemma utf8_decode_cons (d : decoder) (b : N) (bs : bytes) :
  utf8_decode d (b :: bs)
  = (dec_step d b).2 ++ utf8_decode (dec_step d b).1 bs.
Proof. cbn [utf8_decode]. by destruct (dec_step d b). Qed.

Lemma dec_step_init (b : N) : dec_step dec_init b = dec_lead b.
Proof. reflexivity. Qed.

(** The bytes written for one scalar value decode to its code units. *)
Lemma utf8_decode_code_point (cp : N) (rest : bytes) :
  (cp < 0x110000)%N → ¬ (0xD800 ≤ cp ≤ 0xDFFF)%N →
  utf8_decode dec_init (utf8_of_code_point cp ++ rest)
  = code_units_of cp ++ utf8_decode dec_init rest.
Proof.
  intros Hmax Hsur. unfold utf8_of_code_point.
  destruct (N.ltb_spec cp 0x80) as [H1|H1];
    [|destruct (N.ltb_spec cp 0x800) as [H2|H2];
      [|destruct (N.ltb_spec cp 0x10000) as [H3|H3]]].
  - cbn [app]. rewrite utf8_decode_cons, dec_step_init. unfold dec_lead.
    assert ((cp <=? 0x7F)%N = true) as -> by (apply N.leb_le; lia).
    cbn [fst snd]. unfold code_units_of.
    by assert ((cp <? 0x10000)%N = true) as -> by (apply N.ltb_lt; lia).
  - cbn [app].
    rewrite utf8_decode_cons, dec_step_init, dec_lead_two by euclid.
    cbn [fst snd app].
    rewrite utf8_decode_cons, dec_step_continuation by euclid.
    cbn [fst snd]. do 2 f_equal. euclid.
  - cbn [app].
    rewrite utf8_decode_cons, dec_step_init, dec_lead_three by euclid.
    cbn [fst snd app].
    rewrite utf8_decode_cons, dec_step_continuation
      by (try destruct (N.eqb_spec (cp / 4096) 0);
          try destruct (N.eqb_spec (cp / 4096) 13); euclid).
    cbn [fst snd app].
    rewrite utf8_decode_cons, dec_step_continuation by euclid.
    cbn [fst snd]. do 2 f_equal. euclid.
  - cbn [app].
    rewrite utf8_decode_cons, dec_step_init, dec_lead_four by euclid.
    cbn [fst snd app].
    rewrite utf8_decode_cons, dec_step_continuation
      by (try destruct (N.eqb_spec (cp / 262144) 0);
          try destruct (N.eqb_spec (cp / 262144) 4); euclid).
    cbn [fst snd app].
    rewrite utf8_decode_cons, dec_step_continuation by euclid.
    cbn [fst snd app].
    rewrite utf8_decode_cons, dec_step_continuation by euclid.
    cbn [fst snd]. do 2 f_equal. euclid.
Qed.

Lemma surrogate_bounds (c : N) :
  (is_high_surrogate c = true ↔ (0xD800 ≤ c ≤ 0xDBFF)%N)
  ∧ (is_low_surrogate c = true ↔ (0xDC00 ≤ c ≤ 0xDFFF)%N).
Proof.
  unfold is_high_surrogate, is_low_surrogate.
  rewrite !andb_true_iff, !N.leb_le. tauto.
Qed.

Lemma not_surrogate (c : N) :
  is_high_surrogate c = false → is_low_surrogate c = false →
  ¬ (0xD800 ≤ c ≤ 0xDFFF)%N.
Proof.
  intros Hh Hl Hc. destruct (surrogate_bounds c) as [[_ H1] [_ H2]].
  destruct (decide (c ≤ 0xDBFF)%N).
  - rewrite H1 in Hh by lia. done.
  - rewrite H2 in Hl by lia. done.
Qed.

Lemma utf8_encode_plain (c : N) (s : jsstring) :
  is_high_surrogate c = false → is_low_surrogate c = false →
  utf8_encode (c :: s) = utf8_of_code_point c ++ utf8_encode s.
Proof. intros Hh Hl. cbn [utf8_encode]. by rewrite Hh, Hl. Qed.

Lemma utf8_encode_pair (c d : N) (s : jsstring) :
  is_high_surrogate c = true → is_low_surrogate d = true →
  utf8_encode (c :: d :: s)
  = utf8_of_code_point (0x10000 + (c - 0xD800) * 0x400 + (d - 0xDC00))%N
    ++ utf8_encode s.
Proof. intros Hh Hl. cbn [utf8_encode]. by rewrite Hh, Hl. Qed.

(** Decoding what was written for a well-formed string gives it back. *)
Lemma toString_utf8_encode (s : jsstring) :
  well_formed s = true → toString (utf8_encode s) = s.
Proof.
  unfold toString. revert s. apply well_formed_induction.
  - done.
  - intros c s Hh Hl Hc _ IH.
    rewrite utf8_encode_plain, utf8_decode_code_point, IH
      by (done || lia || by apply not_surrogate).
    unfold code_units_of.
    by assert ((c <? 0x10000)%N = true) as -> by (apply N.ltb_lt; lia).
  - intros c d s Hh Hl _ IH.
    apply surrogate_bounds in Hh. apply surrogate_bounds in Hl.
    rewrite utf8_encode_pair by by apply surrogate_bounds.
    rewrite utf8_decode_code_point, IH by lia.
    unfold code_units_of.
    assert ((0x10000 + (c - 0xD800) * 0x400 + (d - 0xDC00) <? 0x10000)%N = false)
      as -> by (apply N.ltb_ge; lia).
    cbn [app]. f_equal; [|f_equal]; euclid.
Qed.

Lemma utf8_encode_app (s t : jsstring) :
  well_formed s = true → utf8_encode (s ++ t) = utf8_encode s ++ utf8_encode t.
Proof.
  revert s. apply well_formed_induction.
  - done.
  - intros c s Hh Hl _ _ IH. cbn [app].
    by rewrite !utf8_encode_plain, IH, app_assoc by done.
  - intros c d s Hh Hl _ IH. cbn [app].
    by rewrite !utf8_encode_pair, IH, app_assoc by done.
Qed.

Lemma well_formed_app (s t : jsstring) :
  well_formed s = true → well_formed t = true → well_formed (s ++ t) = true.
Proof.
  intros Hs Ht. revert s Hs. apply well_formed_induction.
  - done.
  - intros c s Hh Hl Hc _ IH. cbn [app well_formed]. rewrite Hh, Hl, IH.
    by assert ((c <? 0x10000)%N = true) as -> by by apply N.ltb_lt.
  - intros c d s Hh Hl _ IH. cbn [app well_formed]. by rewrite Hh, Hl, IH.
Qed.

Lemma well_formed_ascii (s : jsstring) : ascii_only s → well_formed s = true.
Proof.
  induction 1 as [|c s Hc _ IH]; [done|]. cbn [well_formed].
  assert (is_high_surrogate c = false) as ->.
  { unfold is_high_surrogate. apply andb_false_iff. left. apply N.leb_gt. lia. }
  assert (is_low_surrogate c = false) as ->.
  { unfold is_low_surrogate. apply andb_false_iff. left. apply N.leb_gt. lia. }
  assert ((c <? 0x10000)%N = true) as -> by (apply N.ltb_lt; lia).
  by rewrite IH.
Qed.

Lemma well_formed_frame (m : jsstring) :
  well_formed m = true → well_formed (frame m) = true.
Proof.
  intros Hm. rewrite frame_header.
  apply well_formed_app; [apply well_formed_ascii, header_ascii|].
  by apply well_formed_app.
Qed.

Lemma utf8_encode_concat (ss : list jsstring) :
  Forall (fun s => well_formed s = true) ss →
  well_formed (concat ss) = true
  ∧ utf8_encode (concat ss) = concat (utf8_encode <$> ss).
Proof.
  induction 1 as [|s ss Hs _ [IH1 IH2]]; [done|]. cbn [concat fmap list_fmap].
  split; [by apply well_formed_app|]. by rewrite utf8_encode_app, IH2.
Qed.

(** Feeding chunks that hold whole characters, and whose text continues the
    buffer into a run of frames, delivers exactly those frames' contents. *)
Lemma feed_pieces (pieces : list jsstring) (p : jsstring) (todo : list jsstring) :
  Forall (fun s => well_formed s = true) pieces → incomplete p todo →
  p ++ concat pieces = frames todo →
  feed p (utf8_encode <$> pieces) = (todo, []).
Proof.
  intros Hwf. revert p todo.
  induction Hwf as [|c pieces Hc _ IH]; intros p todo Hp Hall.
  - cbn in *. rewrite app_nil_r in Hall. destruct todo as [|m todo].
    + by rewrite Hp.
    + destruct Hp as (k & Hk & Hpk). exfalso.
      assert (length p = length (frames (m :: todo))) as Hlen by by rewrite Hall.
      rewrite Hpk, length_take, frames_cons, length_app in Hlen. lia.
  - cbn [feed concat fmap list_fmap] in *. unfold handleData. cbv zeta.
    rewrite toString_utf8_encode by done.
    rewrite app_assoc in Hall.
    destruct (prefix_of_frames _ _ _ Hall) as (d & t & p' & -> & Hb & Hp').
    rewrite Hb, (extract_frames d p' t) by
      (done || (pose proof (frames_length_ge d); rewrite length_app; lia)).
    rewrite Hb, frames_app, <- app_assoc in Hall.
    apply app_inv_head in Hall.
    by rewrite (IH p' t Hp' Hall).
Qed.

(** Frames written for requests of any well-formed text and delivered in
    chunks that end between characters are handed over as exactly the
    requests written, once each and in order, and the buffer ends empty. *)
Theorem deframe_split_between_characters (bodies pieces : list jsstring) :
  Forall (fun m => well_formed m = true) bodies →
  Forall (fun s => well_formed s = true) pieces →
  concat (utf8_encode <$> pieces) = concat (List.map write bodies) →
  feed [] (utf8_encode <$> pieces) = (bodies, []).
Proof.
  intros Hbodies Hpieces Hsplit.
  destruct (utf8_encode_concat pieces Hpieces) as [Hwp Hep].
  destruct (utf8_encode_concat (frame <$> bodies)) as [Hwf Hef].
  { apply Forall_fmap. eapply Forall_impl; [exact Hbodies|].
    apply well_formed_frame. }
  assert (concat pieces = frames bodies) as Htext.
  { rewrite <- (toString_utf8_encode _ Hwp).
    unfold frames. change (List.map frame bodies) with (frame <$> bodies).
    rewrite <- (toString_utf8_encode _ Hwf). f_equal.
    rewrite Hep, Hef, Hsplit. f_equal.
    clear. induction bodies as [|m ms IH]; [reflexivity|].
    cbn [fmap list_fmap List.map]. unfold write at 1. f_equal. exact IH. }
  apply feed_pieces; [done| |done].
  destruct bodies as [|m ms]; [done|]. exists 0. rewrite frame_length.
  split; [lia|done].
Qed.

Lemma deframe_split_between_characters_witness :
  feed [] (utf8_encode <$> evaluate_pieces) = ([evaluate_request], []).
Proof.
  apply deframe_split_between_characters.
  - repeat constructor.
  - repeat constructor.
  - vm_compute. reflexivity.
Defined.

End TransportProps.

(** ** Correlator *)

Module CorrelatorProps.
Import Transport Correlator.

Section WithJson.
Context {Json : Type}.

Implicit Types (c : DAPClient) (m : DAPMessage Json).

Lemma message_or_default_present (text : string) :
  text ≠ EmptyString → message_or_default (Some text) = text.
Proof.
  intros Hne. unfold message_or_default.
  destruct (String.eqb_spec text EmptyString); [done | reflexivity].
Qed.

Lemma handleMessage_response c (seq q : Z) (success : bool) (command : string)
    (msg : option string) (body : option Json) (p : promise) :
  pendingRequests c !! q = Some p →
  handleMessage c (MResponse seq q success command msg body)
  = (delete_pending q c,
     [if success then Resolve p body else Reject p (message_or_default msg)]).
Proof. intros Hp. cbn. by rewrite Hp. Qed.

Lemma handleMessage_delivered_by c m : (handleMessage c m).2 = delivered_by c m.
Proof.
  destruct m as [| seq q success command msg body |]; cbn; try done.
  by destruct (pendingRequests c !! q).
Qed.

Lemma handleMessage_pending c m (q : Z) :
  answers_pending c m →
  pendingRequests (handleMessage c m).1 !! q
  = if bool_decide (request_seq_of m = Some q) then None else pendingRequests c !! q.
Proof.
  destruct m as [| seq r success command msg body |]; cbn; try done.
  intros [p Hp]. rewrite Hp. cbn. case_bool_decide as Hq.
  - injection Hq as ->. apply lookup_delete_eq.
  - apply lookup_delete_ne. congruence.
Qed.

Lemma flat_map_ext_elem_of {A B : Type} (f g : A → list B) (l : list A) :
  (∀ x, x ∈ l → f x = g x) → flat_map f l = flat_map g l.
Proof.
  induction l as [|x l IH]; intros Hfg; [done|]. cbn.
  rewrite Hfg by set_solver. f_equal. apply IH. intros y Hy. apply Hfg. set_solver.
Qed.

Lemma handleMessages_cons_effects c m (ms : list (DAPMessage Json)) :
  (handleMessages c (m :: ms)).2
  = (handleMessage c m).2 ++ (handleMessages (handleMessage c m).1 ms).2.
Proof.
  cbn [handleMessages]. destruct (handleMessage c m) as [c1 e1].
  cbn [fst snd]. by destruct (handleMessages c1 ms).
Qed.

Lemma handleMessages_cons_client c m (ms : list (DAPMessage Json)) :
  (handleMessages c (m :: ms)).1 = (handleMessages (handleMessage c m).1 ms).1.
Proof.
  cbn [handleMessages]. destruct (handleMessage c m) as [c1 e1].
  cbn [fst snd]. by destruct (handleMessages c1 ms).
Qed.

(** What a message of the batch finds in the table does not depend on the
    messages handled before it, when no two responses answer one request. *)
Lemma delivered_by_after c m (r : DAPMessage Json) :
  answers_pending c m →
  (∀ q, request_seq_of m = Some q → request_seq_of r ≠ Some q) →
  delivered_by (handleMessage c m).1 r = delivered_by c r
  ∧ (answers_pending c r → answers_pending (handleMessage c m).1 r).
Proof.
  intros Hm Hdiff.
  destruct r as [| seq q success command msg body |]; cbn; try done.
  unfold answers_pending. cbn.
  rewrite (handleMessage_pending c m q Hm).
  rewrite bool_decide_eq_false_2; [done|].
  intros Heq. by eapply Hdiff.
Qed.

(** Responses to distinct pending requests, in whatever order they arrive
    and with events in between: each settles its own request, as the table
    before the batch says, and exactly the answered entries are gone
    afterwards. *)
Lemma handleMessages_any_order c (ms : list (DAPMessage Json)) :
  Forall (answers_pending c) ms →
  NoDup (omap request_seq_of ms) →
  (handleMessages c ms).2 = flat_map (delivered_by c) ms
  ∧ ∀ q, pendingRequests (handleMessages c ms).1 !! q
         = if bool_decide (q ∈ omap request_seq_of ms) then None
           else pendingRequests c !! q.
Proof.
  revert c. induction ms as [|m ms IH]; intros c Hall Hnd.
  - cbn. split; [done|]. intros q. by rewrite bool_decide_eq_false_2 by set_solver.
  - apply Forall_cons in Hall as [Hm Hms].
    assert (∀ r, r ∈ ms → ∀ q, request_seq_of m = Some q → request_seq_of r ≠ Some q)
      as Hdiff.
    { intros r Hr q Hq Hq'. cbn [omap list_omap] in Hnd. rewrite Hq in Hnd.
      apply NoDup_cons in Hnd as [Hfresh _]. apply Hfresh.
      apply list_elem_of_omap. by exists r. }
    assert (NoDup (omap request_seq_of ms)) as Hnd'.
    { cbn [omap list_omap] in Hnd.
      destruct (request_seq_of m); [by apply NoDup_cons in Hnd as [_ ?]|done]. }
    assert (Forall (answers_pending (handleMessage c m).1) ms) as Hms'.
    { apply Forall_forall. intros r Hr. rewrite Forall_forall in Hms.
      apply (delivered_by_after c m r Hm (Hdiff r Hr)). by apply Hms. }
    destruct (IH _ Hms' Hnd') as [IHe IHp].
    rewrite handleMessages_cons_effects, handleMessages_cons_client.
    cbn [flat_map]. split.
    + f_equal; [apply handleMessage_delivered_by|].
      rewrite IHe. apply flat_map_ext_elem_of. intros r Hr.
      apply (delivered_by_after c m r Hm (Hdiff r Hr)).
    + intros q. rewrite IHp, (handleMessage_pending c m q Hm).
      cbn [omap list_omap].
      destruct (request_seq_of m) as [qm|]; repeat case_bool_decide; set_solver.
Qed.

(** C6 (as amended).  A response whose [request_seq] matches a pending
    request removes the entry and settles its promise: resolved with
    [response.body] when [success] is true, otherwise rejected with an error
    whose text is [response.message], or ['Request failed'] when that is
    absent or empty.  For a batch of responses to distinct pending requests
    this holds in whatever order they arrive, events in between or not:
    each response settles the promise of its own request. *)
Theorem response_settles_pending c (rs : list (DAPMessage Json)) :
  Forall (answers_pending c) rs →
  NoDup (omap request_seq_of rs) →
  (∀ (seq q : Z) (success : bool) (command : string) (msg : option string)
     (body : option Json) (p : promise),
     pendingRequests c !! q = Some p →
     handleMessage c (MResponse seq q success command msg body)
     = (delete_pending q c,
        [if success then Resolve p body
         else Reject p (match msg with
                        | Some text => if String.eqb text EmptyString then "Request failed"
                                       else text
                        | None => "Request failed"
                        end)]))
  ∧ (handleMessages c rs).2 = flat_map (delivered_by c) rs
  ∧ (∀ q, pendingRequests (handleMessages c rs).1 !! q
          = if bool_decide (q ∈ omap request_seq_of rs) then None
            else pendingRequests c !! q).
Proof.
  intros Hall Hnd. split.
  - intros. by apply handleMessage_response.
  - by apply handleMessages_any_order.
Qed.

End WithJson.

Section TypedOperations.
Context {Json : Type}.
Variable arguments_of : Operation → option Json.
Variable JSON_stringify : Z → string → option Json → jsstring.

Implicit Types (c : DAPClient).


Lemma sendRequest_connected c (sock : Socket) (command : string)
    (args : option Json) :
  connected c = true → socket c = Some sock →
  let seq := sequenceNumber c in
  let '(c', effects, outcome) := sendRequest Json JSON_stringify c command args in
  sequenceNumber c' = seq + 1
  ∧ pendingRequests c' = <[seq := seq]> (pendingRequests c)
  ∧ effects = [SocketWrite (frame (JSON_stringify seq command args));
               SetTimeout 10000 (RequestTimeout seq command)]
  ∧ outcome = Awaiting seq.
Proof.
  intros Hc Hs. unfold sendRequest. rewrite Hc, Hs. done.
Qed.

Lemma sendRequest_not_connected c (command : string) (args : option Json) :
  not_connected c →
  sendRequest Json JSON_stringify c command args
  = (c, [], Threw "DAP client not connected").
Proof.
  intros [H|H]; unfold sendRequest; rewrite H; [done|].
  by rewrite orb_true_r.
Qed.

(** C10 (as amended).  On a client that is not connected every typed
    operation leaves the sequence number and the table of pending requests
    as they are, writes nothing and starts no timer.  All operations but
    [disconnect] fail at once with 'DAP client not connected' and change
    nothing at all; [disconnect] catches that error, drops the socket and
    completes normally. *)
Theorem not_connected_operation c (op : Operation) :
  not_connected c →
  let '(c', effects, outcome) := invoke Json arguments_of JSON_stringify c op in
  sequenceNumber c' = sequenceNumber c
  ∧ pendingRequests c' = pendingRequests c
  ∧ Forall (fun e => match e with
                     | SocketWrite _ | SetTimeout _ _ => False
                     | _ => True
                     end) effects
  ∧ (op ≠ OpDisconnect →
     outcome = Threw "DAP client not connected" ∧ c' = c ∧ effects = [])
  ∧ (op = OpDisconnect →
     outcome = Completed ∧ socket c' = None ∧ connected c' = false).
Proof.
  intros Hc.
  destruct op; cbn [invoke]; rewrite sendRequest_not_connected by done;
    try (split_and!; [done|done|constructor|done|done]).
  cbn. split_and!; [done|done| |done|done].
  destruct (socket c); repeat constructor.
Qed.

End TypedOperations.

(** *** Runs of a client *)

Section Runs.
Context {Json : Type}.
Variable JSON_stringify : Z → string → option Json → jsstring.

Implicit Types (c : DAPClient) (st : ClientStep Json) (steps : list (ClientStep Json)).

Abbreviation exec := (client_exec Json JSON_stringify).
Abbreviation run := (client_run Json JSON_stringify).

Lemma client_run_cons c st steps :
  run c (st :: steps)
  = ((run (exec c st).1 steps).1, (exec c st).2 ++ (run (exec c st).1 steps).2).
Proof.
  cbn [client_run]. destruct (client_exec _ _ c st) as [c1 e1]. cbn [fst snd].
  by destruct (client_run _ _ c1 steps).
Qed.

Lemma settled_app (e1 e2 : list (Effect Json)) :
  settled (e1 ++ e2) = settled e1 ++ settled e2.
Proof. apply omap_app. Qed.

Lemma issued_app (e1 e2 : list (Effect Json)) :
  issued (e1 ++ e2) = issued e1 ++ issued e2.
Proof. apply omap_app. Qed.

Lemma sendRequest_cases c (command : string) (args : option Json) :
  sendRequest Json JSON_stringify c command args
  = (c, [], Threw "DAP client not connected")
  ∨ sendRequest Json JSON_stringify c command args
    = ({| socket := socket c; connected := connected c;
          sequenceNumber := sequenceNumber c + 1;
          pendingRequests := <[sequenceNumber c := sequenceNumber c]> (pendingRequests c);
          messageBuffer := messageBuffer c |},
       [SocketWrite (frame (JSON_stringify (sequenceNumber c) command args));
        SetTimeout 10000 (RequestTimeout (sequenceNumber c) command)],
       Awaiting (sequenceNumber c)).
Proof.
  unfold sendRequest.
  destruct (negb (connected c) || negb (bool_decide (is_Some (socket c))));
    [by left | by right].
Qed.

Lemma settle_entry_inv c (done : list promise) (q p : Z) :
  client_inv c done → pendingRequests c !! q = Some p →
  client_inv (delete_pending q c) (done ++ [p]).
Proof.
  intros Hinv Hq. destruct (inv_pending _ _ Hinv _ _ Hq) as [-> Hrange].
  split; cbn.
  - intros q' p' [_ Hq']%lookup_delete_Some. by eapply inv_pending.
  - intros p' [Hp'|Hp']%elem_of_app.
    + destruct (inv_settled _ _ Hinv _ Hp') as [? Hnone]. split; [done|].
      apply lookup_delete_None. by right.
    + apply list_elem_of_singleton in Hp'. subst p'.
      split; [lia|]. apply lookup_delete_eq.
  - apply NoDup_app. split_and!; [by eapply inv_nodup| |apply NoDup_singleton].
    intros p' Hp' Hq'. apply list_elem_of_singleton in Hq'. subst p'.
    destruct (inv_settled _ _ Hinv _ Hp') as [_ Hnone].
    discriminate (eq_trans (eq_sym Hq) Hnone).
  - by eapply inv_positive.
Qed.

Lemma client_inv_same c c' (done : list promise) :
  sequenceNumber c' = sequenceNumber c →
  pendingRequests c' = pendingRequests c →
  client_inv c done → client_inv c' (done ++ []).
Proof.
  intros Hs Hp [H1 H2 H3 H4]. rewrite app_nil_r.
  split; rewrite ?Hs, ?Hp; done.
Qed.

Lemma client_exec_inv c (done : list promise) st :
  client_inv c done →
  client_inv (exec c st).1 (done ++ settled (exec c st).2).
Proof.
  intros Hinv. destruct st as [sock| |command args|m|seq command| |]; cbn [client_exec].
  - by apply (client_inv_same c).
  - by apply (client_inv_same c).
  - destruct (sendRequest_cases c command args) as [-> | ->]; cbn [fst snd].
    + by apply (client_inv_same c).
    + cbn [settled omap list_omap]. rewrite app_nil_r.
      pose proof (inv_positive _ _ Hinv) as Hpos. split; cbn.
      * intros q p [[<- <-]|[_ Hq]]%lookup_insert_Some; [split; [done|lia]|].
        destruct (inv_pending _ _ Hinv _ _ Hq). split; [done|lia].
      * intros p Hp. destruct (inv_settled _ _ Hinv _ Hp) as [Hlt Hnone].
        split; [lia|]. rewrite lookup_insert_ne by lia. done.
      * by eapply inv_nodup.
      * lia.
  - destruct m as [| seq q success command msg body |]; cbn [handleMessage].
    + by apply (client_inv_same c).
    + destruct (pendingRequests c !! q) as [p|] eqn:Hq; cbn [fst snd].
      * destruct success; cbn; by apply settle_entry_inv.
      * by apply (client_inv_same c).
    + by apply (client_inv_same c).
  - unfold requestTimeout.
    destruct (pendingRequests c !! seq) as [p|] eqn:Hq; cbn [fst snd].
    + cbn. by apply settle_entry_inv.
    + by apply (client_inv_same c).
  - unfold close. cbn [fst snd].
    assert (settled (match socket c with
                     | Some _ => [SocketEnd (Json := Json)]
                     | None => []
                     end) = []) as -> by by destruct (socket c).
    by apply (client_inv_same c).
  - by apply (client_inv_same c).
Qed.

Lemma client_run_inv steps c (done : list promise) :
  client_inv c done →
  client_inv (run c steps).1 (done ++ settled (run c steps).2).
Proof.
  revert c done. induction steps as [|st steps IH]; intros c done Hinv.
  - cbn. by rewrite app_nil_r.
  - rewrite client_run_cons. cbn [fst snd].
    rewrite settled_app, app_assoc. by apply IH, client_exec_inv.
Qed.

Lemma new_client_inv : client_inv new_client [].
Proof.
  split; cbn; try done.
  - intros p Hp. by apply elem_of_nil in Hp.
  - constructor.
Qed.

(** Whatever a client goes through from its creation on (requests sent,
    responses, events, timers, closes and reconnects in any order, responses
    repeated or made up), no promise is settled twice, and a promise that
    was settled belongs to no pending entry. *)
Theorem settled_at_most_once steps :
  NoDup (settled (run new_client steps).2)
  ∧ ∀ p, p ∈ settled (run new_client steps).2 →
         pendingRequests (run new_client steps).1 !! p = None.
Proof.
  pose proof (client_run_inv steps new_client [] new_client_inv) as Hinv.
  rewrite app_nil_l in Hinv. split; [by eapply inv_nodup|].
  intros p Hp. by destruct (inv_settled _ _ Hinv _ Hp).
Qed.

(** Requests are numbered in the order they are written, from the client's
    sequence number on and without gaps; a call that fails for want of a
    connection takes no number. *)
Lemma client_run_issued steps c :
  issued (run c steps).2
  = seqZ (sequenceNumber c) (Z.of_nat (length (issued (run c steps).2)))
  ∧ sequenceNumber (run c steps).1
    = sequenceNumber c + Z.of_nat (length (issued (run c steps).2)).
Proof.
  revert c. induction steps as [|st steps IH]; intros c.
  - cbn. split; [done|lia].
  - rewrite client_run_cons. cbn [fst snd]. rewrite issued_app, length_app.
    destruct (IH (exec c st).1) as [IHi IHs].
    assert ((issued (exec c st).2 = [] ∧ sequenceNumber (exec c st).1 = sequenceNumber c)
            ∨ (issued (exec c st).2 = [sequenceNumber c]
               ∧ sequenceNumber (exec c st).1 = sequenceNumber c + 1)) as Hst.
    { destruct st as [sock| |command args|m|seq command| |]; cbn [client_exec].
      - by left.
      - by left.
      - destruct (sendRequest_cases c command args) as [-> | ->]; [by left|by right].
      - left. destruct m as [| seq q success command msg body |]; cbn; try done.
        destruct (pendingRequests c !! q); [by destruct success|done].
      - left. unfold requestTimeout. by destruct (pendingRequests c !! seq).
      - left. unfold close. cbn. by destruct (socket c).
      - by left. }
    destruct Hst as [[Hi Hs]|[Hi Hs]]; rewrite Hi; rewrite Hs in IHi, IHs;
      cbn [app length].
    + split; [exact IHi | lia].
    + split; [|lia].
      rewrite Nat2Z.inj_succ, seqZ_cons by lia. f_equal.
      rewrite Z.pred_succ. exact IHi.
Qed.

Theorem requests_numbered_in_order steps :
  issued (run new_client steps).2
  = seqZ 1 (Z.of_nat (length (issued (run new_client steps).2)))
  ∧ sequenceNumber (run new_client steps).1
    = 1 + Z.of_nat (length (issued (run new_client steps).2))
  ∧ ∀ q, sequenceNumber (run new_client steps).1 ≤ q →
         pendingRequests (run new_client steps).1 !! q = None.
Proof.
  destruct (client_run_issued steps new_client) as [Hi Hs]. split_and!; [done..|].
  intros q Hq.
  pose proof (client_run_inv steps new_client [] new_client_inv) as Hinv.
  destruct (pendingRequests (run new_client steps).1 !! q) as [p|] eqn:Hp; [|done].
  destruct (inv_pending _ _ Hinv _ _ Hp). lia.
Qed.

(** A client without a socket stays silent until [connect()] is called:
    whatever else happens, nothing is written, no request is numbered and no
    pending entry is added. *)
Theorem no_socket_no_write steps c :
  socket c = None →
  Forall (fun st => is_connect st = false) steps →
  socket (run c steps).1 = None
  ∧ Forall (fun e => is_write e = false) (run c steps).2
  ∧ sequenceNumber (run c steps).1 = sequenceNumber c
  ∧ pendingRequests (run c steps).1 ⊆ pendingRequests c.
Proof.
  revert c. induction steps as [|st steps IH]; intros c Hsock Hsteps.
  - cbn. split_and!; [done|constructor|done|done].
  - apply Forall_cons in Hsteps as [Hst Hsteps].
    rewrite client_run_cons. cbn [fst snd].
    assert (socket (exec c st).1 = None
            ∧ Forall (fun e => is_write e = false) (exec c st).2
            ∧ sequenceNumber (exec c st).1 = sequenceNumber c
            ∧ pendingRequests (exec c st).1 ⊆ pendingRequests c) as (H1 & H2 & H3 & H4).
    { destruct st as [sock| |command args|m|seq command| |]; cbn [client_exec];
        try discriminate Hst.
      - by split_and!.
      - unfold sendRequest. rewrite Hsock. cbn. rewrite orb_true_r.
        by split_and!.
      - destruct m as [| seq q success command msg body |]; cbn; try by split_and!.
        + destruct (pendingRequests c !! q); cbn; [|by split_and!].
          split_and!; [done|by destruct success; repeat constructor|done|].
          apply delete_subseteq.
        + split_and!; [done|repeat constructor|done|done].
      - unfold requestTimeout. destruct (pendingRequests c !! seq); cbn;
          [|by split_and!].
        split_and!; [done|repeat constructor|done|apply delete_subseteq].
      - unfold close. cbn. rewrite Hsock. by split_and!.
      - cbn. split_and!; [done|repeat constructor|done|done]. }
    destruct (IH _ H1 Hsteps) as (I1 & I2 & I3 & I4).
    split_and!; [done|by apply Forall_app|congruence|by etrans].
Qed.

(** What one step does to the table of pending requests: nothing, one
    entry added for a request written, or one entry removed and its promise
    settled. *)
Lemma client_exec_shape c st :
  (pendingRequests (exec c st).1 = pendingRequests c
   ∧ settled (exec c st).2 = [] ∧ issued (exec c st).2 = [])
  ∨ (pendingRequests (exec c st).1
     = <[sequenceNumber c := sequenceNumber c]> (pendingRequests c)
     ∧ settled (exec c st).2 = [] ∧ issued (exec c st).2 = [sequenceNumber c])
  ∨ (∃ q p, pendingRequests c !! q = Some p
            ∧ pendingRequests (exec c st).1 = delete q (pendingRequests c)
            ∧ settled (exec c st).2 = [p] ∧ issued (exec c st).2 = []).
Proof.
  destruct st as [sock| |command args|m|seq command| |]; cbn [client_exec].
  - by left.
  - by left.
  - destruct (sendRequest_cases c command args) as [-> | ->];
      [by left | right; by left].
  - destruct m as [| seq q success command msg body |]; cbn [handleMessage];
      [by left| |by left].
    destruct (pendingRequests c !! q) as [p|] eqn:Hq; [|by left].
    right; right. exists q, p. by destruct success.
  - unfold requestTimeout.
    destruct (pendingRequests c !! seq) as [p|] eqn:Hq; [|by left].
    right; right. by exists seq, p.
  - left. unfold close. cbn. by destruct (socket c).
  - by left.
Qed.

Lemma client_exec_account c (done : list promise) (iss : list Z) st :
  client_inv c done →
  (∀ q, q ∈ iss ↔ q ∈ done ∨ is_Some (pendingRequests c !! q)) →
  ∀ q, q ∈ iss ++ issued (exec c st).2
       ↔ q ∈ done ++ settled (exec c st).2
         ∨ is_Some (pendingRequests (exec c st).1 !! q).
Proof.
  intros Hinv Hacc q.
  destruct (client_exec_shape c st)
    as [(-> & -> & ->)|[(-> & -> & ->)|(q0 & p & Hq0 & -> & -> & ->)]].
  - by rewrite !app_nil_r.
  - rewrite app_nil_r, elem_of_app, list_elem_of_singleton, lookup_insert_is_Some.
    rewrite Hacc. destruct (decide (sequenceNumber c = q)); naive_solver.
  - destruct (inv_pending _ _ Hinv _ _ Hq0) as [-> _].
    rewrite app_nil_r, elem_of_app, list_elem_of_singleton, lookup_delete_is_Some.
    rewrite Hacc. destruct (decide (q0 = q)) as [->|]; [|naive_solver].
    split; [naive_solver|]. intros _. right. by exists q.
Qed.

Lemma client_run_account steps c (done : list promise) (iss : list Z) :
  client_inv c done →
  (∀ q, q ∈ iss ↔ q ∈ done ∨ is_Some (pendingRequests c !! q)) →
  ∀ q, q ∈ iss ++ issued (run c steps).2
       ↔ q ∈ done ++ settled (run c steps).2
         ∨ is_Some (pendingRequests (run c steps).1 !! q).
Proof.
  revert c done iss. induction steps as [|st steps IH]; intros c done iss Hinv Hacc q.
  - cbn. by rewrite !app_nil_r.
  - rewrite client_run_cons. cbn [fst snd].
    rewrite issued_app, settled_app, !app_assoc.
    apply IH; [by apply client_exec_inv | by apply client_exec_account].
Qed.

(** No request is lost and none is made up: at any moment of a client's
    life the requests it has written are exactly those that have been
    settled and those still pending. *)
Theorem no_request_lost steps (q : Z) :
  q ∈ issued (run new_client steps).2
  ↔ q ∈ settled (run new_client steps).2
    ∨ is_Some (pendingRequests (run new_client steps).1 !! q).
Proof.
  apply (client_run_account steps new_client [] [] new_client_inv).
  intros q'. cbn. rewrite lookup_empty. split.
  - intros Hin. by apply elem_of_nil in Hin.
  - intros [Hin|[? ?]]; [by apply elem_of_nil in Hin|done].
Qed.

(** *** Requests pending when the socket closes *)

Lemma client_run_app steps steps' c :
  run c (steps ++ steps')
  = ((run (run c steps).1 steps').1, (run c steps).2 ++ (run (run c steps).1 steps').2).
Proof.
  revert c. induction steps as [|st steps IH]; intros c.
  - cbn [app client_run fst snd]. by destruct (client_run _ _ c steps').
  - cbn [app]. rewrite !client_run_cons, IH. cbn [fst snd]. by rewrite app_assoc.
Qed.

Lemma pending_kept_exec c st (seq : Z) (p : promise) :
  leaves_alone seq st →
  pendingRequests c !! seq = Some p → seq < sequenceNumber c →
  pendingRequests (exec c st).1 !! seq = Some p
  ∧ seq < sequenceNumber (exec c st).1.
Proof.
  intros Hst Hp Hlt.
  destruct st as [sock| |command args|m|q command| |]; cbn [client_exec]; try done.
  - destruct (sendRequest_cases c command args) as [-> | ->]; [done|].
    cbn. split; [|lia]. by rewrite lookup_insert_ne by lia.
  - destruct m as [| rseq q success command msg body |]; cbn [handleMessage];
      try done.
    cbn in Hst. destruct (pendingRequests c !! q); [|done].
    cbn. split; [|done]. by rewrite lookup_delete_ne.
  - cbn in Hst. unfold requestTimeout. destruct (pendingRequests c !! q); [|done].
    cbn. split; [|done]. by rewrite lookup_delete_ne.
Qed.

Lemma pending_kept steps c (seq : Z) (p : promise) :
  Forall (leaves_alone seq) steps →
  pendingRequests c !! seq = Some p → seq < sequenceNumber c →
  pendingRequests (run c steps).1 !! seq = Some p
  ∧ seq < sequenceNumber (run c steps).1.
Proof.
  intros Hsteps. revert c. induction Hsteps as [|st steps Hst _ IH]; intros c Hp Hlt;
    [done|].
  rewrite client_run_cons. cbn [fst].
  destruct (pending_kept_exec c st seq p Hst Hp Hlt). by apply IH.
Qed.

(** C4 (as amended).  A request is written, on a client in any state it can
    reach connected; later the socket is closed, by [close] or by the
    socket's ['close'] event; before and after, anything happens but an
    answer to that request and its timer.  The request is pending when the
    socket closes; closing leaves the table of pending requests as it is
    and settles nothing; the request is still pending afterwards and has
    not been settled; and then the callback of its own timer, started when
    it was written, rejects it with a timeout error, while an answer that
    still arrives settles it like any answer. *)
Theorem close_leaves_pending before (command : string) (args : option Json)
    waiting closing after :
  let c := (run new_client before).1 in
  let seq := sequenceNumber c in
  connected c = true → is_Some (socket c) →
  Forall (leaves_alone seq) waiting → Forall (leaves_alone seq) after →
  closing = CClose ∨ closing = CSocketClose →
  let at_close := (run new_client (before ++ CSend command args :: waiting)).1 in
  let history := before ++ CSend command args :: waiting ++ closing :: after in
  let later := (run new_client history).1 in
  SetTimeout 10000 (RequestTimeout seq command) ∈ (exec c (CSend command args)).2
  ∧ pendingRequests at_close !! seq = Some seq
  ∧ pendingRequests (exec at_close closing).1 = pendingRequests at_close
  ∧ Forall (fun e => is_settlement e = false) (exec at_close closing).2
  ∧ pendingRequests later !! seq = Some seq
  ∧ (seq ∉ settled (run new_client history).2)
  ∧ requestTimeout (Json := Json) later seq command
    = (delete_pending seq later, [Reject seq ("Request timeout: " +:+ command)])
  ∧ (∀ rseq success cmd msg (body : option Json),
       handleMessage later (MResponse rseq seq success cmd msg body)
       = (delete_pending seq later,
          [if success then Resolve seq body
           else Reject seq (message_or_default msg)])).
Proof.
  intros c seq Hconn [sock Hsock] Hwaiting Hafter Hclosing at_close history later.
  assert (exec c (CSend command args)
          = ({| socket := socket c; connected := connected c;
                sequenceNumber := seq + 1;
                pendingRequests := <[seq := seq]> (pendingRequests c);
                messageBuffer := messageBuffer c |},
             [SocketWrite (frame (JSON_stringify seq command args));
              SetTimeout 10000 (RequestTimeout seq command)])) as Hsend.
  { cbn [client_exec]. unfold sendRequest. rewrite Hconn, Hsock. reflexivity. }
  assert (pendingRequests at_close !! seq = Some seq
          ∧ seq < sequenceNumber at_close) as [Hat Hlt].
  { subst at_close. rewrite client_run_app. cbn [fst].
    rewrite client_run_cons. cbn [fst]. fold c. rewrite Hsend. cbn [fst].
    apply pending_kept; [done|cbn; apply lookup_insert_eq|cbn; lia]. }
  assert (leaves_alone seq closing) as Hleaves by (by destruct Hclosing as [-> | ->]).
  assert (pendingRequests later !! seq = Some seq) as Hlater.
  { subst later history.
    replace (before ++ CSend command args :: waiting ++ closing :: after)
      with ((before ++ CSend command args :: waiting) ++ closing :: after)
      by (by rewrite <- app_assoc).
    rewrite client_run_app. cbn [fst]. fold at_close.
    apply pending_kept; [by constructor|done..]. }
  split_and!.
  - rewrite Hsend. cbn. set_solver.
  - exact Hat.
  - by destruct Hclosing as [-> | ->].
  - destruct Hclosing as [-> | ->]; cbn; [destruct (socket at_close)|];
      repeat constructor.
  - exact Hlater.
  - intros Hin.
    pose proof (client_run_inv history new_client [] new_client_inv) as Hinv.
    rewrite app_nil_l in Hinv. destruct (inv_settled _ _ Hinv _ Hin) as [_ Hnone].
    fold later in Hnone. discriminate (eq_trans (eq_sym Hlater) Hnone).
  - unfold requestTimeout, promise in *. by rewrite Hlater.
  - intros rseq success cmd msg body. cbn [handleMessage].
    unfold promise in *. by rewrite Hlater.
Qed.

End Runs.

(** *** Instances *)

Lemma no_socket_no_write_witness :
  Forall (fun e => is_write e = false)
    (client_run unit no_text (close (Json := unit) two_pending).1
       [CSend "threads" None; CTimer 1 "variables"; CSocketClose;
        CSend "continue" None]).2.
Proof.
  apply (no_socket_no_write no_text
           [CSend "threads" None; CTimer 1 "variables"; CSocketClose;
            CSend "continue" None] (close (Json := unit) two_pending).1).
  - reflexivity.
  - repeat constructor.
Defined.

Lemma response_settles_pending_witness :
  (handleMessages two_pending
     [MResponse (Json := unit) 11 2 true "threads" None (Some ());
      MEvent 12 "output" None;
      MResponse 13 1 false "variables" (Some "no such reference") None]).2
  = [Resolve 2 (Some ()); EmitEvent (MEvent 12 "output" None); Emit "output" None;
     Reject 1 "no such reference"].
Proof.
  refine (eq_trans (proj1 (proj2 (response_settles_pending two_pending _ _ _))) _).
  - repeat constructor; vm_compute; eauto.
  - cbn. apply NoDup_cons. split; [|apply NoDup_singleton].
    intros Hin%list_elem_of_singleton. discriminate.
  - reflexivity.
Defined.

(** C6, where it fails as stated: a failed response whose [message] is the
    empty string is rejected with the text ['Request failed'], not with
    [response.message]. *)
Lemma empty_message_replaced :
  (handleMessage two_pending failed_without_message).2 = [Reject 1 "Request failed"]
  ∧ (handleMessage two_pending failed_without_message).2 ≠ [Reject 1 EmptyString].
Proof. split; [reflexivity | discriminate]. Qed.

Lemma close_leaves_pending_witness :
  let history :=
    [CConnect {| sock_port := 5679 |}; CSocketConnect; CSend "variables" None;
     CClose; CSend "threads" None; CTimer 7 "scopes"; CSocketClose] in
  pendingRequests (client_run unit no_text new_client history).1 !! 1 = Some 1
  ∧ (1 ∉ settled (client_run unit no_text new_client history).2).
Proof.
  pose proof (close_leaves_pending no_text
                [CConnect {| sock_port := 5679 |}; CSocketConnect]
                "variables" None [] CClose
                [CSend "threads" None; CTimer 7 "scopes"; CSocketClose])
    as H.
  cbv zeta in H.
  destruct H as (_ & _ & _ & _ & H5 & H6 & _).
  - reflexivity.
  - cbn. eauto.
  - constructor.
  - repeat constructor. cbn. discriminate.
  - by left.
  - exact (conj H5 H6).
Defined.

(** C4, where it fails as stated: with requests 1 and 2 pending, closing the
    client ends the socket and rejects neither of them; both stay pending. *)
Lemma close_rejects_nothing :
  (close (Json := unit) two_pending).2 = [SocketEnd]
  ∧ (∀ p error, Reject p error ∉ (close (Json := unit) two_pending).2)
  ∧ pendingRequests (close (Json := unit) two_pending).1 !! 1 = Some 1
  ∧ pendingRequests (close (Json := unit) two_pending).1 !! 2 = Some 2.
Proof.
  split_and!; [reflexivity| |reflexivity|reflexivity].
  intros p error Hin. cbn in Hin. apply list_elem_of_singleton in Hin. discriminate.
Qed.

Lemma not_connected_operation_witness :
  invoke unit no_arguments no_text new_client OpThreads
  = (new_client, [], Threw "DAP client not connected").
Proof.
  pose proof (not_connected_operation no_arguments no_text new_client OpThreads
                (or_introl eq_refl)) as H.
  destruct (invoke unit no_arguments no_text new_client OpThreads)
    as [[c' effects] outcome].
  destruct H as (_ & _ & _ & H & _).
  destruct (H ltac:(discriminate)) as (-> & -> & ->). reflexivity.
Defined.

(** C10, where it fails as stated: [disconnect] on a client that is not
    connected does not throw. *)
Lemma disconnect_does_not_throw :
  (invoke unit no_arguments no_text new_client OpDisconnect).2 = Completed
  ∧ (invoke unit no_arguments no_text new_client OpDisconnect).2
    ≠ Threw "DAP client not connected".
Proof. split; [reflexivity | discriminate]. Qed.

End CorrelatorProps.

(** ** Sessions *)

Module SessionsProps.
Import Correlator Sessions.

(** *** The object store *)

Lemma lookup_update_object (w : World) (o o' : ref) (f : DebugSession → DebugSession) :
  heap (update_object o f w) !! o'
  = if decide (o' = o) then f <$> heap w !! o else heap w !! o'.
Proof.
  unfold update_object. cbn. destruct (heap w !! o) as [s|] eqn:Hs.
  - case_decide as Ho; [subst; by rewrite lookup_insert_eq|].
    by rewrite lookup_insert_ne.
  - case_decide; [by subst|done].
Qed.

Lemma sessions_update_object (w : World) (o : ref) (f : DebugSession → DebugSession) :
  sessions (update_object o f w) = sessions w.
Proof. reflexivity. Qed.

Lemma nextObject_update_object (w : World) (o : ref) (f : DebugSession → DebugSession) :
  nextObject (update_object o f w) = nextObject w.
Proof. reflexivity. Qed.

Lemma getSession_Some (w : World) (i : string) (o : ref) (s : DebugSession) :
  getSession w i = Some (o, s) ↔ sessions w !! i = Some o ∧ heap w !! o = Some s.
Proof.
  unfold getSession. destruct (sessions w !! i) as [o'|]; [|naive_solver].
  destruct (heap w !! o') as [s'|] eqn:Hs'; naive_solver.
Qed.

(** Writing to an object keeps a world well formed when the write keeps the
    object's identifier and its own invariant. *)
Lemma update_object_wf (ids : list string) (w : World) (o : ref)
    (f : DebugSession → DebugSession) :
  wf ids w →
  (∀ s, heap w !! o = Some s → id (f s) = id s ∧ (session_inv s → session_inv (f s))) →
  wf ids (update_object o f w).
Proof.
  intros Hwf Hf.
  assert (∀ o' s', heap (update_object o f w) !! o' = Some s' →
            ∃ s, heap w !! o' = Some s ∧ id s' = id s ∧ (session_inv s → session_inv s'))
    as Hback.
  { intros o' s'. rewrite lookup_update_object. case_decide as Ho.
    - subst o'. destruct (heap w !! o) as [s|] eqn:Hs; [|done].
      cbn. intros [= <-]. exists s. split; [done|]. by apply Hf.
    - intros Hs'. by exists s'. }
  split.
  - intros o' s' Hs'. destruct (Hback _ _ Hs') as (s & Hs & _ & Hinv).
    apply Hinv. by eapply wf_inv.
  - intros i o' Hi. rewrite sessions_update_object in Hi.
    destruct (wf_registry _ _ Hwf _ _ Hi) as (s & Hs & Hid).
    rewrite lookup_update_object. case_decide as Ho.
    + subst o'. rewrite Hs. cbn. eexists. split; [done|].
      destruct (Hf s Hs) as [-> _]. done.
    + by exists s.
  - intros o1 o2 s1 s2 H1 H2 Hid.
    destruct (Hback _ _ H1) as (t1 & Ht1 & Hid1 & _).
    destruct (Hback _ _ H2) as (t2 & Ht2 & Hid2 & _).
    eapply (wf_unique _ _ Hwf); [done..|congruence].
  - intros o' s' Hs'. destruct (Hback _ _ Hs') as (s & Hs & -> & _).
    by eapply wf_ids.
  - intros o' [s' Hs']. destruct (Hback _ _ Hs') as (s & Hs & _).
    rewrite nextObject_update_object. eapply wf_next; eauto.
Qed.

Lemma unregister_wf (ids : list string) (w : World) (i : string) :
  wf ids w → wf ids (unregister i w).
Proof.
  intros Hwf. split; cbn.
  - apply Hwf.
  - intros j o Hj. apply lookup_delete_Some in Hj as [_ Hj].
    by eapply wf_registry.
  - apply Hwf.
  - apply Hwf.
  - apply Hwf.
Qed.

Lemma createSession_wf (ids : list string) (w : World) (i path : string) :
  wf ids w → i ∉ ids → wf (ids ++ [i]) (createSession w i path).1.
Proof.
  intros Hwf Hi.
  assert (heap w !! nextObject w = None) as Hnone.
  { destruct (heap w !! nextObject w) eqn:E; [|done].
    assert (nextObject w < nextObject w)%nat by (eapply wf_next; eauto). lia. }
  split; cbn.
  - intros o s Hs. apply lookup_insert_Some in Hs as [[<- <-]|[_ Hs]].
    + split; [by intros ?|]. intros f bps _ Hbps. cbn in Hbps.
      by rewrite lookup_empty in Hbps.
    + by eapply wf_inv.
  - intros j o Hj. apply lookup_insert_Some in Hj as [[<- <-]|[Hne Hj]].
    + rewrite lookup_insert_eq. by eexists.
    + destruct (wf_registry _ _ Hwf _ _ Hj) as (s & Hs & Hid).
      exists s. split; [|done]. rewrite lookup_insert_ne; [done|].
      intros <-. congruence.
  - intros o o' s s' Hs Hs' Hid.
    apply lookup_insert_Some in Hs as [[<- <-]|[Hne Hs]];
      apply lookup_insert_Some in Hs' as [[<- <-]|[Hne' Hs']]; try done.
    + exfalso. apply Hi. cbn in Hid. rewrite Hid. by eapply wf_ids.
    + exfalso. apply Hi. cbn in Hid. rewrite <- Hid. by eapply wf_ids.
    + by eapply (wf_unique _ _ Hwf).
  - intros o s Hs. apply elem_of_app.
    apply lookup_insert_Some in Hs as [[<- <-]|[_ Hs]].
    + right. cbn. set_solver.
    + left. by eapply wf_ids.
  - intros o [s Hs]. apply lookup_insert_Some in Hs as [[<- <-]|[_ Hs]]; [lia|].
    assert (o < nextObject w)%nat by (eapply wf_next; eauto). lia.
Qed.

Lemma initial_wf : wf [] initial.
Proof.
  split; cbn; intros *; rewrite ?lookup_empty; try done.
Qed.

(** *** Writes that keep the invariant of a session *)

Ltac keeps_inv :=
  intros ? ?; split; [reflexivity|];
  intros [Hok Hl]; split;
  [intros Hst; cbn in *; first [discriminate | by eauto | by apply Hok]
  | exact Hl].

Lemma updateSessionState_wf (ids : list string) (w : World) (i : string) (st : State) :
  st ≠ paused → wf ids w → wf ids (updateSessionState w i st).
Proof.
  intros Hst Hwf. unfold updateSessionState.
  destruct (getSession w i) as [[o s]|]; [|done].
  apply update_object_wf; [done|]. intros s' _. split; [done|].
  intros [Hok Hl]. split; [|done]. intros Hp. cbn in Hp. congruence.
Qed.

Lemma handler_state_wf (ids : list string) (w : World) (o : ref) (st : State) :
  st ≠ paused → wf ids w → wf ids (handler_state w o st).
Proof.
  intros Hst Hwf. unfold handler_state. destruct (heap w !! o); [|done].
  by apply updateSessionState_wf.
Qed.

Lemma on_stopped_wf (ids : list string) (w : World) (o : ref) (body : StoppedBody) :
  wf ids w → wf ids (on_stopped w o body).1.
Proof.
  intros Hwf. unfold on_stopped.
  destruct (heap w !! o) as [session|] eqn:Ho; [|done].
  destruct (stopped_threadId body) as [t|] eqn:Ht; [|done].
  destruct (truthy (Some t)); [|done]. cbn [negb fst].
  set (w1 := update_object o (with_thread (Some t)) w).
  assert (wf ids w1) as Hwf1 by (apply update_object_wf; [done|keeps_inv]).
  assert (heap w1 !! o = Some (with_thread (Some t) session)) as Ho1.
  { unfold w1. rewrite lookup_update_object, decide_True by done. by rewrite Ho. }
  unfold updateSessionState.
  destruct (getSession w1 (id session)) as [[o' s']|] eqn:Hg; [|done].
  apply getSession_Some in Hg as [Hreg Hs'].
  destruct (wf_registry _ _ Hwf1 _ _ Hreg) as (s'' & Hs'' & Hid).
  assert (o' = o) as ->.
  { eapply (wf_unique _ _ Hwf1); [exact Hs''|exact Ho1|]. by rewrite Hid. }
  apply update_object_wf; [done|]. intros s Hs. rewrite Ho1 in Hs.
  injection Hs as <-. split; [done|]. intros [_ Hl]. split; [|done].
  intros _. cbn. eauto.
Qed.

Lemma on_stopped_frames_wf (ids : list string) (w : World) (o : ref)
    (operation : nat → Reply (list StackFrame)) :
  wf ids w → wf ids (on_stopped_frames w o operation).
Proof.
  intros Hwf. unfold on_stopped_frames.
  destruct (retryDAPOperation operation 2) as [[[|f fs]|]|]; try done.
  apply update_object_wf; [done|keeps_inv].
Qed.

Lemma init_threads_wf (ids : list string) (w : World) (o : ref)
    (threads : Reply (list Thread)) :
  wf ids w → wf ids (init_threads w o threads).1.
Proof.
  intros Hwf. destruct threads as [[|t ts]|]; try done. cbn.
  apply update_object_wf; [done|keeps_inv].
Qed.

Lemma init_frames_wf (ids : list string) (w : World) (o : ref)
    (frames : Reply (list StackFrame)) :
  wf ids w → wf ids (init_frames w o frames).
Proof.
  intros Hwf. destruct frames as [[|f fs]|]; try done. cbn.
  apply update_object_wf; [done|keeps_inv].
Qed.

Lemma terminateSession_wf (ids : list string) (w : World) (i : string) :
  wf ids w → wf ids (terminateSession w i).1.
Proof.
  intros Hwf. unfold terminateSession.
  destruct (getSession w i) as [[o session]|]; [|done].
  assert (wf ids (update_object o (with_client None) w)) as Hwf1
    by (apply update_object_wf; [done|keeps_inv]).
  destruct (pythonProcess session) as [p|]; [destruct (negb (killed p))|];
    cbn [fst]; apply unregister_wf;
    repeat (apply update_object_wf; [|first [keeps_inv | intros ? _; split; [done|];
      intros [_ Hl]; split; [by intros ?|done]]]); done.
Qed.

Lemma forceKill_wf (ids : list string) (w : World) (o : ref) :
  wf ids w → wf ids (forceKill w o).1.
Proof.
  intros Hwf. unfold forceKill.
  destruct (heap w !! o) as [session|]; [|done].
  destruct (pythonProcess session) as [p|]; [|done].
  destruct (negb (killed p)); [|done]. cbn.
  apply update_object_wf; [done|keeps_inv].
Qed.

Lemma execution_resume_wf (ids : list string) (tool : ExecutionTool) (w : World)
    (i : string) (answer : Reply unit) :
  wf ids w → wf ids (execution_resume tool w i answer).1.
Proof.
  intros Hwf. destruct tool, answer; cbn; try done.
  by apply updateSessionState_wf.
Qed.

(** *** Lines of the breakpoints built from an adapter answer *)

Lemma omap_sublist {A B : Type} (f : A → option B) (l k : list A) :
  l `sublist_of` k → omap f l `sublist_of` omap f k.
Proof.
  induction 1 as [|x l k _ IH|x l k _ IH]; cbn.
  - constructor.
  - destruct (f x); [by constructor|done].
  - destruct (f x); [by constructor|done].
Qed.

Lemma breakpoint_at_shift (file : string) (lines : list (option Z))
    (bps : list BreakpointReply) (k : nat) :
  imap (breakpoint_at file lines k ∘ S) bps
  = imap (breakpoint_at file lines (S k)) bps.
Proof.
  apply imap_ext. intros i bp _. unfold breakpoint_at. cbn.
  by rewrite Nat.add_succ_r.
Qed.

Lemma response_breakpoints_at (file : string) (lines : list (option Z))
    (bps : list BreakpointReply) :
  response_breakpoints file lines bps = imap (breakpoint_at file lines 0) bps.
Proof. reflexivity. Qed.

Lemma breakpoint_at_lines (file : string) (lines : list (option Z))
    (bps : list BreakpointReply) (k : nat) :
  omap bp_line (imap (breakpoint_at file lines k) bps)
  = omap (fun x => x) (take (length bps) (drop k lines)).
Proof.
  revert k. induction bps as [|bp bps IH]; intros k; [done|].
  rewrite imap_cons, breakpoint_at_shift.
  cbn [length omap list_omap]. rewrite IH.
  unfold breakpoint_at at 1. cbn [bp_line]. rewrite Nat.add_0_r.
  destruct (lines !! k) as [v|] eqn:Hk.
  - by rewrite (drop_S _ _ _ Hk).
  - apply lookup_ge_None in Hk.
    by rewrite (drop_ge lines k), (drop_ge lines (S k)), take_nil by lia.
Qed.

Lemma breakpoint_at_all_lines (file : string) (lines : list (option Z))
    (bps : list BreakpointReply) (k : nat) :
  (k + length bps ≤ length lines)%nat →
  bp_line <$> imap (breakpoint_at file lines k) bps
  = take (length bps) (drop k lines).
Proof.
  revert k. induction bps as [|bp bps IH]; intros k Hlen; [done|].
  cbn [length] in Hlen.
  rewrite imap_cons, breakpoint_at_shift.
  cbn [length fmap list_fmap]. rewrite IH by lia.
  unfold breakpoint_at at 1. cbn [bp_line]. rewrite Nat.add_0_r.
  destruct (lines !! k) as [v|] eqn:Hk.
  - by rewrite (drop_S _ _ _ Hk).
  - apply lookup_ge_None in Hk. lia.
Qed.

(** As many answers as lines: the cached lines are the lines asked for. *)
Lemma response_breakpoints_lines (file : string) (lines : list (option Z))
    (bps : list BreakpointReply) :
  length bps = length lines →
  bp_line <$> response_breakpoints file lines bps = lines.
Proof.
  intros Hlen. rewrite response_breakpoints_at, breakpoint_at_all_lines by (cbn; lia).
  by rewrite drop_0, Hlen, firstn_all.
Qed.

Lemma response_breakpoints_distinct (file : string) (lines : list (option Z))
    (bps : list BreakpointReply) :
  NoDup (omap (fun x => x) lines) →
  distinct_lines (response_breakpoints file lines bps).
Proof.
  intros Hnd. unfold distinct_lines.
  rewrite response_breakpoints_at, breakpoint_at_lines, drop_0.
  apply (sublist_NoDup _ (omap (fun x => x) lines));
    [exact Hnd | apply omap_sublist, sublist_take].
Qed.

Lemma omap_bp_line (bps : list Breakpoint) :
  omap (fun x => x) (bp_line <$> bps) = omap bp_line bps.
Proof. induction bps as [|bp bps IH]; cbn; [done|]. by rewrite IH. Qed.

Lemma getBreakpoints_file (w : World) (i f : string) (o : ref) (s : DebugSession) :
  getSession w i = Some (o, s) → f ≠ EmptyString →
  getBreakpoints w i (Some f) = default [] (breakpoints s !! f).
Proof.
  intros Hg Hf. unfold getBreakpoints. rewrite Hg.
  destruct (String.eqb_spec f EmptyString); [done|reflexivity].
Qed.

Lemma cached_distinct (ids : list string) (w : World) (i f : string) (o : ref)
    (s : DebugSession) :
  wf ids w → getSession w i = Some (o, s) → f ≠ EmptyString →
  distinct_lines (getBreakpoints w i (Some f)).
Proof.
  intros Hwf Hg Hf. rewrite (getBreakpoints_file _ _ _ _ _ Hg Hf).
  apply getSession_Some in Hg as [_ Hs].
  destruct (breakpoints s !! f) as [bps|] eqn:Hb; cbn; [|constructor].
  destruct (wf_inv _ _ Hwf _ _ Hs) as [_ Hl]. by eapply Hl.
Qed.

Lemma lines_to_set_distinct (ids : list string) (w : World) (i f : string)
    (line : Z) (o : ref) (s : DebugSession) :
  wf ids w → getSession w i = Some (o, s) → f ≠ EmptyString →
  NoDup (omap (fun x => x) (lines_to_set w i f line)).
Proof.
  intros Hwf Hg Hf. pose proof (cached_distinct _ _ _ _ _ _ Hwf Hg Hf) as Hnd.
  unfold distinct_lines in Hnd. rewrite <- omap_bp_line in Hnd.
  unfold lines_to_set. case_bool_decide as Hin; [done|].
  rewrite omap_app. cbn. apply NoDup_app. split_and!; [done| |apply NoDup_singleton].
  intros x Hx Hx'. apply list_elem_of_singleton in Hx'. subst x.
  apply Hin. apply list_elem_of_omap in Hx as (y & Hy & ->). done.
Qed.

Lemma lines_to_keep_distinct (ids : list string) (w : World) (i f : string)
    (line : Z) (o : ref) (s : DebugSession) :
  wf ids w → getSession w i = Some (o, s) → f ≠ EmptyString →
  NoDup (omap (fun x => x) (lines_to_keep w i f line)).
Proof.
  intros Hwf Hg Hf. pose proof (cached_distinct _ _ _ _ _ _ Hwf Hg Hf) as Hnd.
  unfold lines_to_keep. rewrite omap_bp_line.
  apply (sublist_NoDup _ (omap bp_line (getBreakpoints w i (Some f))));
    [exact Hnd | apply omap_sublist, sublist_filter].
Qed.

Lemma setBreakpoints_wf (ids : list string) (w : World) (i f : string)
    (bps : list Breakpoint) :
  wf ids w → (f ≠ EmptyString → distinct_lines bps) → wf ids (setBreakpoints w i f bps).
Proof.
  intros Hwf Hbps. unfold setBreakpoints.
  destruct (getSession w i) as [[o session]|] eqn:Hg; [|done].
  apply getSession_Some in Hg as [_ Hs].
  apply update_object_wf; [done|]. intros s Hs'. rewrite Hs in Hs'.
  injection Hs' as <-. split; [done|]. intros [Hok Hl]. split; [done|].
  intros f' bps' Hf' Hlook. cbn in Hlook.
  apply lookup_insert_Some in Hlook as [[<- <-]|[_ Hlook]]; [by apply Hbps|].
  by eapply Hl.
Qed.

Lemma set_breakpoint_wf (ids : list string) (w : World) (i f : string) (line : Z)
    (validation : Reply unit) (adapter : Adapter) :
  wf ids w → wf ids (set_breakpoint w i f line validation adapter).1.
Proof.
  intros Hwf. unfold set_breakpoint.
  destruct (getSession w i) as [[o session]|] eqn:Hg; [|done].
  destruct (dapClient session); [|done].
  destruct (line <? 1); [done|]. destruct validation; [|done].
  destruct (adapter f (lines_to_set w i f line)) as [[[[bps|]]|]|]; try done.
  cbn [fst]. apply setBreakpoints_wf; [done|]. intros Hf.
  apply response_breakpoints_distinct. by eapply lines_to_set_distinct.
Qed.

Lemma remove_breakpoint_wf (ids : list string) (w : World) (i f : string) (line : Z)
    (adapter : Adapter) :
  wf ids w → wf ids (remove_breakpoint w i f line adapter).1.
Proof.
  intros Hwf. unfold remove_breakpoint.
  destruct (getSession w i) as [[o session]|] eqn:Hg; [|done].
  destruct (dapClient session); [|done].
  destruct (adapter f (lines_to_keep w i f line)) as [[[[bps|]]|]|]; try done.
  cbn [fst]. apply setBreakpoints_wf; [done|]. intros Hf.
  apply response_breakpoints_distinct. by eapply lines_to_keep_distinct.
Qed.

(** *** Every step keeps the world well formed *)

Lemma exec_wf (ids : list string) (w : World) (st : Step) :
  wf ids w → (∀ i, i ∈ created [st] → i ∉ ids) →
  wf (ids ++ created [st]) (exec w st).
Proof.
  intros Hwf Hfresh.
  destruct st; cbn [exec created omap list_omap]; rewrite ?app_nil_r.
  - apply createSession_wf; [done|]. apply Hfresh. cbn. set_solver.
  - apply update_object_wf; [done|keeps_inv].
  - apply update_object_wf; [done|keeps_inv].
  - by apply init_threads_wf.
  - by apply init_frames_wf.
  - by apply updateSessionState_wf.
  - by apply on_stopped_wf.
  - by apply on_stopped_frames_wf.
  - by apply handler_state_wf.
  - by apply handler_state_wf.
  - by apply handler_state_wf.
  - apply update_object_wf; [done|keeps_inv].
  - by apply execution_resume_wf.
  - by apply terminateSession_wf.
  - by apply forceKill_wf.
  - by apply set_breakpoint_wf.
  - by apply remove_breakpoint_wf.
Qed.

Lemma run_snoc (w : World) (steps : list Step) (st : Step) :
  run w (steps ++ [st]) = exec (run w steps) st.
Proof. unfold run. by rewrite fold_left_app. Qed.

Lemma created_app (steps steps' : list Step) :
  created (steps ++ steps') = created steps ++ created steps'.
Proof. apply omap_app. Qed.

Lemma run_wf (steps : list Step) :
  fresh_ids steps → wf (created steps) (run initial steps).
Proof.
  induction steps as [|st steps IH] using rev_ind; intros Hfresh.
  - apply initial_wf.
  - unfold fresh_ids in *. rewrite created_app in *.
    apply NoDup_app in Hfresh as (Hnd & Hdisj & _).
    rewrite run_snoc. apply exec_wf; [by apply IH|].
    intros i Hi Hi'. by eapply Hdisj.
Qed.

(** *** A frame id, once set, stays set *)

Lemma update_object_has_frame (w : World) (o o' : ref)
    (f : DebugSession → DebugSession) :
  (∀ s, is_Some (currentFrameId s) → is_Some (currentFrameId (f s))) →
  has_frame w o → has_frame (update_object o' f w) o.
Proof.
  intros Hf (s & Hs & Hfr). unfold has_frame.
  rewrite lookup_update_object. case_decide as Ho.
  - subst o'. rewrite Hs. cbn. eauto.
  - eauto.
Qed.

Lemma unregister_has_frame (w : World) (o : ref) (i : string) :
  has_frame w o → has_frame (unregister i w) o.
Proof. done. Qed.

Ltac frames_kept :=
  repeat first
    [ assumption
    | apply unregister_has_frame
    | apply update_object_has_frame; [by (intros ? ?; cbn; eauto)|] ].

Lemma exec_has_frame (ids : list string) (w : World) (st : Step) (o : ref) :
  wf ids w → has_frame w o → has_frame (exec w st) o.
Proof.
  intros Hwf Hfr. destruct st; cbn [exec].
  - destruct Hfr as (s & Hs & Hfr). exists s. split; [|done]. cbn.
    rewrite lookup_insert_ne; [done|]. intros <-.
    assert (nextObject w < nextObject w)%nat by (eapply wf_next; eauto). lia.
  - unfold install. frames_kept.
  - frames_kept.
  - unfold init_threads. repeat case_match; cbn [fst]; frames_kept.
  - unfold init_frames. repeat case_match; frames_kept.
  - unfold updateSessionState. repeat case_match; frames_kept.
  - unfold on_stopped, updateSessionState. repeat case_match; cbn [fst]; frames_kept.
  - unfold on_stopped_frames. repeat case_match; frames_kept.
  - unfold on_continued, handler_state, updateSessionState.
    repeat case_match; frames_kept.
  - unfold on_terminated, handler_state, updateSessionState.
    repeat case_match; frames_kept.
  - unfold on_exited, handler_state, updateSessionState.
    repeat case_match; frames_kept.
  - frames_kept.
  - destruct tool, answer; cbn; try done.
    unfold updateSessionState. repeat case_match; frames_kept.
  - unfold terminateSession. repeat case_match; simplify_eq; cbn [fst]; frames_kept.
  - unfold forceKill. repeat case_match; cbn [fst]; frames_kept.
  - unfold set_breakpoint, setBreakpoints. repeat case_match; cbn [fst]; frames_kept.
  - unfold remove_breakpoint, setBreakpoints. repeat case_match; cbn [fst]; frames_kept.
Qed.

Lemma run_cons (w : World) (st : Step) (steps : list Step) :
  run w (st :: steps) = run (exec w st) steps.
Proof. reflexivity. Qed.

Lemma run_app (w : World) (steps steps' : list Step) :
  run w (steps ++ steps') = run (run w steps) steps'.
Proof. unfold run. apply fold_left_app. Qed.

Lemma run_has_frame (steps : list Step) (ids : list string) (w : World) (o : ref) :
  wf ids w → NoDup (ids ++ created steps) →
  has_frame w o → has_frame (run w steps) o.
Proof.
  revert ids w. induction steps as [|st steps IH]; intros ids w Hwf Hnd Hfr; [done|].
  rewrite run_cons.
  change (st :: steps) with ([st] ++ steps) in Hnd.
  rewrite created_app, app_assoc in Hnd.
  apply (IH (ids ++ created [st])); [|done|by eapply exec_has_frame].
  apply exec_wf; [done|]. intros i Hi Hi'.
  apply NoDup_app in Hnd as (Hnd & _ & _).
  apply NoDup_app in Hnd as (_ & Hdisj & _). by eapply Hdisj.
Qed.

Lemma on_stopped_frames_sets (w : World) (o : ref)
    (operation : nat → Reply (list StackFrame)) (f : StackFrame)
    (fs : list StackFrame) :
  is_Some (heap w !! o) →
  retryDAPOperation operation 2 = Some (Resolved (f :: fs)) →
  ∃ s, heap (on_stopped_frames w o operation) !! o = Some s
       ∧ currentFrameId s = Some (frame_id f).
Proof.
  intros [s Hs] Hretry. unfold on_stopped_frames. rewrite Hretry.
  rewrite lookup_update_object, decide_True, Hs by done. cbn. eauto.
Qed.

(** C2.  In every world the server can reach, a session whose state is
    Paused has its current thread id set; and its current frame id is set
    too once a ['stopped'] handler of the session has fetched a stack trace
    that was not empty. *)
Theorem paused_has_context (steps : list Step) (o : ref) (s : DebugSession) :
  fresh_ids steps →
  heap (run initial steps) !! o = Some s →
  state s = paused →
  is_Some (currentThreadId s)
  ∧ ∀ before operation after f fs,
      steps = before ++ SStoppedFrames o operation :: after →
      is_Some (heap (run initial before) !! o) →
      retryDAPOperation operation 2 = Some (Resolved (f :: fs)) →
      is_Some (currentFrameId s).
Proof.
  intros Hfresh Hs Hpaused. split.
  - destruct (wf_inv _ _ (run_wf _ Hfresh) _ _ Hs) as [Hok _]. by apply Hok.
  - intros before operation after f fs -> Hobj Hretry.
    unfold fresh_ids in Hfresh. rewrite created_app in Hfresh.
    assert (has_frame (run initial (before ++ SStoppedFrames o operation :: after)) o)
      as (s' & Hs' & Hfr).
    { rewrite run_app, run_cons.
      apply (run_has_frame after (created before)).
      - change (wf (created before)
                  (exec (run initial before) (SStoppedFrames o operation))).
        rewrite <- (app_nil_r (created before)).
        apply (exec_wf _ _ (SStoppedFrames o operation)).
        + apply run_wf. by apply NoDup_app in Hfresh as (? & _ & _).
        + intros i Hi. cbn in Hi. by apply elem_of_nil in Hi.
      - done.
      - cbn [exec].
        destruct (on_stopped_frames_sets _ _ _ _ _ Hobj Hretry) as (s' & Hs' & Hfr).
        exists s'. split; [done|]. rewrite Hfr. eauto. }
    rewrite Hs in Hs'. by injection Hs' as <-.
Qed.

Lemma paused_has_context_witness :
  ∃ s, heap at_breakpoint !! 0%nat = Some s ∧ state s = paused
       ∧ is_Some (currentThreadId s) ∧ is_Some (currentFrameId s).
Proof.
  eexists. split; [vm_compute; reflexivity|]. split; [reflexivity|].
  assert (fresh_ids stopped_steps) as Hfresh
    by (unfold fresh_ids; cbn; apply NoDup_singleton).
  destruct (paused_has_context stopped_steps 0%nat _ Hfresh
              ltac:(vm_compute; reflexivity) eq_refl) as [Ht Hf].
  split; [exact Ht|].
  apply (Hf paused_steps (fun _ => Resolved [a_frame]) [] a_frame []);
    [reflexivity | vm_compute; eauto | reflexivity].
Defined.

(** *** The handshake and the retry loop on examples *)

(** After a handshake in which [threads] answered with the main thread, the
    session is Running on the first port handed out, with thread 1 current
    and no current frame. *)
Example handshake_success :
  (fun s => (state s, port s, currentThreadId s, currentFrameId s))
    <$> (heap started !! 0%nat)
  = Some (running, 5679, Some 1, None).
Proof. vm_compute. reflexivity. Qed.

(** [retryDAPOperation] with two tries: the first success is returned, and
    after two failures the second error. *)
Example retry_second_try :
  retryDAPOperation
    (fun k => if (k =? 1)%nat then Rejected "Request timeout: stackTrace"
              else Resolved [a_frame]) 2
  = Some (Resolved [a_frame])
  ∧ retryDAPOperation (A := list StackFrame)
      (fun k => if (k =? 1)%nat then Rejected "first" else Rejected "second") 2
    = Some (Rejected "second").
Proof. split; reflexivity. Qed.

(** *** Execution control *)

Lemma active_thread_Some (w : World) (i : string) (o : ref) (session : DebugSession)
    (c : DAPClient) (t : Z) :
  getSession w i = Some (o, session) → dapClient session = Some c →
  currentThreadId session = Some t → t ≠ 0 →
  active_thread w i = Some (o, t).
Proof.
  intros Hg Hc Ht Hne. unfold active_thread. rewrite Hg, Hc, Ht. cbn.
  by destruct (Z.eqb_spec t 0).
Qed.

Lemma updateSessionState_lookup (w : World) (i : string) (o : ref)
    (session : DebugSession) (st : State) :
  getSession w i = Some (o, session) →
  heap (updateSessionState w i st) !! o = Some (with_state st session).
Proof.
  intros Hg. unfold updateSessionState. rewrite Hg.
  apply getSession_Some in Hg as [_ Hs].
  by rewrite lookup_update_object, decide_True, Hs.
Qed.

Section ExecutionControl.
Context {Json : Type}.
Variable arguments_of : Operation → option Json.
Variable JSON_stringify : Z → string → option Json → Transport.jsstring.

(** C1 (as amended).  On a registered session with a connected client and a
    current thread id other than 0, each of the four tools writes its
    request for that thread to the socket, numbered with the client's next
    sequence number, and waits for its answer; writing changes nothing else
    of the session.  The answer to [next], [stepIn] and [stepOut], and a
    failed answer to [continue], leave the world as it is; a successful
    answer to [continue] sets the state to Running at once; and so does the
    ['continued'] event, whichever tool was used. *)
Theorem execution_control (tool : ExecutionTool) (w : World) (session_id : string)
    (o : ref) (session : DebugSession) (c : DAPClient) (sock : Socket) (t : Z) :
  getSession w session_id = Some (o, session) →
  id session = session_id →
  dapClient session = Some c →
  connected c = true →
  socket c = Some sock →
  currentThreadId session = Some t →
  t ≠ 0 →
  let request := request_of tool t in
  let seq := sequenceNumber c in
  let session' :=
    with_client (Some (invoke Json arguments_of JSON_stringify c request).1.1)
      session in
  let sent := (execution_send Json arguments_of JSON_stringify tool w session_id).1.1 in
  execution_call tool w session_id = inr (o, request)
  ∧ (execution_send Json arguments_of JSON_stringify tool w session_id).1.2
    = [SocketWrite
         (Transport.frame
            (JSON_stringify seq (command_of request) (arguments_of request)));
       Correlator.SetTimeout 10000 (RequestTimeout seq (command_of request))]
  ∧ (execution_send Json arguments_of JSON_stringify tool w session_id).2 = inr seq
  ∧ heap sent !! o = Some session'
  ∧ (∀ c', dapClient session' = Some c' →
       pendingRequests c' !! seq = Some seq ∧ sequenceNumber c' = seq + 1)
  ∧ (tool ≠ debug_continue →
     ∀ answer, (execution_resume tool sent session_id answer).1 = sent)
  ∧ (∀ e, (execution_resume debug_continue sent session_id (Rejected e)).1 = sent)
  ∧ heap (execution_resume debug_continue sent session_id (Resolved ())).1 !! o
    = Some (with_state running session')
  ∧ heap (on_continued sent o) !! o = Some (with_state running session').
Proof.
  intros Hg Hid Hc Hconn Hsock Ht Hne request seq session' sent.
  pose proof Hg as [Hreg Hs]%getSession_Some.
  assert (execution_call tool w session_id = inr (o, request)) as Hcall.
  { destruct tool; cbn;
      unfold debug_continue_call, debug_step_over_call, debug_step_in_call,
        debug_step_out_call;
      by rewrite (active_thread_Some _ _ _ _ _ _ Hg Hc Ht Hne). }
  assert (invoke Json arguments_of JSON_stringify c request
          = sendRequest Json JSON_stringify c (command_of request)
              (arguments_of request)) as Hinvoke by (by destruct tool).
  assert (sendRequest Json JSON_stringify c (command_of request)
            (arguments_of request)
          = ({| socket := socket c; connected := connected c;
                sequenceNumber := seq + 1;
                pendingRequests := <[seq := seq]> (pendingRequests c);
                messageBuffer := messageBuffer c |},
             [SocketWrite
                (Transport.frame
                   (JSON_stringify seq (command_of request) (arguments_of request)));
              Correlator.SetTimeout 10000 (RequestTimeout seq (command_of request))],
             Awaiting seq)) as Hsend.
  { unfold sendRequest. rewrite Hconn, Hsock. reflexivity. }
  assert (execution_send Json arguments_of JSON_stringify tool w session_id
          = (update_object o (with_client
                                (Some (invoke Json arguments_of JSON_stringify c
                                         request).1.1)) w,
             [SocketWrite
                (Transport.frame
                   (JSON_stringify seq (command_of request) (arguments_of request)));
              Correlator.SetTimeout 10000 (RequestTimeout seq (command_of request))],
             inr seq)) as Hsent.
  { unfold execution_send. rewrite Hcall, Hs. cbn [mbind option_bind].
    rewrite Hc, Hinvoke, Hsend. reflexivity. }
  assert (getSession sent session_id = Some (o, session')) as Hg'.
  { subst sent. rewrite Hsent. cbn [fst]. apply getSession_Some.
    rewrite sessions_update_object, lookup_update_object, decide_True, Hs by done.
    done. }
  split_and!.
  - exact Hcall.
  - by rewrite Hsent.
  - by rewrite Hsent.
  - by apply getSession_Some in Hg' as [_ ?].
  - intros c' [= <-]. rewrite Hinvoke, Hsend. cbn.
    split; [apply lookup_insert_eq|done].
  - intros Htool answer. destruct tool, answer; done.
  - done.
  - cbn. by apply updateSessionState_lookup.
  - unfold on_continued, handler_state.
    pose proof Hg' as [_ Hs']%getSession_Some. rewrite Hs'.
    assert (id session' = session_id) as -> by done.
    by apply updateSessionState_lookup.
Qed.

End ExecutionControl.

Lemma execution_control_witness :
  (execution_send unit no_arguments no_text debug_step_over at_breakpoint "s1").1.2
  = [SocketWrite (Transport.frame []);
     Correlator.SetTimeout 10000 (RequestTimeout 4 "next")]
  ∧ (∀ answer,
       (execution_resume debug_step_over
          (execution_send unit no_arguments no_text debug_step_over at_breakpoint
             "s1").1.1 "s1" answer).1
       = (execution_send unit no_arguments no_text debug_step_over at_breakpoint
            "s1").1.1)
  ∧ state <$> heap (on_continued
                      (execution_send unit no_arguments no_text debug_step_over
                         at_breakpoint "s1").1.1 0%nat) !! 0%nat
    = Some running.
Proof.
  destruct (heap at_breakpoint !! 0%nat) as [session|] eqn:Hs;
    [|vm_compute in Hs; discriminate].
  assert (Some session = heap at_breakpoint !! 0%nat) as Hs' by done.
  vm_compute in Hs'. injection Hs' as Hs'.
  assert (getSession at_breakpoint "s1" = Some (0%nat, session)) as Hg.
  { apply getSession_Some. split; [reflexivity | exact Hs]. }
  destruct (execution_control no_arguments no_text debug_step_over at_breakpoint
              "s1" 0%nat session a_client {| sock_port := 5679 |} 1 Hg)
    as (_ & H2 & _ & _ & _ & H6 & _ & _ & H9);
    [by subst session..| discriminate |].
  split_and!; [exact H2 | apply H6; discriminate |].
  apply (f_equal (fmap state)) in H9. exact H9.
Defined.

(** C1, where it fails as stated: a paused session is set to Running by the
    answer to [continue], no ['continued'] event having arrived. *)
Lemma continue_response_sets_running :
  state <$> heap at_breakpoint !! 0%nat = Some paused
  ∧ debug_continue_call at_breakpoint "s1" = inr (0%nat, OpContinue 1)
  ∧ state <$> heap (debug_continue_resume at_breakpoint "s1" (Resolved ())).1 !! 0%nat
    = Some running.
Proof. split_and!; vm_compute; reflexivity. Qed.

(** *** Termination *)

Lemma forceKill_sends (w : World) (o : ref) (session : DebugSession)
    (p : ChildProcess) :
  heap w !! o = Some session → pythonProcess session = Some p → killed p = false →
  (forceKill w o).2 = [Kill o SIGKILL].
Proof. intros Hs Hp Hk. unfold forceKill. by rewrite Hs, Hp, Hk. Qed.

(** C3 (as amended).  For a registered session, in whatever state,
    [terminateSession] ends the client's socket, sends SIGTERM to the owned
    process if none of its signals was delivered before, starts a 2-second
    timer for the forced kill and no other timer, sends no SIGKILL itself,
    sets the state to Stopped and removes the session from the registry.
    What the callback of the timer does is not part of the statement. *)
Theorem terminate_session (w : World) (session_id : string) (o : ref)
    (session : DebugSession) :
  getSession w session_id = Some (o, session) →
  sessions (terminateSession w session_id).1 !! session_id = None
  ∧ (∃ s', heap (terminateSession w session_id).1 !! o = Some s'
           ∧ state s' = stopped ∧ dapClient s' = None)
  ∧ (∀ c sock, dapClient session = Some c → socket c = Some sock →
       SocketEnd o ∈ (terminateSession w session_id).2)
  ∧ (∀ p, pythonProcess session = Some p → killed p = false →
       ∃ before after,
         (terminateSession w session_id).2
         = before ++ [Kill o SIGTERM; SetTimeout 2000 (ForceKill o)] ++ after)
  ∧ (∀ ms callback,
       SetTimeout ms callback ∈ (terminateSession w session_id).2 →
       ms = 2000 ∧ callback = ForceKill o)
  ∧ (∀ o', Kill o' SIGKILL ∉ (terminateSession w session_id).2).
Proof.
  intros Hg. pose proof Hg as [Hreg Hs]%getSession_Some.
  unfold terminateSession. rewrite Hg. split_and!.
  - destruct (pythonProcess session) as [p|]; [destruct (negb (killed p))|];
      cbn; apply lookup_delete_eq.
  - destruct (pythonProcess session) as [p|]; [destruct (negb (killed p))|];
      cbn [fst unregister heap];
      rewrite !lookup_update_object, !decide_True, Hs by done;
      cbn; eauto.
  - intros c sock Hc Hsock. rewrite Hc, Hsock.
    destruct (pythonProcess session) as [p|]; [destruct (negb (killed p))|];
      cbn; set_solver.
  - intros p Hp Hk. rewrite Hp, Hk. cbn [negb snd].
    eexists _, _. reflexivity.
  - intros ms callback.
    destruct (dapClient session) as [c|]; [destruct (socket c)|];
      (destruct (pythonProcess session) as [p|]; [destruct (negb (killed p))|]);
      cbn; intros Hin;
      repeat (apply elem_of_cons in Hin as [Hin|Hin]; [by simplify_eq|]);
      by apply elem_of_nil in Hin.
  - intros o'.
    destruct (dapClient session) as [c|]; [destruct (socket c)|];
      (destruct (pythonProcess session) as [p|]; [destruct (negb (killed p))|]);
      cbn; intros Hin;
      repeat (apply elem_of_cons in Hin as [Hin|Hin]; [by simplify_eq|]);
      by apply elem_of_nil in Hin.
Qed.

Lemma terminate_session_witness :
  sessions (terminateSession started "s1").1 !! "s1" = None
  ∧ SocketEnd 0%nat ∈ (terminateSession started "s1").2.
Proof.
  destruct (heap started !! 0%nat) as [session|] eqn:Hs;
    [|vm_compute in Hs; discriminate].
  assert (Some session = heap started !! 0%nat) as Hs' by done.
  vm_compute in Hs'. injection Hs' as Hs'.
  assert (getSession started "s1" = Some (0%nat, session)) as Hg.
  { apply getSession_Some. split; [reflexivity | exact Hs]. }
  destruct (terminate_session started "s1" 0%nat session Hg)
    as (H1 & _ & H3 & _).
  split; [exact H1|]. apply (H3 a_client {| sock_port := 5679 |}); by subst session.
Defined.

(** C3, where it fails as stated: the timer for the forced kill is set to
    2 seconds, not 5. *)
Lemma forced_kill_after_two_seconds :
  (terminateSession started "s1").2
  = [SocketEnd 0%nat; Kill 0%nat SIGTERM; SetTimeout 2000 (ForceKill 0%nat);
     RemoveSessionState "s1"]
  ∧ SetTimeout 5000 (ForceKill 0%nat) ∉ (terminateSession started "s1").2.
Proof.
  assert ((terminateSession started "s1").2
          = [SocketEnd 0%nat; Kill 0%nat SIGTERM; SetTimeout 2000 (ForceKill 0%nat);
             RemoveSessionState "s1"]) as H by (vm_compute; reflexivity).
  split; [exact H|]. rewrite H. intros Hin.
  repeat (apply elem_of_cons in Hin as [Hin|Hin]; [discriminate|]).
  by apply elem_of_nil in Hin.
Qed.

(** A delivered SIGTERM marks the handle [killed], so the timer
    [terminateSession] started finds nothing left to do. *)
Lemma forceKill_after_terminate :
  (forceKill (terminateSession started "s1").1 0%nat).2 = [].
Proof. vm_compute. reflexivity. Qed.

(** *** Breakpoint ids and lines *)

Lemma id_or_index_omitted (index : nat) : id_or_index None index = Z.of_nat index.
Proof. reflexivity. Qed.

Lemma id_or_index_supplied (n : Z) (index : nat) :
  n ≠ 0 → id_or_index (Some n) index = n.
Proof. intros Hn. unfold id_or_index. cbn. by destruct (Z.eqb_spec n 0). Qed.

(** The entry cached for the answer at position [index]: the line sent at
    that position, and the adapter's id unless it is omitted (or 0). *)
Lemma response_breakpoints_lookup (file : string) (lines : list (option Z))
    (bps : list BreakpointReply) (index : nat) (bp : BreakpointReply) :
  bps !! index = Some bp →
  response_breakpoints file lines bps !! index
  = Some {| bp_id := id_or_index (rb_id bp) index; bp_file := file;
            bp_line := mjoin (lines !! index); bp_verified := rb_verified bp |}.
Proof.
  intros Hbp. unfold response_breakpoints. by rewrite list_lookup_imap, Hbp.
Qed.

(** C7, at an answer that numbers a breakpoint 0: the id the adapter
    supplied for the second line is dropped and the array index 1 is cached
    in its place.  Lines keep their positions. *)
Theorem adapter_id_zero_replaced :
  bp_id <$> response_breakpoints "/t/a.py" [Some 10; Some 20] zero_id_reply = [5; 1]
  ∧ bp_line <$> response_breakpoints "/t/a.py" [Some 10; Some 20] zero_id_reply
    = [Some 10; Some 20].
Proof. split; reflexivity. Qed.

(** Breakpoints at lines 10 and then 20 of one file: the second request
    carries both lines in that order, and removing line 10 asks for line 20
    alone. *)
Example breakpoint_replacement :
  let w1 := (set_breakpoint started "s1" "/t/a.py" 10 (Resolved ()) verifying_adapter).1 in
  let w2 := (set_breakpoint w1 "s1" "/t/a.py" 20 (Resolved ()) verifying_adapter).1 in
  lines_to_set started "s1" "/t/a.py" 10 = [Some 10]
  ∧ lines_to_set w1 "s1" "/t/a.py" 20 = [Some 10; Some 20]
  ∧ lines_to_keep w2 "s1" "/t/a.py" 10 = [Some 20]
  ∧ bp_id <$> getBreakpoints w2 "s1" (Some "/t/a.py") = [0; 1].
Proof. split_and!; vm_compute; reflexivity. Qed.

(** *** Setting the same breakpoint again and again *)

Lemma occurrences_none (line : Z) (bps : list Breakpoint) :
  Some line ∉ bp_line <$> bps → occurrences line bps = 0%nat.
Proof.
  unfold occurrences. induction bps as [|bp bps IH]; [done|].
  cbn [fmap list_fmap]. intros Hnot.
  rewrite filter_cons_False by (intros Heq; apply Hnot; rewrite Heq; set_solver).
  apply IH. set_solver.
Qed.

Lemma occurrences_once (line : Z) (bps : list Breakpoint) :
  distinct_lines bps → Some line ∈ bp_line <$> bps → occurrences line bps = 1%nat.
Proof.
  unfold occurrences, distinct_lines.
  induction bps as [|bp bps IH]; cbn [fmap list_fmap omap list_omap].
  - intros _ Hin. by apply elem_of_nil in Hin.
  - intros Hnd Hin. destruct (decide (bp_line bp = Some line)) as [Heq|Hne].
    + rewrite filter_cons_True by done. cbn. f_equal.
      rewrite Heq in Hnd. apply NoDup_cons in Hnd as [Hfresh _].
      apply occurrences_none. intros Hin'. apply Hfresh.
      apply list_elem_of_fmap in Hin' as (bp' & Hl & Hbp').
      apply list_elem_of_omap. by exists bp'.
    + rewrite filter_cons_False by done. apply IH.
      * destruct (bp_line bp); [by apply NoDup_cons in Hnd as [_ ?]|done].
      * apply elem_of_cons in Hin as [Hin|Hin]; [congruence|done].
Qed.

Lemma lines_to_set_has (w : World) (i f : string) (line : Z) :
  Some line ∈ lines_to_set w i f line.
Proof. unfold lines_to_set. case_bool_decide; set_solver. Qed.

Lemma setBreakpoints_session (w : World) (i f : string) (o : ref)
    (s : DebugSession) (bps : list Breakpoint) :
  getSession w i = Some (o, s) →
  getSession (setBreakpoints w i f bps) i
  = Some (o, with_breakpoints (<[f := bps]> (breakpoints s)) s).
Proof.
  intros Hg. unfold setBreakpoints. rewrite Hg.
  apply getSession_Some in Hg as [Hreg Hs]. apply getSession_Some. split; [done|].
  by rewrite lookup_update_object, decide_True, Hs.
Qed.

Lemma set_breakpoint_keeps_session (w : World) (i f : string) (line : Z)
    (validation : Reply unit) (adapter : Adapter) (o : ref) (c : DAPClient) :
  connected_session w i o c →
  connected_session (set_breakpoint w i f line validation adapter).1 i o c.
Proof.
  intros (s & Hg & Hc). unfold set_breakpoint. rewrite Hg, Hc.
  destruct (line <? 1); [by exists s|]. destruct validation; [|by exists s].
  destruct (adapter f (lines_to_set w i f line)) as [[[[bps|]]|]|];
    try by exists s.
  cbn [fst]. eexists. split; [by apply setBreakpoints_session|done].
Qed.

(** One call answered by a conformant adapter: the line is cached exactly
    once for the file. *)
Lemma set_breakpoint_once (ids : list string) (w : World) (i f : string)
    (line : Z) (adapter : Adapter) (o : ref) (c : DAPClient) :
  wf ids w → connected_session w i o c → f ≠ EmptyString → 1 ≤ line → conformant adapter →
  occurrences line
    (getBreakpoints (set_breakpoint w i f line (Resolved ()) adapter).1 i (Some f))
  = 1%nat.
Proof.
  intros Hwf (s & Hg & Hc) Hf Hline Hadapter.
  unfold set_breakpoint. rewrite Hg, Hc.
  assert ((line <? 1) = false) as -> by (apply Z.ltb_ge; lia).
  destruct (Hadapter f (lines_to_set w i f line)) as (bps & -> & Hlen).
  cbn [fst].
  rewrite (getBreakpoints_file _ _ _ _ _ (setBreakpoints_session _ _ f _ _ _ Hg) Hf).
  cbn. rewrite lookup_insert_eq. cbn.
  apply occurrences_once.
  - apply response_breakpoints_distinct. by eapply lines_to_set_distinct.
  - rewrite response_breakpoints_lines by done. apply lines_to_set_has.
Qed.

Lemma set_breakpoint_repeatedly_keeps (ids : list string) (adapters : list Adapter)
    (w : World) (i f : string) (line : Z) (o : ref) (c : DAPClient) :
  wf ids w → connected_session w i o c →
  wf ids (set_breakpoint_repeatedly w i f line adapters)
  ∧ connected_session (set_breakpoint_repeatedly w i f line adapters) i o c.
Proof.
  revert w. induction adapters as [|a adapters IH]; intros w Hwf Hc; [done|].
  cbn. apply IH; [by apply set_breakpoint_wf | by apply set_breakpoint_keeps_session].
Qed.

(** C8.  On a session with a client, for a file path [file] and a line
    [line >= 1]: after one or more calls of [set_breakpoint(file, line)],
    each on a validated connection and answered by the adapter with one
    entry per line sent, [list_breakpoints(file)] returns a list in which
    [line] occurs exactly once. *)
Theorem breakpoint_listed_once (steps : list Step) (session_id file : string)
    (line : Z) (adapters : list Adapter) (o : ref) (session : DebugSession)
    (c : DAPClient) :
  fresh_ids steps →
  getSession (run initial steps) session_id = Some (o, session) →
  dapClient session = Some c →
  file ≠ EmptyString →
  1 ≤ line →
  adapters ≠ [] →
  Forall conformant adapters →
  ∃ bps,
    list_breakpoints
      (set_breakpoint_repeatedly (run initial steps) session_id file line adapters)
      session_id (Some file) = inr bps
    ∧ occurrences line bps = 1%nat.
Proof.
  intros Hfresh Hg Hc Hfile Hline Hne Hall.
  destruct (exists_last Hne) as (adapters' & a & ->).
  apply Forall_app in Hall as [_ Ha]. apply Forall_inv in Ha.
  unfold set_breakpoint_repeatedly. rewrite fold_left_app. cbn [fold_left].
  fold (set_breakpoint_repeatedly (run initial steps) session_id file line adapters').
  destruct (set_breakpoint_repeatedly_keeps (created steps) adapters'
              (run initial steps) session_id file line o c)
    as [Hwf Hconn]; [by apply run_wf | by exists session |].
  eexists. split.
  - unfold list_breakpoints.
    destruct (set_breakpoint_keeps_session _ _ file line (Resolved ()) a _ _ Hconn)
      as (s' & -> & _). reflexivity.
  - by eapply set_breakpoint_once.
Qed.

Lemma breakpoint_listed_once_witness :
  ∃ bps,
    list_breakpoints
      (set_breakpoint_repeatedly started "s1" "/t/a.py" 25
         [verifying_adapter; verifying_adapter; verifying_adapter])
      "s1" (Some "/t/a.py") = inr bps
    ∧ occurrences 25 bps = 1%nat.
Proof.
  destruct (heap started !! 0%nat) as [session|] eqn:Hs;
    [|vm_compute in Hs; discriminate].
  assert (Some session = heap started !! 0%nat) as Hs' by done.
  vm_compute in Hs'. injection Hs' as Hs'.
  apply (breakpoint_listed_once started_steps "s1" "/t/a.py" 25
           [verifying_adapter; verifying_adapter; verifying_adapter]
           0%nat session a_client).
  - unfold fresh_ids. cbn. apply NoDup_singleton.
  - apply getSession_Some. split; [reflexivity | exact Hs].
  - by subst session.
  - discriminate.
  - lia.
  - discriminate.
  - repeat constructor; intros f lines; eexists; (split; [reflexivity|]);
      apply length_fmap.
Defined.

(** *** Ports *)

Lemma portCounter_exec (w : World) (st : Step) :
  portCounter (exec w st) = portCounter w + Z.of_nat (length (created [st])).
Proof.
  destruct st; cbn [exec created omap list_omap length]; rewrite ?Z.add_0_r;
    try reflexivity.
  - unfold init_threads. by repeat case_match.
  - unfold init_frames. by repeat case_match.
  - unfold updateSessionState. by repeat case_match.
  - unfold on_stopped, updateSessionState. by repeat case_match.
  - unfold on_stopped_frames. by repeat case_match.
  - unfold on_continued, handler_state, updateSessionState. by repeat case_match.
  - unfold on_terminated, handler_state, updateSessionState. by repeat case_match.
  - unfold on_exited, handler_state, updateSessionState. by repeat case_match.
  - destruct tool, answer; cbn; try done.
    unfold updateSessionState. by repeat case_match.
  - unfold terminateSession. repeat case_match; by simplify_eq.
  - unfold forceKill. by repeat case_match.
  - unfold set_breakpoint, setBreakpoints. by repeat case_match.
  - unfold remove_breakpoint, setBreakpoints. by repeat case_match.
Qed.

Lemma portCounter_run (steps : list Step) (w : World) :
  portCounter (run w steps) = portCounter w + Z.of_nat (length (created steps)).
Proof.
  revert w. induction steps as [|st steps IH]; intros w; [cbn; lia|].
  rewrite run_cons, IH, portCounter_exec.
  change (st :: steps) with ([st] ++ steps). rewrite created_app, length_app. lia.
Qed.

(** Ports are handed out in order: whatever happened before, the session
    created after [k] others gets port [5679 + k], and an attach that
    overrides its own session's port does not disturb the count. *)
Theorem ports_in_order (steps : list Step) (sessionId path : string) :
  port <$> (heap (createSession (run initial steps) sessionId path).1
              !! (createSession (run initial steps) sessionId path).2)
  = Some (5679 + Z.of_nat (length (created steps))).
Proof.
  cbn. rewrite lookup_insert_eq. cbn. rewrite portCounter_run. cbn. f_equal. lia.
Qed.

(** *** States that are never entered *)

Lemma update_object_Forall (P : DebugSession → Prop) (w : World) (o : ref)
    (f : DebugSession → DebugSession) :
  (∀ s, P s → P (f s)) → heap_Forall P w → heap_Forall P (update_object o f w).
Proof.
  intros Hf Hw o' s'. rewrite lookup_update_object. case_decide as Ho.
  - destruct (heap w !! o) as [s|] eqn:Hs; [|done]. cbn. intros [= <-]. eauto.
  - apply Hw.
Qed.

Lemma unregister_Forall (P : DebugSession → Prop) (w : World) (i : string) :
  heap_Forall P w → heap_Forall P (unregister i w).
Proof. done. Qed.

Ltac states_kept :=
  repeat first
    [ assumption
    | apply unregister_Forall
    | apply update_object_Forall; [by (intros ? ?; cbn)|] ].

Lemma exec_state_avoids (bad : State) (w : World) (st : Step) :
  bad ≠ starting → bad ≠ running → bad ≠ stopped →
  (bad = paused → not_a_stop st) →
  heap_Forall (fun s => state s ≠ bad) w →
  heap_Forall (fun s => state s ≠ bad) (exec w st).
Proof.
  intros H1 H2 H3 Hstop Hw. destruct st; cbn [exec].
  - intros o s. cbn. intros [[<- <-]|[_ Hs]]%lookup_insert_Some; [by cbn|].
    by eapply Hw.
  - unfold install. states_kept.
  - states_kept.
  - unfold init_threads. repeat case_match; cbn [fst]; states_kept.
  - unfold init_frames. repeat case_match; states_kept.
  - unfold updateSessionState. repeat case_match; states_kept.
  - unfold on_stopped, updateSessionState.
    destruct (heap w !! o) as [session|]; [|done].
    destruct (truthy (stopped_threadId body)) eqn:Ht; [|done].
    assert (bad ≠ paused) by (intros ->; specialize (Hstop eq_refl); cbn in Hstop;
                              congruence).
    cbn [negb]. repeat case_match; cbn [fst]; states_kept.
  - unfold on_stopped_frames. repeat case_match; states_kept.
  - unfold on_continued, handler_state, updateSessionState.
    repeat case_match; states_kept.
  - unfold on_terminated, handler_state, updateSessionState.
    repeat case_match; states_kept.
  - unfold on_exited, handler_state, updateSessionState.
    repeat case_match; states_kept.
  - states_kept.
  - destruct tool, answer; cbn; try done.
    unfold updateSessionState. repeat case_match; states_kept.
  - unfold terminateSession. repeat case_match; simplify_eq; cbn [fst]; states_kept.
  - unfold forceKill. repeat case_match; cbn [fst]; states_kept.
  - unfold set_breakpoint, setBreakpoints. repeat case_match; cbn [fst]; states_kept.
  - unfold remove_breakpoint, setBreakpoints. repeat case_match; cbn [fst]; states_kept.
Qed.

Lemma run_state_avoids (bad : State) (steps : list Step) (w : World) :
  bad ≠ starting → bad ≠ running → bad ≠ stopped →
  (bad = paused → Forall not_a_stop steps) →
  heap_Forall (fun s => state s ≠ bad) w →
  heap_Forall (fun s => state s ≠ bad) (run w steps).
Proof.
  intros H1 H2 H3. revert w.
  induction steps as [|st steps IH]; intros w Hstop Hw; [done|].
  rewrite run_cons. apply IH.
  - intros Hb. by apply Forall_cons in Hstop as [_ ?].
  - apply exec_state_avoids; try done. intros Hb. by apply Forall_cons in Hstop as [? _].
Qed.

Lemma getAllSessions_Forall (P : DebugSession → Prop) (w : World) :
  heap_Forall P w → Forall P (getAllSessions w).
Proof.
  intros Hw. apply Forall_forall. intros s Hs.
  apply list_elem_of_omap in Hs as ([i o] & _ & Hs). by eapply Hw.
Qed.

Lemma count_states (ss : list DebugSession) :
  Forall (fun s => state s ≠ error) ss →
  length ss
  = (count_state starting ss + count_state running ss + count_state paused ss
     + count_state stopped ss)%nat.
Proof.
  unfold count_state. induction 1 as [|s ss Hs _ IH]; [done|].
  rewrite !filter_cons. cbn [length].
  destruct (state s); repeat case_decide; try done; cbn [length]; lia.
Qed.

(** No session object of the [SessionManager] ever enters the Error state,
    whatever the server goes through (only the debug panel's copy of the
    state is ever set to it); so the sessions counted as running, paused and
    stopped by [getSessionStats], and those still starting, add up to its
    total. *)
Theorem never_in_error (steps : list Step) :
  heap_Forall (fun s => state s ≠ error) (run initial steps)
  ∧ stats_total (getSessionStats (run initial steps))
    = (count_state starting (getAllSessions (run initial steps))
       + stats_running (getSessionStats (run initial steps))
       + stats_paused (getSessionStats (run initial steps))
       + stats_stopped (getSessionStats (run initial steps)))%nat.
Proof.
  assert (heap_Forall (fun s => state s ≠ error) (run initial steps)) as Hno.
  { apply run_state_avoids; try done;
      intros o s Hs; cbn in Hs; by rewrite lookup_empty in Hs. }
  split; [done|]. cbn. by apply count_states, getAllSessions_Forall.
Qed.

(** A session is only ever paused by a ['stopped'] event that names a
    thread: as long as none arrives, no session is in state Paused. *)
Theorem paused_only_by_stop (steps : list Step) :
  Forall not_a_stop steps →
  heap_Forall (fun s => state s ≠ paused) (run initial steps).
Proof.
  intros Hsteps. apply run_state_avoids; try done;
    intros o s Hs; cbn in Hs; by rewrite lookup_empty in Hs.
Qed.

Lemma paused_only_by_stop_witness :
  heap_Forall (fun s => state s ≠ paused)
    (run initial
       (started_steps
        ++ [SStopped 0%nat {| stopped_reason := "pause"; stopped_threadId := None |};
            SStoppedFrames 0%nat (fun _ => Resolved [a_frame]);
            SResume debug_continue "s1" (Resolved ())])).
Proof.
  apply paused_only_by_stop. repeat constructor.
Defined.

(** *** After termination *)

Lemma update_object_detached (w : World) (o o' : ref)
    (f : DebugSession → DebugSession) :
  (o' ≠ o ∨ ∀ s, state (f s) = state s) →
  detached w o → detached (update_object o' f w) o.
Proof.
  intros Hf (Hreg & Hnext & s & Hs & Hst). split_and!; [done..|].
  rewrite lookup_update_object. case_decide as Ho.
  - subst o'. destruct Hf as [?|Hf]; [done|]. rewrite Hs. cbn.
    eexists. split; [done|]. by rewrite Hf.
  - by exists s.
Qed.

Lemma unregister_detached (w : World) (o : ref) (i : string) :
  detached w o → detached (unregister i w) o.
Proof.
  intros (Hreg & Hnext & Hs). split_and!; [|done..].
  intros j Hj. cbn in Hj. apply lookup_delete_Some in Hj as [_ Hj]. by eapply Hreg.
Qed.

Lemma getSession_not_detached (w : World) (i : string) (o o' : ref)
    (s : DebugSession) :
  detached w o → getSession w i = Some (o', s) → o' ≠ o.
Proof.
  intros (Hreg & _) [Hi _]%getSession_Some ->. by eapply Hreg.
Qed.

Ltac detached_kept :=
  repeat first
    [ assumption
    | apply unregister_detached
    | apply update_object_detached;
        [first [by right | left; by eapply getSession_not_detached]|] ].

Lemma updateSessionState_detached (w : World) (o : ref) (i : string) (st : State) :
  detached w o → detached (updateSessionState w i st) o.
Proof.
  intros Hd. unfold updateSessionState.
  destruct (getSession w i) as [[o' s]|] eqn:Hg; [|done]. detached_kept.
Qed.

Lemma update_keeps_getSession (w : World) (o : ref) (f : DebugSession → DebugSession)
    (i : string) (o' : ref) (s' : DebugSession) :
  getSession (update_object o f w) i = Some (o', s') →
  ∃ s, getSession w i = Some (o', s).
Proof.
  intros [Hi Hs]%getSession_Some. rewrite sessions_update_object in Hi.
  rewrite lookup_update_object in Hs.
  case_decide; [subst; destruct (heap w !! o) as [s|] eqn:E; [|done]|];
    eexists; by apply getSession_Some.
Qed.

Lemma exec_detached (w : World) (st : Step) (o : ref) :
  detached w o → detached (exec w st) o.
Proof.
  intros Hd. destruct st; cbn [exec].
  - destruct Hd as (Hreg & Hnext & s & Hs & Hst). split_and!; cbn.
    + intros i [[_ <-]|[_ Hi]]%lookup_insert_Some; [lia|by eapply Hreg].
    + lia.
    + exists s. split; [|done]. rewrite lookup_insert_ne by lia. done.
  - unfold install. detached_kept.
  - detached_kept.
  - unfold init_threads. repeat case_match; cbn [fst]; detached_kept.
  - unfold init_frames. repeat case_match; detached_kept.
  - by apply updateSessionState_detached.
  - unfold on_stopped. repeat case_match; cbn [fst]; try done.
    apply updateSessionState_detached. detached_kept.
  - unfold on_stopped_frames. repeat case_match; detached_kept.
  - unfold on_continued, handler_state. case_match; [|done].
    by apply updateSessionState_detached.
  - unfold on_terminated, handler_state. case_match; [|done].
    by apply updateSessionState_detached.
  - unfold on_exited, handler_state. case_match; [|done].
    by apply updateSessionState_detached.
  - detached_kept.
  - destruct tool, answer; cbn; try done. by apply updateSessionState_detached.
  - unfold terminateSession.
    destruct (getSession w sessionId) as [[o' s]|] eqn:Hg; [|done].
    pose proof (getSession_not_detached _ _ _ _ _ Hd Hg) as Hne.
    repeat case_match; simplify_eq; cbn [fst];
      repeat first [ assumption | apply unregister_detached
                   | apply update_object_detached; [by left|] ].
  - unfold forceKill. repeat case_match; cbn [fst]; detached_kept.
  - unfold set_breakpoint, setBreakpoints. repeat case_match; cbn [fst]; detached_kept.
  - unfold remove_breakpoint, setBreakpoints. repeat case_match; cbn [fst]; detached_kept.
Qed.

Lemma run_detached (steps : list Step) (w : World) (o : ref) :
  detached w o → detached (run w steps) o.
Proof.
  revert w. induction steps as [|st steps IH]; intros w Hd; [done|].
  rewrite run_cons. by apply IH, exec_detached.
Qed.

Lemma terminateSession_detached (ids : list string) (w : World) (i : string)
    (o : ref) (s : DebugSession) :
  wf ids w → getSession w i = Some (o, s) →
  detached (terminateSession w i).1 o.
Proof.
  intros Hwf Hg. pose proof Hg as [Hi Hs]%getSession_Some.
  assert (∀ j, sessions w !! j = Some o → j = i) as Hinj.
  { intros j Hj. destruct (wf_registry _ _ Hwf _ _ Hj) as (s1 & Hs1 & <-).
    destruct (wf_registry _ _ Hwf _ _ Hi) as (s2 & Hs2 & <-). congruence. }
  assert (o < nextObject w)%nat as Hnext by (eapply wf_next; eauto).
  unfold terminateSession. rewrite Hg.
  destruct (pythonProcess s) as [p|]; [destruct (negb (killed p))|];
    cbn [fst]; (split_and!;
      [ cbn; intros j [Hne Hj]%lookup_delete_Some; apply Hne; symmetry; by apply Hinj
      | exact Hnext
      | cbn [unregister heap];
        rewrite !lookup_update_object, !decide_True, Hs by done; cbn; eauto ]).
Qed.

(** Once a session has been terminated, its object stays out of the
    registry, no identifier leading to it, and its state stays Stopped: no
    event that still reaches its handlers, no tool call and no timer
    changes that afterwards. *)
Theorem stopped_for_good (steps after : list Step) (session_id : string)
    (o : ref) (session : DebugSession) :
  fresh_ids steps →
  getSession (run initial steps) session_id = Some (o, session) →
  (∀ i, sessions (run (terminateSession (run initial steps) session_id).1 after) !! i
        ≠ Some o)
  ∧ state <$> (heap (run (terminateSession (run initial steps) session_id).1 after)
                 !! o)
    = Some stopped.
Proof.
  intros Hfresh Hg.
  destruct (run_detached after _ o
              (terminateSession_detached _ _ _ _ _ (run_wf _ Hfresh) Hg))
    as (Hout & _ & s & Hs & Hst).
  split; [exact Hout|]. rewrite Hs. cbn. by rewrite Hst.
Qed.

Lemma stopped_for_good_witness :
  (∀ i, sessions (run (terminateSession at_breakpoint "s1").1
                    [SContinued 0%nat;
                     SStopped 0%nat {| stopped_reason := "step";
                                       stopped_threadId := Some 1 |};
                     SResume debug_continue "s1" (Resolved ())]) !! i
        ≠ Some 0%nat)
  ∧ state <$> (heap (run (terminateSession at_breakpoint "s1").1
                       [SContinued 0%nat;
                        SStopped 0%nat {| stopped_reason := "step";
                                          stopped_threadId := Some 1 |};
                        SResume debug_continue "s1" (Resolved ())]) !! 0%nat)
    = Some stopped.
Proof.
  destruct (heap at_breakpoint !! 0%nat) as [session|] eqn:Hs;
    [|vm_compute in Hs; discriminate].
  apply (stopped_for_good stopped_steps _ "s1" 0%nat session).
  - unfold fresh_ids. cbn. apply NoDup_singleton.
  - apply getSession_Some. split; [reflexivity | exact Hs].
Defined.

(** *** Terminating one session, and all of them *)

(** [terminateSession] is its two halves run one after the other. *)
Lemma terminateSession_halves (w : World) (i : string) :
  terminateSession w i
  = match (terminate_close w i) with
    | (w1, e1, Some o) =>
        ((terminate_rest w1 i o).1, e1 ++ (terminate_rest w1 i o).2)
    | (w1, e1, None) => (w1, e1)
    end.
Proof.
  unfold terminateSession, terminate_close.
  destruct (getSession w i) as [[o session]|] eqn:Hg; [|done].
  pose proof Hg as [Hi Hs]%getSession_Some.
  destruct (dapClient session) as [c|] eqn:Hc.
  - unfold terminate_rest. rewrite lookup_update_object, decide_True, Hs by done.
    cbn [fmap option_fmap option_map with_client pythonProcess].
    assert (update_object o (with_client None)
              (update_object o (with_client (Some (drop_socket c))) w)
            = update_object o (with_client None) w) as ->.
    { unfold update_object. cbn. rewrite Hs, lookup_insert_eq. cbn.
      by rewrite insert_insert_eq. }
    destruct (pythonProcess session) as [p|]; [destruct (negb (killed p))|];
      cbn; by rewrite <- ?app_assoc.
  - unfold terminate_rest. rewrite Hs.
    destruct (pythonProcess session) as [p|]; [destruct (negb (killed p))|]; done.
Qed.

Lemma terminate_rest_spec (w : World) (i : string) (o : ref) (s : DebugSession) :
  heap w !! o = Some s →
  sessions (terminate_rest w i o).1 = delete i (sessions w)
  ∧ terminated (terminate_rest w i o).1 o
  ∧ ∀ o', o' ≠ o → heap (terminate_rest w i o).1 !! o' = heap w !! o'.
Proof.
  intros Hs. unfold terminate_rest. rewrite Hs.
  destruct (pythonProcess s) as [p|]; [destruct (negb (killed p))|];
    cbn [fst]; (split_and!;
      [ done
      | unfold terminated; cbn [unregister heap];
        rewrite !lookup_update_object, !decide_True, Hs by done; cbn; eauto
      | intros o' Ho'; cbn [unregister heap];
        by rewrite !lookup_update_object, !decide_False by done ]).
Qed.

Lemma terminated_rest (w : World) (i : string) (o o' : ref) :
  terminated w o' → terminated (terminate_rest w i o).1 o'.
Proof.
  intros Ht. destruct (heap w !! o) as [s|] eqn:Hs.
  - destruct (terminate_rest_spec w i o s Hs) as (_ & Hdone & Hother).
    destruct (decide (o' = o)) as [->|Hne]; [done|].
    destruct Ht as (s' & Hs' & ?). exists s'. by rewrite Hother.
  - unfold terminate_rest. by rewrite Hs.
Qed.

Lemma terminating_refl (w : World) : terminating w w.
Proof. split; eauto. Qed.

Lemma terminating_rest (w0 w : World) (i : string) (o : ref) :
  terminating w0 w → sessions w0 !! i = Some o → is_Some (heap w0 !! o) →
  terminating w0 (terminate_rest w i o).1
  ∧ sessions (terminate_rest w i o).1 !! i = None.
Proof.
  intros Htg Hi Ho. destruct (tg_heap _ _ Htg _ Ho) as [s Hs].
  destruct (terminate_rest_spec w i o s Hs) as (Hreg & Hdone & Hother).
  split; [split|].
  - intros j oj Hj. rewrite Hreg. destruct (decide (j = i)) as [->|Hne].
    + right. rewrite lookup_delete_eq. split; [done|]. congruence.
    + rewrite lookup_delete_ne by done.
      destruct (tg_progress _ _ Htg _ _ Hj) as [?|[? Ht]]; [by left|right].
      split; [done|]. by apply terminated_rest.
  - intros j oj. rewrite Hreg. intros [_ Hj]%lookup_delete_Some.
    by eapply tg_shrinks.
  - intros o' Ho'. destruct (decide (o' = o)) as [->|Hne].
    + destruct Hdone as (s' & -> & _). eauto.
    + rewrite Hother by done. by eapply tg_heap.
  - rewrite Hreg. apply lookup_delete_eq.
Qed.

Lemma terminating_close (w0 w : World) (i : string) (o : ref)
    (session : DebugSession) (c : DAPClient) :
  terminating w0 w →
  heap w !! o = Some session → dapClient session = Some c →
  terminating w0 (update_object o (with_client (Some (drop_socket c))) w).
Proof.
  intros Htg Hs Hc. split.
  - intros j oj Hj. rewrite sessions_update_object.
    destruct (tg_progress _ _ Htg _ _ Hj) as [?|[? (s' & Hs' & Hst & Hcl)]];
      [by left|right].
    split; [done|]. exists s'. split_and!; [|done..].
    rewrite lookup_update_object, decide_False; [done|].
    intros ->. congruence.
  - intros j oj. rewrite sessions_update_object. by eapply tg_shrinks.
  - intros o' Ho'. rewrite lookup_update_object. case_decide.
    + subst. rewrite Hs. cbn. eauto.
    + by eapply tg_heap.
Qed.

Lemma terminate_start_spec (w0 : World) (ids : list string) (w : World) :
  registry_sound w0 → terminating w0 w →
  terminating w0 (terminate_start w ids).1.1
  ∧ (∀ i o, (i, o) ∈ (terminate_start w ids).2 →
       sessions w0 !! i = Some o ∧ is_Some (heap w0 !! o))
  ∧ (∀ i, i ∈ ids →
       sessions (terminate_start w ids).1.1 !! i = None
       ∨ ∃ o, (i, o) ∈ (terminate_start w ids).2)
  ∧ (∀ i, sessions w !! i = None →
       sessions (terminate_start w ids).1.1 !! i = None).
Proof.
  intros Hsound. revert w. induction ids as [|i ids IH]; intros w Htg.
  - cbn. split_and!; [done| | |done].
    + intros i o Hin. by apply elem_of_nil in Hin.
    + intros i Hin. by apply elem_of_nil in Hin.
  - cbn [terminate_start].
    set (head := match getSession w i with
                 | None => (w, [], [])
                 | Some (o, session) =>
                     match dapClient session with
                     | Some _ =>
                         let '(w', e, _) := terminate_close w i in (w', e, [(i, o)])
                     | None =>
                         let '(w', e) := terminate_rest w i o in (w', e, [])
                     end
                 end).
    assert (terminating w0 head.1.1
            ∧ (∀ j o, (j, o) ∈ head.2 →
                 j = i ∧ sessions w0 !! j = Some o ∧ is_Some (heap w0 !! o))
            ∧ (sessions head.1.1 !! i = None ∨ ∃ o, (i, o) ∈ head.2)
            ∧ (∀ j, sessions w !! j = None → sessions head.1.1 !! j = None))
      as (Hh1 & Hh2 & Hh3 & Hh4).
    { unfold head. destruct (getSession w i) as [[o session]|] eqn:Hg.
      - pose proof Hg as [Hi Hs]%getSession_Some.
        pose proof (tg_shrinks _ _ Htg _ _ Hi) as Hi0.
        pose proof (Hsound _ _ Hi0) as Ho0.
        destruct (dapClient session) as [c|] eqn:Hc.
        + unfold terminate_close. rewrite Hg, Hc. cbn [fst snd]. split_and!.
          * by eapply terminating_close.
          * intros j o' Hin. apply list_elem_of_singleton in Hin.
            by injection Hin as -> ->.
          * right. exists o. set_solver.
          * intros j Hj. by rewrite sessions_update_object.
        + destruct (terminating_rest w0 w i o Htg Hi0 Ho0) as [Ht Hnone].
          destruct (terminate_rest w i o) as [w' e] eqn:Hrest. cbn [fst snd] in *.
          split_and!; [done| |by left|].
          * intros j o' Hin. by apply elem_of_nil in Hin.
          * intros j Hj. destruct (heap w !! o) as [s|] eqn:Hso.
            -- destruct (terminate_rest_spec w i o s Hso) as (Hreg & _).
               rewrite Hrest in Hreg. cbn in Hreg. rewrite Hreg.
               apply lookup_delete_None. by right.
            -- unfold terminate_rest in Hrest. rewrite Hso in Hrest.
               by injection Hrest as <- _.
      - cbn. split_and!; [done| | |done].
        + intros j o Hin. by apply elem_of_nil in Hin.
        + left. unfold getSession in Hg.
          destruct (sessions w !! i) as [o|] eqn:Hi; [|done].
          destruct (Hsound _ _ (tg_shrinks _ _ Htg _ _ Hi)) as [s0 Hs0].
          destruct (tg_heap _ _ Htg o) as [s Hs]; [eauto|]. by rewrite Hs in Hg. }
    destruct (IH head.1.1 Hh1) as (I1 & I2 & I3 & I4).
    destruct head as [[w1 e1] waiting]. cbn [fst snd] in *.
    destruct (terminate_start w1 ids) as [[w2 e2] waiting'] eqn:Hrec.
    cbn [fst snd] in *. split_and!.
    + done.
    + intros j o [Hin|Hin]%elem_of_app; [|by apply I2].
      by destruct (Hh2 _ _ Hin) as (_ & ? & ?).
    + intros j [->|Hin]%elem_of_cons.
      * destruct Hh3 as [Hnone|[o Ho]]; [left; by apply I4|].
        right. exists o. apply elem_of_app. by left.
      * destruct (I3 _ Hin) as [?|[o Ho]]; [by left|].
        right. exists o. apply elem_of_app. by right.
    + intros j Hj. by apply I4, Hh4.
Qed.

Lemma terminate_resume_spec (w0 : World) (waiting : list (string * ref)) (w : World) :
  terminating w0 w →
  (∀ i o, (i, o) ∈ waiting → sessions w0 !! i = Some o ∧ is_Some (heap w0 !! o)) →
  terminating w0 (terminate_resume w waiting).1
  ∧ (∀ i o, (i, o) ∈ waiting → sessions (terminate_resume w waiting).1 !! i = None)
  ∧ (∀ i, sessions w !! i = None → sessions (terminate_resume w waiting).1 !! i = None).
Proof.
  revert w. induction waiting as [|[i o] waiting IH]; intros w Htg Hwait.
  - cbn. split_and!; [done| |done]. intros i o Hin. by apply elem_of_nil in Hin.
  - cbn [terminate_resume].
    destruct (Hwait i o) as [Hi0 Ho0]; [set_solver|].
    destruct (terminating_rest w0 w i o Htg Hi0 Ho0) as [Ht Hnone].
    assert (∀ j, sessions w !! j = None → sessions (terminate_rest w i o).1 !! j = None)
      as Hkeep.
    { intros j Hj. destruct (tg_heap _ _ Htg _ Ho0) as [s Hs].
      destruct (terminate_rest_spec w i o s Hs) as (-> & _).
      apply lookup_delete_None. by right. }
    destruct (terminate_rest w i o) as [w1 e1]. cbn [fst snd] in *.
    destruct (IH w1 Ht) as (I1 & I2 & I3); [intros; apply Hwait; set_solver|].
    destruct (terminate_resume w1 waiting) as [w2 e2]. cbn [fst snd] in *.
    split_and!; [done| |].
    + intros j oj [Heq|Hin]%elem_of_cons; [|by eapply I2].
      injection Heq as -> ->. by apply I3.
    + intros j Hj. by apply I3, Hkeep.
Qed.

Lemma terminate_all_spec (w : World) (ids : list string) :
  registry_sound w →
  (∀ i, is_Some (sessions w !! i) → i ∈ ids) →
  sessions (terminate_all w ids).1 = ∅
  ∧ ∀ i o, sessions w !! i = Some o → terminated (terminate_all w ids).1 o.
Proof.
  intros Hsound Hids. unfold terminate_all.
  destruct (terminate_start_spec w ids w Hsound (terminating_refl w))
    as (S1 & S2 & S3 & S4).
  destruct (terminate_start w ids) as [[w1 e1] waiting]. cbn [fst snd] in *.
  destruct (terminate_resume_spec w waiting w1 S1 S2) as (R1 & R2 & R3).
  destruct (terminate_resume w1 waiting) as [w2 e2]. cbn [fst snd] in *.
  assert (∀ i, sessions w2 !! i = None) as Hempty.
  { intros i. destruct (sessions w !! i) as [o|] eqn:Hi.
    - destruct (S3 i) as [Hnone|[o' Ho']]; [apply Hids; eauto|by apply R3|].
      by eapply R2.
    - destruct (sessions w2 !! i) as [o|] eqn:Hi2; [|done].
      pose proof (tg_shrinks _ _ R1 _ _ Hi2). congruence. }
  split.
  - apply map_eq. intros i. by rewrite Hempty, lookup_empty.
  - intros i o Hi. destruct (tg_progress _ _ R1 _ _ Hi) as [Hstill|[_ ?]]; [|done].
    rewrite Hempty in Hstill. done.
Qed.

(** [terminateAllSessions], with the calls it starts suspended at their
    [await] and resumed afterwards, leaves the registry empty, and every
    session that was registered is Stopped and without a client. *)
Theorem terminateAllSessions_empties (w : World) :
  registry_sound w →
  sessions (terminateAllSessions w).1 = ∅
  ∧ ∀ i o, sessions w !! i = Some o → terminated (terminateAllSessions w).1 o.
Proof.
  intros Hsound. apply terminate_all_spec; [done|].
  intros i [o Hi]. apply list_elem_of_fmap. exists (i, o). split; [done|].
  by apply elem_of_map_to_list.
Qed.

Lemma terminateAllSessions_empties_witness :
  sessions (terminateAllSessions two_sessions).1 = ∅
  ∧ terminated (terminateAllSessions two_sessions).1 1%nat.
Proof.
  assert (registry_sound two_sessions) as Hsound.
  { intros i o Hi. apply (wf_registry (created two_sessions_steps)) in Hi
      as (s & -> & _); [eauto|].
    apply run_wf. unfold fresh_ids. cbn.
    apply NoDup_cons. split; [|apply NoDup_singleton].
    intros Hin%list_elem_of_singleton. discriminate. }
  destruct (terminateAllSessions_empties two_sessions Hsound) as [H1 H2].
  split; [exact H1|]. apply (H2 "s2"). vm_compute. reflexivity.
Defined.

Lemma size_delete_registered {A} (m : gmap string A) (i : string) (x : A) :
  m !! i = Some x → size m = S (size (delete i m)).
Proof.
  intros Hi. rewrite <- (insert_id m i x) at 1 by done.
  rewrite <- insert_delete_eq. apply map_size_insert_None, lookup_delete_eq.
Qed.

(** Terminating one session leaves every other session object and every
    other registration as they were. *)
Theorem terminate_leaves_others (w : World) (i : string) (o : ref)
    (session : DebugSession) :
  getSession w i = Some (o, session) →
  (∀ o', o' ≠ o → heap (terminateSession w i).1 !! o' = heap w !! o')
  ∧ (∀ j, j ≠ i → sessions (terminateSession w i).1 !! j = sessions w !! j)
  ∧ size (sessions w) = S (size (sessions (terminateSession w i).1)).
Proof.
  intros Hg. pose proof Hg as [Hi Hs]%getSession_Some.
  unfold terminateSession. rewrite Hg.
  destruct (pythonProcess session) as [p|]; [destruct (negb (killed p))|];
    cbn [fst]; (split_and!;
      [ intros o' Ho'; cbn [unregister heap];
        by rewrite !lookup_update_object, !decide_False by done
      | intros j Hj; cbn; by rewrite lookup_delete_ne
      | cbn; by apply size_delete_registered with o ]).
Qed.

Lemma terminate_leaves_others_witness :
  heap (terminateSession two_sessions "s1").1 !! 1%nat = heap two_sessions !! 1%nat
  ∧ sessions (terminateSession two_sessions "s1").1 !! "s2" = Some 1%nat.
Proof.
  destruct (heap two_sessions !! 0%nat) as [session|] eqn:Hs;
    [|vm_compute in Hs; discriminate].
  destruct (terminate_leaves_others two_sessions "s1" 0%nat session)
    as (H1 & H2 & _).
  - apply getSession_Some. split; [reflexivity | exact Hs].
  - split; [by apply H1|]. by rewrite H2.
Defined.

(** *** Removing a breakpoint *)

Lemma fmap_filter_line (line : Z) (bps : list Breakpoint) :
  bp_line <$> filter (fun bp => bp_line bp ≠ Some line) bps
  = filter (fun l => l ≠ Some line) (bp_line <$> bps).
Proof.
  induction bps as [|bp bps IH]; [done|].
  cbn [fmap list_fmap]. rewrite !filter_cons. cbn beta.
  destruct (decide (bp_line bp ≠ Some line)); cbn [fmap list_fmap]; by rewrite IH.
Qed.

Lemma filter_all {A} (P : A → Prop) `{∀ x, Decision (P x)} (l : list A) :
  Forall P l → filter P l = l.
Proof.
  induction 1 as [|x l Hx _ IH]; [done|]. by rewrite filter_cons_True, IH.
Qed.

Lemma set_breakpoint_lines (w : World) (i f : string) (line : Z)
    (adapter : Adapter) (o : ref) (c : DAPClient) :
  connected_session w i o c → f ≠ EmptyString → 1 ≤ line → conformant adapter →
  bp_line <$> getBreakpoints (set_breakpoint w i f line (Resolved ()) adapter).1
                i (Some f)
  = lines_to_set w i f line.
Proof.
  intros (s & Hg & Hc) Hf Hline Hadapter.
  unfold set_breakpoint. rewrite Hg, Hc.
  assert ((line <? 1) = false) as -> by (apply Z.ltb_ge; lia).
  destruct (Hadapter f (lines_to_set w i f line)) as (bps & -> & Hlen).
  cbn [fst].
  rewrite (getBreakpoints_file _ _ _ _ _ (setBreakpoints_session _ _ f _ _ _ Hg) Hf).
  cbn. rewrite lookup_insert_eq. cbn. by apply response_breakpoints_lines.
Qed.

Lemma remove_breakpoint_lines (w : World) (i f : string) (line : Z)
    (adapter : Adapter) (o : ref) (c : DAPClient) :
  connected_session w i o c → f ≠ EmptyString → conformant adapter →
  bp_line <$> getBreakpoints (remove_breakpoint w i f line adapter).1 i (Some f)
  = lines_to_keep w i f line.
Proof.
  intros (s & Hg & Hc) Hf Hadapter.
  unfold remove_breakpoint. rewrite Hg, Hc.
  destruct (Hadapter f (lines_to_keep w i f line)) as (bps & -> & Hlen).
  cbn [fst].
  rewrite (getBreakpoints_file _ _ _ _ _ (setBreakpoints_session _ _ f _ _ _ Hg) Hf).
  cbn. rewrite lookup_insert_eq. cbn. by apply response_breakpoints_lines.
Qed.

(** [remove_breakpoint], answered by the adapter with one entry per line
    sent: the line is gone from the file's list, and the other lines of the
    file stay, in their order. *)
Theorem remove_breakpoint_removes (w : World) (i f : string) (line : Z)
    (adapter : Adapter) (o : ref) (c : DAPClient) :
  connected_session w i o c → f ≠ EmptyString → conformant adapter →
  bp_line <$> getBreakpoints (remove_breakpoint w i f line adapter).1 i (Some f)
  = filter (fun l => l ≠ Some line) (bp_line <$> getBreakpoints w i (Some f))
  ∧ occurrences line
      (getBreakpoints (remove_breakpoint w i f line adapter).1 i (Some f)) = 0%nat.
Proof.
  intros Hconn Hf Hadapter.
  pose proof (remove_breakpoint_lines w i f line adapter o c Hconn Hf Hadapter) as Hl.
  unfold lines_to_keep in Hl. rewrite fmap_filter_line in Hl. split; [done|].
  apply occurrences_none. rewrite Hl. by intros [Hne _]%list_elem_of_filter.
Qed.

Lemma remove_breakpoint_removes_witness :
  let w2 := set_breakpoint_repeatedly started "s1" "/t/a.py" 25 [verifying_adapter] in
  let w3 := (set_breakpoint w2 "s1" "/t/a.py" 30 (Resolved ()) verifying_adapter).1 in
  occurrences 25
    (getBreakpoints (remove_breakpoint w3 "s1" "/t/a.py" 25 verifying_adapter).1
       "s1" (Some "/t/a.py")) = 0%nat.
Proof.
  intros w2 w3.
  destruct (heap w3 !! 0%nat) as [session|] eqn:Hs;
    [|vm_compute in Hs; discriminate].
  assert (Some session = heap w3 !! 0%nat) as Hs' by done.
  vm_compute in Hs'. injection Hs' as Hs'.
  apply (remove_breakpoint_removes w3 "s1" "/t/a.py" 25 verifying_adapter
           0%nat a_client).
  - exists session. split; [|by subst session].
    apply getSession_Some. split; [reflexivity | exact Hs].
  - discriminate.
  - intros f lines; eexists; (split; [reflexivity|]); apply length_fmap.
Defined.

(** Setting a breakpoint at a line that has none and removing it again
    brings the file's lines back to what they were. *)
Theorem set_then_remove_restores (w : World) (i f : string) (line : Z)
    (adapter adapter' : Adapter) (o : ref) (c : DAPClient) :
  connected_session w i o c → f ≠ EmptyString → 1 ≤ line →
  conformant adapter → conformant adapter' →
  Some line ∉ bp_line <$> getBreakpoints w i (Some f) →
  bp_line <$>
    getBreakpoints
      (remove_breakpoint (set_breakpoint w i f line (Resolved ()) adapter).1
         i f line adapter').1 i (Some f)
  = bp_line <$> getBreakpoints w i (Some f).
Proof.
  intros Hconn Hf Hline Ha Ha' Hnew.
  pose proof (set_breakpoint_lines w i f line adapter o c Hconn Hf Hline Ha) as Hl1.
  pose proof (set_breakpoint_keeps_session w i f line (Resolved ()) adapter o c Hconn)
    as Hconn1.
  rewrite (remove_breakpoint_lines _ i f line adapter' o c Hconn1 Hf Ha').
  unfold lines_to_keep. rewrite fmap_filter_line, Hl1.
  unfold lines_to_set. rewrite bool_decide_false by done.
  rewrite filter_app, filter_cons_False, filter_nil, app_nil_r by (intros H; by apply H).
  apply filter_all. apply Forall_forall. intros l Hin ->. by apply Hnew.
Qed.

Lemma set_then_remove_restores_witness :
  let w2 := set_breakpoint_repeatedly started "s1" "/t/a.py" 25 [verifying_adapter] in
  bp_line <$>
    getBreakpoints
      (remove_breakpoint
         (set_breakpoint w2 "s1" "/t/a.py" 30 (Resolved ()) verifying_adapter).1
         "s1" "/t/a.py" 30 verifying_adapter).1 "s1" (Some "/t/a.py")
  = bp_line <$> getBreakpoints w2 "s1" (Some "/t/a.py").
Proof.
  intros w2.
  destruct (heap w2 !! 0%nat) as [session|] eqn:Hs;
    [|vm_compute in Hs; discriminate].
  assert (Some session = heap w2 !! 0%nat) as Hs' by done.
  vm_compute in Hs'. injection Hs' as Hs'.
  apply (set_then_remove_restores w2 "s1" "/t/a.py" 30 verifying_adapter
           verifying_adapter 0%nat a_client).
  - exists session. split; [|by subst session].
    apply getSession_Some. split; [reflexivity | exact Hs].
  - discriminate.
  - lia.
  - intros f lines; eexists; (split; [reflexivity|]); apply length_fmap.
  - intros f lines; eexists; (split; [reflexivity|]); apply length_fmap.
  - vm_compute. intros Hin. apply list_elem_of_singleton in Hin. discriminate.
Defined.

(** *** Breakpoints of other files and other sessions *)

Lemma getBreakpoints_same (w w' : World) (i : string) (file : option string) :
  snd <$> getSession w' i = snd <$> getSession w i →
  getBreakpoints w' i file = getBreakpoints w i file.
Proof.
  unfold getBreakpoints.
  destruct (getSession w' i) as [[o' s']|], (getSession w i) as [[o s]|];
    cbn; intros [=]; by subst.
Qed.

Lemma setBreakpoints_elsewhere (ids : list string) (w : World) (i f : string)
    (bps : list Breakpoint) (j g : string) :
  wf ids w → j ≠ i ∨ g ≠ f → g ≠ EmptyString →
  getBreakpoints (setBreakpoints w i f bps) j (Some g) = getBreakpoints w j (Some g).
Proof.
  intros Hwf Hne Hg.
  destruct (getSession w i) as [[o s]|] eqn:Hi;
    [|by unfold setBreakpoints; rewrite Hi].
  pose proof Hi as [Hri Hs]%getSession_Some.
  destruct (getSession w j) as [[o' s']|] eqn:Hj.
  - pose proof Hj as [Hrj Hs']%getSession_Some.
    destruct (decide (o' = o)) as [->|Hoo].
    + assert (s' = s) as -> by congruence.
      destruct (wf_registry _ _ Hwf _ _ Hri) as (s1 & Hs1 & Hid1).
      destruct (wf_registry _ _ Hwf _ _ Hrj) as (s2 & Hs2 & Hid2).
      assert (j = i) as -> by congruence.
      destruct Hne as [?|Hgf]; [done|].
      rewrite (getBreakpoints_file _ _ _ _ _ (setBreakpoints_session _ _ f _ _ bps Hi) Hg).
      rewrite (getBreakpoints_file _ _ _ _ _ Hi Hg). cbn.
      by rewrite lookup_insert_ne.
    + unfold setBreakpoints. rewrite Hi.
      apply getBreakpoints_same. rewrite Hj.
      assert (getSession
                (update_object o (with_breakpoints (<[f:=bps]> (breakpoints s))) w) j
              = Some (o', s')) as ->; [|done].
      apply getSession_Some. split; [done|].
      by rewrite lookup_update_object, decide_False.
  - unfold setBreakpoints. rewrite Hi.
    apply getBreakpoints_same. rewrite Hj.
    destruct (getSession (update_object o _ w) j) as [[o' s']|] eqn:Hj'; [|done].
    apply update_keeps_getSession in Hj' as [s0 Hs0]. congruence.
Qed.

(** Setting or removing a breakpoint in one file of one session, whatever
    the adapter answers, leaves the breakpoints listed for every other file
    and for every other session as they were. *)
Theorem breakpoints_elsewhere_kept (steps : list Step) (i f : string) (line : Z)
    (validation : Reply unit) (adapter : Adapter) (j g : string) :
  fresh_ids steps → j ≠ i ∨ g ≠ f → g ≠ EmptyString →
  getBreakpoints (set_breakpoint (run initial steps) i f line validation adapter).1
    j (Some g)
  = getBreakpoints (run initial steps) j (Some g)
  ∧ getBreakpoints (remove_breakpoint (run initial steps) i f line adapter).1
      j (Some g)
    = getBreakpoints (run initial steps) j (Some g).
Proof.
  intros Hfresh Hne Hg. pose proof (run_wf steps Hfresh) as Hwf. split.
  - unfold set_breakpoint.
    destruct (getSession (run initial steps) i) as [[o s]|]; [|done].
    destruct (dapClient s); [|done]. destruct (line <? 1); [done|].
    destruct validation; [|done].
    destruct (adapter f _) as [[[[bps|]]|]|]; try done.
    cbn [fst]. by eapply setBreakpoints_elsewhere.
  - unfold remove_breakpoint.
    destruct (getSession (run initial steps) i) as [[o s]|]; [|done].
    destruct (dapClient s); [|done].
    destruct (adapter f _) as [[[[bps|]]|]|]; try done.
    cbn [fst]. by eapply setBreakpoints_elsewhere.
Qed.

Lemma breakpoints_elsewhere_kept_witness :
  getBreakpoints
    (set_breakpoint (run initial two_sessions_steps) "s1" "/t/a.py" 25 (Resolved ())
       verifying_adapter).1 "s2" (Some "/t/a.py")
  = getBreakpoints (run initial two_sessions_steps) "s2" (Some "/t/a.py").
Proof.
  refine (proj1 (breakpoints_elsewhere_kept two_sessions_steps "s1" "/t/a.py" 25
                   (Resolved ()) verifying_adapter "s2" "/t/a.py" _ _ _)).
  - unfold fresh_ids. cbn. apply NoDup_cons. split; [|apply NoDup_singleton].
    intros Hin%list_elem_of_singleton. discriminate.
  - left. discriminate.
  - discriminate.
Defined.

(** *** Retrying an operation *)

Lemma retry_loop_outcome {A : Type} (operation : nat → Reply A)
    (maxRetries turns attempt : nat) :
  (attempt + turns = S maxRetries)%nat → (1 ≤ attempt)%nat →
  (∀ j, (1 ≤ j < attempt)%nat → ∃ e, operation j = Rejected e) →
  match retry_loop operation maxRetries attempt turns with
  | Some (Resolved a) =>
      ∃ k, (1 ≤ k ≤ maxRetries)%nat ∧ operation k = Resolved a
           ∧ ∀ j, (1 ≤ j < k)%nat → ∃ e, operation j = Rejected e
  | Some (Rejected e) =>
      (1 ≤ maxRetries)%nat ∧ operation maxRetries = Rejected e
      ∧ ∀ j, (1 ≤ j ≤ maxRetries)%nat → ∃ e', operation j = Rejected e'
  | None => turns = 0%nat
  end.
Proof.
  revert attempt. induction turns as [|turns IH]; intros attempt Hsum Hpos Hbefore;
    [done|].
  cbn [retry_loop]. destruct (operation attempt) as [a|e] eqn:Hop.
  - exists attempt. split; [lia|]. by split.
  - destruct (Nat.eqb_spec attempt maxRetries) as [->|Hne].
    + split; [lia|]. split; [done|]. intros j Hj.
      destruct (decide (j = maxRetries)) as [->|]; [eauto|apply Hbefore; lia].
    + assert (∀ j, (1 ≤ j < S attempt)%nat → ∃ e', operation j = Rejected e') as Hnext.
      { intros j Hj. destruct (decide (j = attempt)) as [->|]; [eauto|].
        apply Hbefore. lia. }
      specialize (IH (S attempt) ltac:(lia) ltac:(lia) Hnext).
      destruct (retry_loop operation maxRetries (S attempt) turns) as [[a|e']|];
        [done..|]. lia.
Qed.

(** [retryDAPOperation] calls the operation at most [maxRetries] times; it
    returns the first success, the calls before it having failed, or throws
    the error of the last call when all of them failed.  It ends without a
    result only when [maxRetries] is 0. *)
Theorem retry_outcome {A : Type} (operation : nat → Reply A) (maxRetries : nat) :
  match retryDAPOperation operation maxRetries with
  | Some (Resolved a) =>
      ∃ k, (1 ≤ k ≤ maxRetries)%nat ∧ operation k = Resolved a
           ∧ ∀ j, (1 ≤ j < k)%nat → ∃ e, operation j = Rejected e
  | Some (Rejected e) =>
      (1 ≤ maxRetries)%nat ∧ operation maxRetries = Rejected e
      ∧ ∀ j, (1 ≤ j ≤ maxRetries)%nat → ∃ e', operation j = Rejected e'
  | None => maxRetries = 0%nat
  end.
Proof.
  unfold retryDAPOperation. apply retry_loop_outcome; [lia..|]. intros j Hj. lia.
Qed.

(** *** A session that has been stopped *)

Lemma terminateSession_cleans (w : World) (i : string) (o : ref)
    (s : DebugSession) :
  getSession w i = Some (o, s) →
  getSession (terminateSession w i).1 i = None
  ∧ terminated (terminateSession w i).1 o
  ∧ (∀ c sock, dapClient s = Some c → socket c = Some sock →
       SocketEnd o ∈ (terminateSession w i).2)
  ∧ (∀ p, pythonProcess s = Some p → killed p = false →
       Kill o SIGTERM ∈ (terminateSession w i).2)
  ∧ (pythonProcess s = None →
       Forall (fun e => match e with Kill _ _ => False | _ => True end)
         (terminateSession w i).2).
Proof.
  intros Hg. pose proof Hg as [Hi Hs]%getSession_Some.
  unfold terminateSession. rewrite Hg.
  destruct (pythonProcess s) as [p|] eqn:Hp; [destruct (killed p) eqn:Hk|];
    cbn [negb fst snd]; (split_and!;
      [ unfold getSession; cbn; by rewrite lookup_delete_eq
      | unfold terminated; cbn [unregister heap];
        rewrite !lookup_update_object, !decide_True, Hs by done; cbn; eauto
      | intros c sock -> ->; set_solver
      | intros p' [= <-] Hk'; try congruence; set_solver
      | first [ done
              | intros _; destruct (dapClient s) as [c|];
                [destruct (socket c)|]; repeat constructor ] ]).
Qed.

(** After [stop_debug_session], whether or not the session existed, every
    tool called with its identifier is refused, the tools that write leave
    the world as it is, and an answer that arrives late for an execution
    tool changes nothing. *)
Theorem stopped_session_refused (w : World) (i : string) :
  let w' := (stop_debug_session w i).1.1 in
  getSession w' i = None
  ∧ (∀ tool, execution_call tool w' i = inl (no_active_thread i))
  ∧ (∀ tool answer, (execution_resume tool w' i answer).1 = w')
  ∧ (∀ f line validation adapter,
       set_breakpoint w' i f line validation adapter = (w', session_not_connected i))
  ∧ (∀ f line adapter,
       remove_breakpoint w' i f line adapter = (w', session_not_connected i))
  ∧ (∀ file, getBreakpoints w' i file = [])
  ∧ get_variables_call w' i = inl (no_active_frame i)
  ∧ (∀ expression, evaluate_expression_call w' i expression = inl (no_active_frame i))
  ∧ (stop_debug_session w' i).1.1 = w'.
Proof.
  intros w'.
  assert (getSession w' i = None) as Hnone.
  { subst w'. unfold stop_debug_session.
    destruct (getSession w i) as [[o s]|] eqn:Hg; [|done].
    destruct (terminateSession w i) as [w1 e1] eqn:Ht. cbn [fst].
    assert (sessions w1 !! i = None) as Hi.
    { unfold terminateSession in Ht. rewrite Hg in Ht.
      destruct (pythonProcess s) as [p|]; [destruct (negb (killed p))|];
        injection Ht as <- _; apply lookup_delete_eq. }
    unfold getSession. by rewrite Hi. }
  split_and!; [done|..].
  - intros []; cbn; unfold debug_continue_call, debug_step_over_call,
      debug_step_in_call, debug_step_out_call, active_thread; by rewrite Hnone.
  - intros [] [a|e]; cbn; try done. unfold updateSessionState. by rewrite Hnone.
  - intros. unfold set_breakpoint. by rewrite Hnone.
  - intros. unfold remove_breakpoint. by rewrite Hnone.
  - intros. unfold getBreakpoints. by rewrite Hnone.
  - unfold get_variables_call. by rewrite Hnone.
  - intros. unfold evaluate_expression_call. by rewrite Hnone.
  - unfold stop_debug_session at 1. by rewrite Hnone.
Qed.

(** *** What holds of every reachable registry *)

Lemma omap_length_total {A B : Type} (f : A → option B) (l : list A) :
  Forall (fun x => is_Some (f x)) l → length (omap f l) = length l.
Proof.
  induction 1 as [|x l [y Hy] _ IH]; [done|]. cbn. rewrite Hy. cbn. by rewrite IH.
Qed.

(** In every state the server can reach, each registered identifier leads
    to a session object that bears this identifier, no object is registered
    under two identifiers, and [getSessionStats] counts as many sessions as
    are registered. *)
Theorem registry_consistent (steps : list Step) :
  fresh_ids steps →
  (∀ i o, sessions (run initial steps) !! i = Some o →
          ∃ s, getSession (run initial steps) i = Some (o, s) ∧ id s = i)
  ∧ (∀ i j o, sessions (run initial steps) !! i = Some o →
              sessions (run initial steps) !! j = Some o → i = j)
  ∧ stats_total (getSessionStats (run initial steps))
    = size (sessions (run initial steps)).
Proof.
  intros Hfresh. pose proof (run_wf steps Hfresh) as Hwf. split_and!.
  - intros i o Hi. destruct (wf_registry _ _ Hwf _ _ Hi) as (s & Hs & Hid).
    exists s. split; [by apply getSession_Some|done].
  - intros i j o Hi Hj.
    destruct (wf_registry _ _ Hwf _ _ Hi) as (s & Hs & Hid).
    destruct (wf_registry _ _ Hwf _ _ Hj) as (s' & Hs' & Hid').
    congruence.
  - cbn. unfold getAllSessions. rewrite omap_length_total.
    + apply length_map_to_list.
    + apply Forall_forall. intros [i o] Hin%elem_of_map_to_list. cbn.
      destruct (wf_registry _ _ Hwf _ _ Hin) as (s & -> & _). eauto.
Qed.

Lemma registry_consistent_witness :
  stats_total (getSessionStats two_sessions) = size (sessions two_sessions).
Proof.
  apply (registry_consistent two_sessions_steps).
  unfold fresh_ids. cbn. apply NoDup_cons. split; [|apply NoDup_singleton].
  intros Hin%list_elem_of_singleton. discriminate.
Defined.

(** In every state the server can reach, whatever the adapter answered to
    the requests made for them, the breakpoints cached for a file name no
    line twice. *)
Theorem lines_never_repeat (steps : list Step) (o : ref) (s : DebugSession)
    (f : string) (bps : list Breakpoint) :
  fresh_ids steps →
  heap (run initial steps) !! o = Some s →
  f ≠ EmptyString → breakpoints s !! f = Some bps →
  NoDup (omap bp_line bps).
Proof.
  intros Hfresh Hs Hf Hbps. pose proof (run_wf steps Hfresh) as Hwf.
  destruct (wf_inv _ _ Hwf _ _ Hs) as [_ Hl]. by eapply Hl.
Qed.

Lemma lines_never_repeat_witness :
  ∃ bps,
    (heap (run initial (started_steps
             ++ [SSetBreakpoint "s1" "/t/a.py" 25 (Resolved ()) verifying_adapter;
                 SSetBreakpoint "s1" "/t/a.py" 25 (Resolved ()) verifying_adapter]))
       !! 0%nat) ≫= (fun s => breakpoints s !! "/t/a.py") = Some bps
    ∧ NoDup (omap bp_line bps).
Proof.
  set (steps := started_steps
         ++ [SSetBreakpoint "s1" "/t/a.py" 25 (Resolved ()) verifying_adapter;
             SSetBreakpoint "s1" "/t/a.py" 25 (Resolved ()) verifying_adapter]).
  destruct (heap (run initial steps) !! 0%nat) as [s|] eqn:Hs;
    [|vm_compute in Hs; discriminate].
  destruct (breakpoints s !! "/t/a.py") as [bps|] eqn:Hb.
  - exists bps. split; [exact Hb|].
    apply (lines_never_repeat steps 0%nat s "/t/a.py" bps).
    + unfold fresh_ids. cbn. apply NoDup_singleton.
    + exact Hs.
    + discriminate.
    + exact Hb.
  - exfalso. assert (Some s = heap (run initial steps) !! 0%nat) as Hs' by done.
    vm_compute in Hs'. injection Hs' as ->. vm_compute in Hb. discriminate.
Defined.

(** The current frame of a session, once known, is never forgotten:
    whatever happens afterwards, also when the program runs on, the session
    goes on having a current frame, so that the tools guarded by it stay
    open. *)
Theorem frame_context_kept (steps after : list Step) (o : ref) :
  fresh_ids (steps ++ after) →
  has_frame (run initial steps) o →
  has_frame (run initial (steps ++ after)) o.
Proof.
  intros Hfresh Hframe. unfold fresh_ids in Hfresh. rewrite created_app in Hfresh.
  rewrite run_app. apply (run_has_frame after (created steps)); [|done..].
  apply run_wf. by apply NoDup_app in Hfresh as (? & _).
Qed.

Lemma frame_context_kept_witness :
  has_frame
    (run initial (stopped_steps
                  ++ [SResume debug_continue "s1" (Resolved ()); SContinued 0%nat]))
    0%nat.
Proof.
  apply frame_context_kept.
  - unfold fresh_ids. cbn. apply NoDup_singleton.
  - destruct (heap (run initial stopped_steps) !! 0%nat) as [s|] eqn:Hs;
      [|vm_compute in Hs; discriminate].
    exists s. split; [exact Hs|].
    assert (Some s = heap (run initial stopped_steps) !! 0%nat) as Hs' by done.
    vm_compute in Hs'. injection Hs' as ->. cbn. eauto.
Defined.

Section Inspection.

Variable toLowerCase : string → string.

(** Whatever [get_variables] lists for a scope, it lists for ['all'], in the
    same order: when the request for ['all'] goes through, so does the one
    for any other scope, and it gives a part of the same list.  Every
    variable listed bears the name of a scope the adapter returned and the
    filter selected. *)
Theorem scoped_variables_within_all (scope : string) (scopes : list Scope)
    (variables_of : Z → Reply (list DapVariable)) (all : list ScopedVariable) :
  collect_variables toLowerCase "all" scopes variables_of = Resolved all →
  ∃ vs, collect_variables toLowerCase scope scopes variables_of = Resolved vs
        ∧ vs `sublist_of` all
        ∧ Forall (fun v => ∃ scopeObj, scopeObj ∈ scopes
                           ∧ var_scope v = scope_name scopeObj
                           ∧ scope_selected toLowerCase scope scopeObj = true) vs.
Proof.
  revert all. induction scopes as [|scopeObj scopes IH]; intros all Hall.
  - injection Hall as <-. exists []. by split_and!.
  - cbn [collect_variables] in Hall |- *.
    change (scope_selected toLowerCase "all" scopeObj) with true in Hall.
    cbn match in Hall.
    destruct (variables_of (variablesReference scopeObj)) as [vars|e]; [|done].
    destruct (collect_variables toLowerCase "all" scopes variables_of)
      as [rest|e]; [|done].
    injection Hall as <-.
    destruct (IH rest eq_refl) as (vs & -> & Hsub & Hfrom).
    assert (Forall (fun v => ∃ scopeObj', scopeObj' ∈ scopeObj :: scopes
                             ∧ var_scope v = scope_name scopeObj'
                             ∧ scope_selected toLowerCase scope scopeObj' = true) vs)
      as Hfrom'.
    { eapply Forall_impl; [exact Hfrom|]. intros v (sc & Hin & ? & ?).
      exists sc. split_and!; [by apply list_elem_of_further|done..]. }
    destruct (scope_selected toLowerCase scope scopeObj) eqn:Hsel.
    + eexists. split_and!; [done|by apply sublist_app|].
      apply Forall_app. split; [|done]. apply Forall_fmap, Forall_forall.
      intros v _. exists scopeObj. split_and!; [apply list_elem_of_here|done..].
    + exists vs. split_and!; [done|by apply sublist_inserts_l|done].
Qed.

End Inspection.

Lemma scoped_variables_within_all_witness :
  ∃ vs,
    collect_variables (fun s => s) "local"
      [{| scope_name := "locals"; variablesReference := 3 |};
       {| scope_name := "globals"; variablesReference := 4 |}]
      (fun r => Resolved [{| var_name := "x"; var_value := "1";
                             var_type := Some "int" |}]) = Resolved vs
    ∧ length vs = 1%nat.
Proof.
  destruct (scoped_variables_within_all (fun s => s) "local"
              [{| scope_name := "locals"; variablesReference := 3 |};
               {| scope_name := "globals"; variablesReference := 4 |}]
              (fun r => Resolved [{| var_name := "x"; var_value := "1";
                                     var_type := Some "int" |}])
              _ eq_refl) as (vs & Hvs & _).
  exists vs. split; [exact Hvs|].
  vm_compute in Hvs. injection Hvs as <-. reflexivity.
Defined.

End SessionsProps.

(** ** Attach rendezvous *)

Module AttachProps.
Import Attach.

(** *** The rendezvous of one attempt *)

Lemma prologue_sets_up : set_up (fold_left perform attempt_prologue nothing_set_up).
Proof. cbn. split_and!; [done..|]. eauto. Qed.

Lemma deliver_settled (r : Rendezvous) (e : Event) :
  initializedPromise r ≠ Pending →
  initializedPromise (deliver r e) = initializedPromise r.
Proof.
  intros Hp. destruct e; cbn; try done.
  - destruct (listener r); [|done]. cbn. by destruct (initializedPromise r).
  - destruct (timeout r); [|done]. cbn. by destruct (initializedPromise r).
Qed.

Lemma deliver_set_up (r : Rendezvous) (e : Event) :
  set_up r →
  match e with
  | Initialized => initializedPromise (deliver r e) = Fulfilled
  | Deadline => initializedPromise (deliver r e) = Failed
  | _ => deliver r e = r
  end.
Proof.
  intros (Hp & Hl & [ms Ht]). destruct e; cbn; try done.
  - by rewrite Hl, Hp.
  - by rewrite Ht, Hp.
Qed.

Lemma await_initialized_settled (r : Rendezvous) (script : list Event) :
  initializedPromise r ≠ Pending →
  await_initialized r script
  = match initializedPromise r with
    | Fulfilled => Some true
    | _ => Some false
    end.
Proof.
  intros Hp. destruct script; cbn [await_initialized];
    by destruct (initializedPromise r).
Qed.

Lemma await_initialized_set_up (script : list Event) (r : Rendezvous) :
  set_up r → await_initialized r script = first_signal script.
Proof.
  revert r. induction script as [|e script IH]; intros r Hr.
  - cbn. by destruct Hr as (-> & _).
  - pose proof (deliver_set_up r e Hr) as He.
    cbn [await_initialized]. destruct Hr as (Hp & Hl & Ht). rewrite Hp.
    destruct e; cbn [first_signal];
      try (rewrite He; apply IH; by split_and!).
    + rewrite await_initialized_settled by (rewrite He; done). by rewrite He.
    + rewrite await_initialized_settled by (rewrite He; done). by rewrite He.
Qed.

(** The outcome of waiting for the answer to [attach] and then for the
    promise, from a rendezvous that is set up or already settled. *)
Lemma await_attach_outcome (script : list Event) (r : Rendezvous) :
  set_up r ∨ initializedPromise r ≠ Pending →
  match await_attach r script with
  | Some (r', rest) => await_initialized r' rest
  | None => None
  end
  = if attach_settles script then
      match initializedPromise r with
      | Pending => first_signal script
      | Fulfilled => Some true
      | Failed => Some false
      end
    else None.
Proof.
  revert r. induction script as [|e script IH]; intros r Hr; [done|].
  assert (∀ rest, await_initialized r rest
                  = match initializedPromise r with
                    | Pending => first_signal rest
                    | Fulfilled => Some true
                    | Failed => Some false
                    end) as Hnow.
  { intros rest. destruct Hr as [Hr|Hr].
    - rewrite (await_initialized_set_up rest r Hr). by destruct Hr as (-> & _).
    - rewrite await_initialized_settled by done.
      by destruct (initializedPromise r). }
  destruct e; cbn [await_attach attach_settles existsb orb first_signal];
    fold (attach_settles script); try apply Hnow.
  - (* Initialized *)
    rewrite IH.
    + destruct Hr as [Hr|Hr].
      * pose proof (deliver_set_up r Initialized Hr) as ->.
        by destruct Hr as (-> & _).
      * rewrite deliver_settled by done. by destruct (initializedPromise r).
    + right. destruct Hr as [Hr|Hr].
      * by rewrite (deliver_set_up r Initialized Hr).
      * by rewrite deliver_settled.
  - (* Deadline *)
    rewrite IH.
    + destruct Hr as [Hr|Hr].
      * pose proof (deliver_set_up r Deadline Hr) as ->.
        by destruct Hr as (-> & _).
      * rewrite deliver_settled by done. by destruct (initializedPromise r).
    + right. destruct Hr as [Hr|Hr].
      * by rewrite (deliver_set_up r Deadline Hr).
      * by rewrite deliver_settled.
  - (* Other *)
    by apply IH.
Qed.

Lemma attempt_decided (script : list Event) :
  attempt script = if attach_settles script then first_signal script else None.
Proof.
  unfold attempt.
  rewrite (await_attach_outcome script _ (or_introl prologue_sets_up)).
  reflexivity.
Qed.

Lemma first_signal_unanswered (before rest : list Event) (e : Event) :
  ¬ unanswered e →
  first_signal (before ++ e :: rest) = first_signal (before ++ rest).
Proof.
  intros He. induction before as [|b before IH]; cbn [app first_signal].
  - by destruct e; cbn in He; try (exfalso; by apply He).
  - by destruct b.
Qed.

Lemma first_signal_idle (before rest : list Event) :
  Forall idle before → first_signal (before ++ rest) = first_signal rest.
Proof.
  induction 1 as [|e before He _ IH]; [done|].
  cbn [app]. by destruct e.
Qed.

Lemma attach_settles_app (before rest : list Event) :
  attach_settles (before ++ rest) = attach_settles before || attach_settles rest.
Proof. apply existsb_app. Qed.

(** A rejected [attach] does not end the attempt: the event that arrives
    afterwards, before the deadline, makes it succeed. *)
Lemma attempt_rejected_then_initialized (script : list Event) :
  rejected_then_initialized script → attempt script = Some true.
Proof.
  intros (before & error & between & after & -> & Hb & Hbt).
  rewrite attempt_decided, attach_settles_app. cbn [attach_settles existsb orb].
  rewrite orb_true_r.
  rewrite first_signal_idle by done. cbn [first_signal].
  by rewrite first_signal_idle.
Qed.

(** C9.  [performAttachSequence] makes at most three attempts.  Each arms
    its 15-second timer and registers its one-shot listener for
    [initialized] before it sends [attach]; a failed attempt is followed by
    a 2-second wait, unless it was the third.  An attempt whose [attach] is
    rejected goes on waiting: from then on, as before, it is the first of
    the event and the deadline that decides it, so that it succeeds exactly
    when the event is received before the deadline, fails when the deadline
    comes first, and is still waiting when neither has come.  The sequence
    returns [true] at the first attempt that succeeds. *)
Theorem attach_rendezvous (scripts : nat → list Event) (k : nat) :
  (1 ≤ k ≤ 3)%nat →
  (∀ j, (1 ≤ j < k)%nat → attempt (scripts j) = Some false) →
  rejected_then_initialized (scripts k) →
  attempt (scripts k) = Some true
  ∧ performAttachSequence scripts
    = (concat (replicate (k - 1)
                 [SetTimeout 15000; Once "initialized"; SendAttach; Sleep 2000])
         ++ [SetTimeout 15000; Once "initialized"; SendAttach],
       Some true)
  ∧ (∀ failing, (∀ j, attempt (failing j) = Some false) →
       performAttachSequence failing
       = ([SetTimeout 15000; Once "initialized"; SendAttach; Sleep 2000;
           SetTimeout 15000; Once "initialized"; SendAttach; Sleep 2000;
           SetTimeout 15000; Once "initialized"; SendAttach],
          Some false))
  ∧ (∀ before error after, Forall unanswered before →
       attempt (before ++ AttachRejected error :: after)
       = first_signal (before ++ after))
  ∧ (∀ script, attach_settles script = false → attempt script = None).
Proof.
  intros Hk Hfail Hok%attempt_rejected_then_initialized.
  split_and!; [done| | | |].
  - unfold performAttachSequence.
    destruct k as [|[|[|[|k]]]]; try lia; cbn.
    + by rewrite Hok.
    + rewrite (Hfail 1%nat) by lia. by rewrite Hok.
    + rewrite (Hfail 1%nat), (Hfail 2%nat) by lia. by rewrite Hok.
  - intros failing Hall. unfold performAttachSequence. cbn.
    by rewrite !Hall.
  - intros before error after Hbefore.
    rewrite attempt_decided, attach_settles_app. cbn [attach_settles existsb orb].
    rewrite orb_true_r. apply first_signal_unanswered. cbn. tauto.
  - intros script Hnot. by rewrite attempt_decided, Hnot.
Qed.

Lemma attach_rendezvous_witness :
  performAttachSequence
    (fun j => if (j =? 1)%nat then [AttachRejected "Request timeout: attach"; Deadline]
              else late_script)
  = ([SetTimeout 15000; Once "initialized"; SendAttach; Sleep 2000;
      SetTimeout 15000; Once "initialized"; SendAttach], Some true).
Proof.
  refine (proj1 (proj2 (attach_rendezvous _ 2 _ _ _))).
  - lia.
  - intros j Hj. assert (j = 1%nat) as -> by lia. reflexivity.
  - exists [Other "output"], "Request timeout: attach", [Other "thread"], [].
    split_and!; [reflexivity | repeat constructor..].
Defined.

(** *** What decides an attempt *)

(** An attempt is decided by two things only: that the [attach] request
    settles, whichever way, and which of [initialized] and the 15-second
    deadline comes first.  An [initialized] that arrives before the answer
    to [attach] counts, since the listener is registered before the request
    is sent; a deadline that passes first fails the attempt even when
    [attach] is answered and the event arrives afterwards. *)
Theorem attempt_outcome (script : list Event) :
  attempt script = if attach_settles script then first_signal script else None.
Proof.
  unfold attempt.
  rewrite (await_attach_outcome script _ (or_introl prologue_sets_up)).
  reflexivity.
Qed.

End AttachProps.

(** ** Starting a session *)

Module StartupProps.
Import Correlator Sessions Startup SessionsProps.

Lemma getSession_update (w : World) (i : string) (o : ref) (s : DebugSession)
    (f : DebugSession → DebugSession) :
  getSession w i = Some (o, s) →
  getSession (update_object o f w) i = Some (o, f s).
Proof.
  intros [Hi Hs]%getSession_Some. apply getSession_Some.
  rewrite sessions_update_object, lookup_update_object, decide_True, Hs by done.
  done.
Qed.

Lemma createSession_getSession (w : World) (i path : string) :
  ∃ s, getSession (createSession w i path).1 i = Some (nextObject w, s)
       ∧ state s = starting ∧ pythonProcess s = None ∧ dapClient s = None.
Proof.
  eexists. split; [apply getSession_Some; cbn; by rewrite !lookup_insert_eq|done].
Qed.

(** What the handshake keeps of a session: its process, its client, its
    port. *)
Definition same_handles (s s' : DebugSession) : Prop :=
  pythonProcess s' = pythonProcess s ∧ dapClient s' = dapClient s
  ∧ port s' = port s.

Lemma initializeThreadContext_keeps (w : World) (i : string) (o : ref)
    (s : DebugSession) (a : Answers) :
  getSession w i = Some (o, s) →
  ∃ s', getSession (initializeThreadContext w o a) i = Some (o, s')
        ∧ same_handles s s'.
Proof.
  intros Hg. unfold initializeThreadContext, init_threads, init_frames.
  destruct (threads_answer a) as [[|t ts]|e]; try by exists s.
  destruct (frames_answer a) as [[|f fs]|e]; eexists;
    (split; [by repeat apply getSession_update|done]).
Qed.

Lemma dap_initialization_cases (w : World) (o : ref) (a : Answers) :
  match dap_initialization w o a with
  | None => (Attach.performAttachSequence (attach_scripts a)).2 = None
  | Some (w', Resolved _) => w' = initializeThreadContext w o a
  | Some (w', Rejected _) => w' = w
  end.
Proof.
  unfold dap_initialization.
  destruct (retryDAPOperation (initialize_answers a) 3) as [[[]|e]|]; try done;
    destruct (Attach.performAttachSequence (attach_scripts a)).2 as [[]|];
    try done;
    destruct (validation_answer a) as [[]|e']; try done;
    by destruct (retryDAPOperation (configurationDone_answers a) 2) as [[[]|e']|].
Qed.

Lemma updateSessionState_running (w : World) (i : string) (o : ref)
    (s : DebugSession) :
  getSession w i = Some (o, s) →
  ∃ s', getSession (updateSessionState w i running) i = Some (o, s')
        ∧ state s' = running ∧ same_handles s s'.
Proof.
  intros Hg. unfold updateSessionState. rewrite Hg. eexists.
  split; [by apply getSession_update|done].
Qed.

(** [start_debug_session] ends in one of two ways, unless an attempt of the
    attach sequence never ends.  Either it reports success, and the session
    is registered and Running with the process and the client that
    [startPythonProcess] returned; or it reports an error, and then no
    session is registered under the identifier, the session object is
    Stopped and without a client, and a process whose handle had been stored
    has been sent SIGTERM. *)
Theorem start_debug_session_outcome (w : World) (sessionId script_path : string)
    (valid : Reply unit) (spawned : Reply (ChildProcess * DAPClient))
    (a : Answers) :
  match start_debug_session w sessionId script_path valid spawned a with
  | None => (Attach.performAttachSequence (attach_scripts a)).2 = None
  | Some (w', effects, Content _) =>
      effects = []
      ∧ ∃ s p c, getSession w' sessionId = Some (nextObject w, s)
                 ∧ state s = running
                 ∧ spawned = Resolved (p, c)
                 ∧ pythonProcess s = Some p ∧ dapClient s = Some c
  | Some (w', effects, McpError _ _) =>
      match valid with
      | Rejected _ => w' = w ∧ effects = []
      | Resolved _ =>
          getSession w' sessionId = None
          ∧ terminated w' (nextObject w)
          ∧ ∀ p c, spawned = Resolved (p, c) → killed p = false →
                   Kill (nextObject w) SIGTERM ∈ effects
      end
  end.
Proof.
  unfold start_debug_session. destruct valid as [[]|e]; [|done].
  destruct (createSession_getSession w sessionId script_path)
    as (s1 & Hg1 & Hst1 & Hp1 & Hc1).
  destruct (createSession w sessionId script_path) as [w1 o] eqn:Hcreate.
  assert (o = nextObject w) as -> by (by injection Hcreate as _ <-).
  cbn [fst] in Hg1. destruct spawned as [[p c]|e].
  - pose proof (getSession_update w1 sessionId _ s1
                  (fun s => with_client (Some c) (with_process (Some p) s)) Hg1) as Hg2.
    fold (install w1 (nextObject w) (Some p) c) in Hg2.
    pose proof (dap_initialization_cases (install w1 (nextObject w) (Some p) c)
                  (nextObject w) a) as Hcases.
    destruct (dap_initialization _ _ a) as [[w3 [[]|e]]|]; [| |done].
    + subst w3.
      destruct (initializeThreadContext_keeps _ _ _ _ a Hg2) as (s3 & Hg3 & H3).
      destruct (updateSessionState_running _ _ _ _ Hg3) as (s4 & Hg4 & Hst4 & H4).
      destruct H3 as (Hp3 & Hc3 & _), H4 as (Hp4 & Hc4 & _).
      split; [done|]. exists s4, p, c. split_and!; [done..| |].
      * by rewrite Hp4, Hp3.
      * by rewrite Hc4, Hc3.
    + subst w3.
      destruct (terminateSession_cleans _ _ _ _ Hg2) as (T1 & T2 & _ & T4 & _).
      split_and!; [done..|]. intros p' c' [= <- <-] Hk. by apply (T4 p).
  - destruct (terminateSession_cleans _ _ _ _ Hg1) as (T1 & T2 & _).
    split_and!; [done..|]. intros p c [=].
Qed.

(** [attach_to_debugpy] never signals a process, whatever happens.  When it
    reports success the session is registered and Running on the port the
    caller named, with no process of its own and with the client the tool
    created, which holds the socket opened to that port; whether that client
    is still connected is not said.  When it reports an error after the
    script path was accepted, no session is registered under the identifier,
    the session object is Stopped and without a client, and the socket the
    tool opened has been ended. *)
Theorem attach_to_debugpy_outcome (w : World) (sessionId script_path : string)
    (port : Z) (valid connect : Reply unit) (a : Answers) (now : DAPClient) :
  match attach_to_debugpy w sessionId script_path port valid connect a now with
  | None => (Attach.performAttachSequence (attach_scripts a)).2 = None
  | Some (w', effects, result) =>
      no_signal effects
      ∧ match result with
        | Content _ =>
            connect = Resolved ()
            ∧ ∃ s, getSession w' sessionId = Some (nextObject w, s)
                   ∧ state s = running ∧ Sessions.port s = port
                   ∧ pythonProcess s = None
                   ∧ dapClient s = Some (client_on_port port now)
        | McpError _ _ =>
            match valid with
            | Rejected _ => w' = w ∧ effects = []
            | Resolved _ =>
                getSession w' sessionId = None
                ∧ terminated w' (nextObject w)
                ∧ SocketEnd (nextObject w) ∈ effects
            end
        end
  end.
Proof.
  unfold attach_to_debugpy. destruct valid as [[]|e]; [|by split; [constructor|]].
  destruct (createSession_getSession w sessionId script_path)
    as (s1 & Hg1 & Hst1 & Hp1 & Hc1).
  destruct (createSession w sessionId script_path) as [w1 o] eqn:Hcreate.
  assert (o = nextObject w) as -> by (by injection Hcreate as _ <-).
  cbn [fst] in Hg1.
  pose proof (getSession_update w1 sessionId _ s1 (with_port port) Hg1) as Hg2.
  pose proof (getSession_update _ sessionId _ _
                (fun s => with_client (Some (client_on_port port now))
                            (with_process None s)) Hg2) as Hg3.
  fold (install (update_object (nextObject w) (with_port port) w1) (nextObject w)
          None (client_on_port port now)) in Hg3.
  cbv zeta.
  set (w3 := install (update_object (nextObject w) (with_port port) w1)
               (nextObject w) None (client_on_port port now)) in *.
  destruct (terminateSession_cleans _ _ _ _ Hg3) as (T1 & T2 & T3 & _ & T5).
  assert (SocketEnd (nextObject w) ∈ (terminateSession w3 sessionId).2) as Hend
    by (by eapply T3).
  destruct connect as [[]|e]; [|by split_and!; [apply T5|..]].
  pose proof (dap_initialization_cases w3 (nextObject w) a) as Hcases.
  destruct (dap_initialization w3 (nextObject w) a) as [[w4 [[]|e]]|]; [| |done].
  - subst w4. split; [constructor|]. split; [done|].
    destruct (initializeThreadContext_keeps _ _ _ _ a Hg3) as (s4 & Hg4 & H4).
    destruct (updateSessionState_running _ _ _ _ Hg4) as (s5 & Hg5 & Hst5 & H5).
    destruct H4 as (Hp4 & Hc4 & Hport4), H5 as (Hp5 & Hc5 & Hport5).
    exists s5. split_and!; [done|done| | |].
    + by rewrite Hport5, Hport4.
    + by rewrite Hp5, Hp4.
    + by rewrite Hc5, Hc4.
  - subst w4. by split_and!; [apply T5|..].
Qed.

(** A start in which every request is answered at once, from the empty
    registry: the world reached is the one the handshake steps lead to. *)
Example start_reaches_started :
  start_debug_session initial "s1" "/t/a.py" (Resolved ())
    (Resolved (a_process, a_client)) smooth
  = Some (started, [], Content "Debug session started successfully!").
Proof. vm_compute. reflexivity. Qed.

End StartupProps.

(** ** Debug panel *)

Module BroadcasterProps.
Import Broadcaster.

Lemma at_place_spec (data : BreakpointData) (bp : PanelBreakpoint) :
  at_place data bp = true ↔ place bp = (data_file data, data_line data).
Proof.
  unfold at_place, place. rewrite andb_true_iff, String.eqb_eq, Z.eqb_eq.
  split; [by intros [-> ->] | by intros [= -> ->]].
Qed.

Lemma findIndex_Some {A : Type} (p : A → bool) (l : list A) (i : nat) :
  findIndex p l = Some i → ∃ x, l !! i = Some x ∧ p x = true.
Proof.
  revert i. induction l as [|y l IH]; intros i; [done|]. cbn [findIndex].
  destruct (p y) eqn:Hy.
  - intros [= <-]. by exists y.
  - destruct (findIndex p l) as [k|]; [|done]. cbn. intros [= <-].
    by apply IH.
Qed.

Lemma findIndex_None {A : Type} (p : A → bool) (l : list A) :
  findIndex p l = None → Forall (fun x => p x = false) l.
Proof.
  induction l as [|y l IH]; [constructor|]. cbn [findIndex].
  destruct (p y) eqn:Hy; [done|].
  destruct (findIndex p l); [done|]. intros _. constructor; auto.
Qed.

Lemma place_filter (data : BreakpointData) (bps : list PanelBreakpoint) :
  place <$> filter (fun bp => at_place data bp = false) bps
  = filter (fun pl => pl ≠ (data_file data, data_line data)) (place <$> bps).
Proof.
  induction bps as [|bp bps IH]; [done|].
  cbn [fmap list_fmap]. rewrite !filter_cons.
  pose proof (at_place_spec data bp) as Hspec.
  destruct (at_place data bp) eqn:Hat.
  - rewrite decide_False by done.
    rewrite decide_False by (intros Hne; apply Hne; by apply Hspec).
    exact IH.
  - rewrite decide_True by done.
    rewrite decide_True by (intros Heq; apply Hspec in Heq; done).
    cbn [fmap list_fmap]. by rewrite IH.
Qed.

(** The places the panel lists after a breakpoint event: a ['set'] or
    ['add'] leaves them as they are when the place is listed and appends it
    otherwise, a ['remove'] takes every entry of the place out and keeps the
    rest in order, and any other action changes nothing.  So a place is
    never listed more often than before. *)
Theorem panel_places (now : Z) (breakpoints : option (list PanelBreakpoint))
    (data : BreakpointData) :
  let here := (data_file data, data_line data) in
  let before := place <$> default [] breakpoints in
  place <$> updateBreakpointsInState now breakpoints data
  = if has_action data "set" || has_action data "add" then
      if bool_decide (here ∈ before) then before else before ++ [here]
    else if has_action data "remove" then filter (fun pl => pl ≠ here) before
    else before.
Proof.
  intros here before. unfold updateBreakpointsInState. cbv zeta.
  assert (has_action data "set" || has_action data "add" = true
          → has_action data "remove" = false) as Hexcl.
  { unfold has_action. destruct (data_action data) as [a|]; [|done].
    intros [Ha|Ha]%orb_true_iff; apply String.eqb_eq in Ha; by subst a. }
  destruct (has_action data "set" || has_action data "add") eqn:Hset.
  - rewrite Hexcl by done.
    destruct (findIndex (at_place data) (default [] breakpoints)) as [k|] eqn:Hk.
    + apply findIndex_Some in Hk as (bp & Hbp & Hat).
      apply at_place_spec in Hat.
      assert (here ∈ before) as Hin.
      { subst before here. rewrite <- Hat. apply list_elem_of_fmap.
        exists bp. split; [done|]. by eapply list_elem_of_lookup_2. }
      rewrite (bool_decide_eq_true_2 _ Hin).
      rewrite list_fmap_insert. apply list_insert_id.
      subst before. rewrite list_lookup_fmap, Hbp.
      cbn [fmap option_fmap option_map]. f_equal. exact Hat.
    + apply findIndex_None in Hk.
      assert (here ∉ before) as Hout.
      { subst before. intros (bp & Hpl & Hin)%list_elem_of_fmap.
        rewrite Forall_forall in Hk. specialize (Hk _ Hin).
        symmetry in Hpl. apply at_place_spec in Hpl. congruence. }
      rewrite (bool_decide_eq_false_2 _ Hout). by rewrite fmap_app.
  - destruct (has_action data "remove"); [apply place_filter|done].
Qed.

End BroadcasterProps.
